(** * Bounded task queue, promise/future hand-off and thread pool

    A shallow embedding of [std_threads/06_task_queue.cpp],
    [std_threads/07_promise_and_future.cpp],
    [std_threads/12_promise_future_exception.cpp] and
    [std_threads/14_simple_threadpool.cpp].

    Every member function of [ThreadSafeQueue] and [SimpleThreadPool] holds
    the object's mutex from its first statement up to the point where the
    shared fields are no longer touched, and a [condition_variable::wait]
    with a predicate re-tests that predicate under the mutex.  A call is
    therefore one atomic transition of the protected fields, enabled when
    its wait predicate holds; a thread whose predicate is false stays in
    [wait] and leaves the fields as they are.  Threads are modelled by the
    interleaving of such transitions. *)

From stdpp Require Import base option list strings pretty gmap.
From Stdlib Require Import ZArith Lia.

(** ** Calls that may wait on a condition variable *)

(** [Blocked]: the wait predicate is false, the caller sleeps and the
    object is unchanged.  [Done a]: the call ran to its [return]. *)
Inductive blocking (A : Type) : Type :=
| Blocked : blocking A
| Done (a : A) : blocking A.
Arguments Blocked {A}.
Arguments Done {A} a.

(** ** [ThreadSafeQueue<T>] (06_task_queue.cpp) *)

Module ThreadSafeQueue.
Section defs.
Context {T : Type}.

(** The fields guarded by [mtx].  [max_size] is a [size_t] that is only
    ever compared with [q.size()], so a natural number stands for it. *)
Record t : Type := mk {
  q : list T;
  max_size : nat;
  finished : bool
}.

(** [ThreadSafeQueue(size_t maxSize = 1000) : max_size(maxSize) {}] *)
Definition ThreadSafeQueue (maxSize : nat) : t :=
  {| q := []; max_size := maxSize; finished := false |}.

Definition default_max_size : nat := 1000.

(** [q.empty()] *)
Definition empty (l : list T) : bool :=
  match l with [] => true | _ :: _ => false end.

(** [[this]{ return q.size() < max_size || finished; }] *)
Definition producer_may_proceed (s : t) : bool :=
  bool_decide (length (q s) < max_size s) || finished s.

(** [[this]{ return !q.empty() || finished; }] *)
Definition consumer_may_proceed (s : t) : bool :=
  negb (empty (q s)) || finished s.

(** [void push(T item)]: the returned [unit] is the [void] result. *)
Definition push (item : T) (s : t) : blocking (unit * t) :=
  if producer_may_proceed s then
    if finished s then Done (tt, s)
    else Done (tt, {| q := q s ++ [item];
                      max_size := max_size s;
                      finished := finished s |})
  else Blocked.

(** [std::optional<T> pop()].  In the last branch [q] is not empty, so
    [head] is [Some (q.front())] and [tail] is the queue after
    [q.pop()]. *)
Definition pop (s : t) : blocking (option T * t) :=
  if consumer_may_proceed s then
    if empty (q s) && finished s then Done (None, s)
    else if empty (q s) then Done (None, s)
    else Done (head (q s), {| q := tail (q s);
                              max_size := max_size s;
                              finished := finished s |})
  else Blocked.

(** [void set_finished()] *)
Definition set_finished (s : t) : t :=
  {| q := q s; max_size := max_size s; finished := true |}.

(** Calls made by client threads, and what they return. *)
Inductive call : Type :=
| Push (item : T)
| Pop
| SetFinished.

Inductive ret : Type :=
| Void
| Popped (o : option T).

Definition exec (c : call) (s : t) : blocking (ret * t) :=
  match c with
  | Push item =>
      match push item s with
      | Done (_, s') => Done (Void, s')
      | Blocked => Blocked
      end
  | Pop =>
      match pop s with
      | Done (o, s') => Done (Popped o, s')
      | Blocked => Blocked
      end
  | SetFinished => Done (Void, set_finished s)
  end.

(** One thread issuing calls in sequence on a queue nobody else uses: a
    call that blocks is never woken, so the whole run is [Blocked]. *)
Fixpoint run (cs : list call) (s : t) : blocking (list ret * t) :=
  match cs with
  | [] => Done ([], s)
  | c :: cs' =>
      match exec c s with
      | Blocked => Blocked
      | Done (r, s') =>
          match run cs' s' with
          | Blocked => Blocked
          | Done (rs, s'') => Done (r :: rs, s'')
          end
      end
  end.

(** States of a queue constructed with bound [N], under any interleaving
    of completed calls from any number of threads. *)
Inductive reachable (N : nat) : t → Prop :=
| reachable_init : reachable N (ThreadSafeQueue N)
| reachable_step s c r s' :
    reachable N s → exec c s = Done (r, s') → reachable N s'.

(** The [std::optional] values among the results of a run. *)
Fixpoint popped (rs : list ret) : list (option T) :=
  match rs with
  | [] => []
  | Void :: rs' => popped rs'
  | Popped o :: rs' => o :: popped rs'
  end.

Fixpoint count_pops (cs : list call) : nat :=
  match cs with
  | [] => 0
  | Pop :: cs' => S (count_pops cs')
  | _ :: cs' => count_pops cs'
  end.

(** The items handed to [push] along a run, in the order of the calls. *)
Fixpoint pushed (cs : list call) : list T :=
  match cs with
  | [] => []
  | Push item :: cs' => item :: pushed cs'
  | _ :: cs' => pushed cs'
  end.

(** The items that the pops of a run handed out, in the order of the
    calls. *)
Fixpoint taken (rs : list ret) : list T :=
  match rs with
  | [] => []
  | Popped (Some item) :: rs' => item :: taken rs'
  | _ :: rs' => taken rs'
  end.
End defs.
Arguments t : clear implicits.
Arguments call : clear implicits.
Arguments ret : clear implicits.
End ThreadSafeQueue.

(** ** Exceptions and throwing calls *)

(** The exception objects the sources throw, the two failures of the
    one-shot contract, [AlreadySet] and [AlreadyConsumed], which the
    standard library raises as [std::future_error], and the
    [std::future_error] it stores in a shared state whose writing side
    is destroyed before anything was stored, [BrokenPromise]. *)
Inductive exception : Type :=
| invalid_argument (what : string)
| runtime_error (what : string)
| AlreadySet
| AlreadyConsumed
| BrokenPromise.

(** A call either returns or leaves by an exception. *)
Inductive result (A : Type) : Type :=
| Returned (a : A) : result A
| Threw (e : exception) : result A.
Arguments Returned {A} a.
Arguments Threw {A} e.

(** [try { body } catch (...) { handler }] over a state [S]. *)
Definition try_catch {A S : Type}
    (body : S → result A * S) (handler : exception → S → result A * S)
    (st : S) : result A * S :=
  match body st with
  | (Returned a, st') => (Returned a, st')
  | (Threw e, st') => handler e st'
  end.

(** ** The one-shot result channel *)

Module ResultChannel.
Section defs.
Context {V : Type}.

(** Modelled from the spec: the shared state behind a [std::promise] /
    [std::future] pair (and behind a [std::packaged_task]) is standard
    library code, absent from the sources, which only call it.  It is
    the single-assignment cell [Pending → Ready(value) | Ready(error)]. *)
Inductive state : Type :=
| Pending
| Ready (o : result V).

(** Modelled from the spec: the channel, that is the cell together with
    [consumed], which records that the read side has been used. *)
Record t : Type := mk {
  cell : state;
  consumed : bool
}.

(** Modelled from the spec: a promise together with the future obtained
    from it by [get_future()], before anything is stored. *)
Definition fresh : t := {| cell := Pending; consumed := false |}.

(** Modelled from the spec: the transition [Pending → Ready] shared by
    [set_value] and [set_error]; it "fails with [AlreadySet] if the
    channel is already Ready". *)
Definition set (o : result V) (c : t) : result unit * t :=
  match cell c with
  | Pending => (Returned tt, {| cell := Ready o; consumed := consumed c |})
  | Ready _ => (Threw AlreadySet, c)
  end.

(** Modelled from the spec: [set_value(v: T)]. *)
Definition set_value (v : V) : t → result unit * t := set (Returned v).

(** Modelled from the spec: [set_error(e: E)], the source's
    [set_exception]. *)
Definition set_error (e : exception) : t → result unit * t := set (Threw e).

(** Modelled from the spec: [get()] "blocks the calling thread until the
    channel is Ready, then returns the stored value or propagates the
    stored error; fails with [AlreadyConsumed] if called a second time
    on the same handle". *)
Definition get (c : t) : blocking (result V * t) :=
  if consumed c then Done (Threw AlreadyConsumed, c)
  else match cell c with
       | Pending => Blocked
       | Ready o => Done (o, {| cell := Ready o; consumed := true |})
       end.
End defs.
Arguments t : clear implicits.
Arguments state : clear implicits.
End ResultChannel.

(** ** The promise-side workers (07_promise_and_future.cpp,
       12_promise_future_exception.cpp) *)

Module Promise.
Import ResultChannel.

(** [void calculate_sum(std::vector<int>& data,
                        std::promise<long long> result_promise)].
    The elements are [int]s accumulated in a [long long]. *)
Definition calculate_sum (data : list Z) : t Z → result unit * t Z :=
  try_catch
    (λ p, let sum := foldl Z.add 0%Z data in set_value sum p)
    (λ e p, set_error e p).

(** [void risky_worker(int input, std::promise<std::string>
    result_promise)] *)
Definition risky_worker (input : Z) : t string → result unit * t string :=
  try_catch
    (λ p,
       if (input <? 0)%Z then
         (Threw (invalid_argument "Input cannot be negative"), p)
       else if (input =? 0)%Z then
         (Threw (runtime_error "Input cannot be zero (another error)"), p)
       else
         let result := "Processed input " +:+ pretty input in
         set_value result p)
    (λ e p, set_error e p).

(** One round of [main] in 12_promise_future_exception.cpp: a new
    promise and its future, the worker thread run to its end, and
    [worker_future.get()]. *)
Definition round (test_input : Z) : blocking (result string * t string) :=
  get (risky_worker test_input fresh).2.

(** [main] of 07_promise_and_future.cpp up to [sum_future.get()]. *)
Definition sum_round (numbers : list Z) : blocking (result Z * t Z) :=
  get (calculate_sum numbers fresh).2.

(** The outcome [risky_worker] computes for [input], used to state
    what it stores. *)
Definition risky_outcome (input : Z) : result string :=
  if (input <? 0)%Z then Threw (invalid_argument "Input cannot be negative")
  else if (input =? 0)%Z then
    Threw (runtime_error "Input cannot be zero (another error)")
  else Returned ("Processed input " +:+ pretty input).
End Promise.

(** ** [SimpleThreadPool] (14_simple_threadpool.cpp) *)

Module SimpleThreadPool.
Section defs.
(** [return_type] of the functions handed to [enqueue_task]. *)
Context {V : Type}.

(** A callable taking no argument: calling it returns or throws. *)
Definition callable (A : Type) : Type := unit → result A.

(** An element of [std::queue<std::function<void()>> tasks]: either the
    [f] given to [enqueue], or the lambda capturing [task_ptr] that
    [enqueue_task] builds to call the packaged task, where [h] names the
    shared state of the packaged task and of the future returned to the
    caller. *)
Inductive task : Type :=
| Plain (f : callable unit)
| Packaged (h : nat) (f : callable V).

(** Where a worker thread is in its lambda: at [condition.wait], at
    [task()] with the task it moved out of the queue, or past
    [return]. *)
Inductive worker : Type :=
| Waiting
| Executing (tk : task)
| Finished.

(** The destructor: not entered, inside the join loop about to join
    [workers[i]], or returned, the members of the pool having been
    destroyed after its body. *)
Inductive destructor : Type :=
| NotCalled
| Joining (i : nat)
| Destroyed.

(** The pool: its private fields, the shared states of the packaged
    tasks made so far, what was written to [std::cerr], whether
    [std::terminate] was called, and the destructor's position. *)
Record t : Type := mk {
  workers : list worker;
  tasks : list task;
  stop : bool;
  shared : list (ResultChannel.t V);
  cerr : list string;
  terminated : bool;
  dtor : destructor
}.

(** Assignments to one field. *)
Definition set_workers (ws : list worker) (p : t) : t :=
  mk ws (tasks p) (stop p) (shared p) (cerr p) (terminated p) (dtor p).
Definition set_tasks (ts : list task) (p : t) : t :=
  mk (workers p) ts (stop p) (shared p) (cerr p) (terminated p) (dtor p).
Definition set_stop (b : bool) (p : t) : t :=
  mk (workers p) (tasks p) b (shared p) (cerr p) (terminated p) (dtor p).
Definition set_shared (sh : list (ResultChannel.t V)) (p : t) : t :=
  mk (workers p) (tasks p) (stop p) sh (cerr p) (terminated p) (dtor p).
Definition set_cerr (out : list string) (p : t) : t :=
  mk (workers p) (tasks p) (stop p) (shared p) out (terminated p) (dtor p).
Definition set_dtor (d : destructor) (p : t) : t :=
  mk (workers p) (tasks p) (stop p) (shared p) (cerr p) (terminated p) d.

(** An exception left a thread's function: [std::terminate] ends the
    process. *)
Definition terminate (p : t) : t :=
  mk (workers p) (tasks p) (stop p) (shared p) (cerr p) true (dtor p).

(** [SimpleThreadPool(size_t numThreads) : stop(false)]: [numThreads]
    threads are started, each entering its loop. *)
Definition SimpleThreadPool (numThreads : nat) : t :=
  {| workers := replicate numThreads Waiting;
     tasks := [];
     stop := false;
     shared := [];
     cerr := [];
     terminated := false;
     dtor := NotCalled |}.

(** [tasks.empty()] *)
Definition empty (l : list task) : bool :=
  match l with [] => true | _ :: _ => false end.

(** [void enqueue(std::function<void()> f)] *)
Definition enqueue (f : callable unit) (p : t) : unit * t :=
  if stop p then
    (tt, set_cerr (cerr p ++ ["ThreadPool: Warning! Enqueue on stopped pool."]) p)
  else
    (tt, set_tasks (tasks p ++ [Plain f]) p).

(** [enqueue_task(F&& f, Args&&... args)], with the arguments already
    bound into [f].  The packaged task is made before [stop] is tested;
    when the test throws, the task and its future are destroyed by the
    unwinding and nothing of them remains.  The returned number stands
    for the [std::future]. *)
Definition enqueue_task (f : callable V) (p : t) : result nat * t :=
  let h := length (shared p) in
  if stop p then
    (Threw (runtime_error "Enqueue on stopped ThreadPool"), p)
  else
    (Returned h,
     set_tasks (tasks p ++ [Packaged h f])
       (set_shared (shared p ++ [ResultChannel.fresh]) p)).

(** [task()] in worker [i], outside the lock.  Calling a
    [std::packaged_task] stores what its function returned or threw in
    its shared state, and throws if something was stored before; an
    exception that leaves [task()] leaves the thread's lambda.  [None]:
    the task names no shared state. *)
Definition execute (i : nat) (tk : task) (p : t) : option t :=
  match tk with
  | Plain f =>
      match f tt with
      | Returned _ => Some (set_workers (<[i:=Waiting]> (workers p)) p)
      | Threw _ => Some (terminate p)
      end
  | Packaged h f =>
      match shared p !! h with
      | Some c =>
          match ResultChannel.set (f tt) c with
          | (Returned _, c') =>
              Some (set_workers (<[i:=Waiting]> (workers p))
                      (set_shared (<[h:=c']> (shared p)) p))
          | (Threw _, _) => Some (terminate p)
          end
      | None => None
      end
  end.

(** One turn of the worker lambda of thread [i]: from the wait to
    [task()] or to [return], or [task()] itself.  [None]: the thread
    sleeps in [wait], or has returned.  [tasks.front()] is only reached
    on a non-empty queue. *)
Definition worker_step (i : nat) (p : t) : option t :=
  match workers p !! i with
  | Some Waiting =>
      if stop p || negb (empty (tasks p)) then
        if stop p && empty (tasks p) then
          Some (set_workers (<[i:=Finished]> (workers p)) p)
        else
          match tasks p with
          | tk :: rest =>
              Some (set_workers (<[i:=Executing tk]> (workers p))
                      (set_tasks rest p))
          | [] => None
          end
      else None
  | Some (Executing tk) => execute i tk p
  | Some Finished | None => None
  end.

(** The destructor of a [std::packaged_task]: when its shared state
    holds nothing yet, the standard library stores [broken_promise] in
    it, which the future of the task then finds. *)
Definition abandon (c : ResultChannel.t V) : ResultChannel.t V :=
  match ResultChannel.cell c with
  | ResultChannel.Pending =>
      ResultChannel.mk (ResultChannel.Ready (Threw BrokenPromise))
        (ResultChannel.consumed c)
  | ResultChannel.Ready _ => c
  end.

(** The destructor of one element of [tasks], unrun: the lambda built by
    [enqueue_task] holds the only [task_ptr] left, so that the packaged
    task goes with it. *)
Definition destroy_task (sh : list (ResultChannel.t V)) (tk : task)
    : list (ResultChannel.t V) :=
  match tk with
  | Plain _ => sh
  | Packaged h _ => alter abandon h sh
  end.

(** The members are destroyed when the body of the destructor has
    returned: [tasks], with the elements it still holds. *)
Definition destroy_members (p : t) : t :=
  set_dtor Destroyed
    (set_tasks [] (set_shared (foldl destroy_task (shared p) (tasks p)) p)).

(** [~SimpleThreadPool()]: first [stop = true] and [notify_all], then
    one [join] per worker, [join] waiting for the thread to have
    returned; after the loop the body returns and the members are
    destroyed.  [None]: the join waits, or the pool is destroyed. *)
Definition dtor_step (p : t) : option t :=
  match dtor p with
  | NotCalled => Some (set_dtor (Joining 0) (set_stop true p))
  | Joining i =>
      match workers p !! i with
      | Some Finished => Some (set_dtor (Joining (S i)) p)
      | Some _ => None
      | None => Some (destroy_members p)
      end
  | Destroyed => None
  end.

(** The destructor has returned. *)
Definition destroyed (p : t) : bool :=
  match dtor p with
  | NotCalled | Joining _ => false
  | Destroyed => true
  end.

(** What a thread may do next.  A submission that comes after the
    destructor has returned is outside the lifetime of the pool; [step]
    lets it find [stop] set, as one made during the shutdown does. *)
Inductive action : Type :=
| Enqueue (f : callable unit)
| EnqueueTask (f : callable V)
| Worker (i : nat)
| Destructor.

Definition step (a : action) (p : t) : option t :=
  if terminated p then None
  else match a with
       | Enqueue f => Some (enqueue f p).2
       | EnqueueTask f => Some (enqueue_task f p).2
       | Worker i => worker_step i p
       | Destructor => dtor_step p
       end.

Fixpoint steps (acts : list action) (p : t) : option t :=
  match acts with
  | [] => Some p
  | a :: acts' =>
      match step a p with
      | Some p' => steps acts' p'
      | None => None
      end
  end.

Inductive reachable (numThreads : nat) : t → Prop :=
| reachable_init : reachable numThreads (SimpleThreadPool numThreads)
| reachable_step p a p' :
    reachable numThreads p → step a p = Some p' → reachable numThreads p'.

(** The task a worker holds. *)
Definition held (w : worker) : list task :=
  match w with
  | Executing tk => [tk]
  | Waiting | Finished => []
  end.

(** Tasks moved out of the queue and not yet run to their end. *)
Definition executing (p : t) : list task := workers p ≫= held.

(** Tasks submitted and not yet run to their end. *)
Definition pending (p : t) : list task := executing p ++ tasks p.

(** The task whose [task()] call the action carries out. *)
Definition runs (a : action) (p : t) : list task :=
  match a with
  | Worker i =>
      match workers p !! i with
      | Some (Executing tk) => [tk]
      | _ => []
      end
  | _ => []
  end.

(** The tasks run along a schedule, in the order of their runs. *)
Fixpoint history (acts : list action) (p : t) : list task :=
  match acts with
  | [] => []
  | a :: acts' =>
      match step a p with
      | Some p' => runs a p ++ history acts' p'
      | None => []
      end
  end.

(** The tasks the action destroys unrun: those still queued when the
    members are destroyed. *)
Definition drops (a : action) (p : t) : list task :=
  match a, dtor p with
  | Destructor, Joining i =>
      match workers p !! i with
      | None => tasks p
      | Some _ => []
      end
  | _, _ => []
  end.

(** The tasks destroyed unrun along a schedule. *)
Fixpoint dropped (acts : list action) (p : t) : list task :=
  match acts with
  | [] => []
  | a :: acts' =>
      match step a p with
      | Some p' => drops a p ++ dropped acts' p'
      | None => []
      end
  end.

(** The shared states named by a list of tasks. *)
Definition handle (tk : task) : list nat :=
  match tk with
  | Plain _ => []
  | Packaged h _ => [h]
  end.

(** What the future [h] holds. *)
Definition outcome (h : nat) (p : t) : option (ResultChannel.state V) :=
  ResultChannel.cell <$> shared p !! h.

(** A task whose run does not end the process. *)
Definition harmless (tk : task) : Prop :=
  match tk with
  | Plain f => ∃ u, f tt = Returned u
  | Packaged _ _ => True
  end.

(** Every pending packaged task has a shared state of its own, still
    [Pending]. *)
Definition handles_ok (p : t) : Prop :=
  NoDup (pending p ≫= handle) ∧
  ∀ h, h ∈ pending p ≫= handle →
       outcome h p = Some ResultChannel.Pending.

(** Work the threads still have to do once [stop] is set. *)
Definition worker_weight (w : worker) : nat :=
  match w with
  | Waiting => 1
  | Executing _ => 3
  | Finished => 0
  end.

Definition joins_left (p : t) : nat :=
  match dtor p with
  | NotCalled => S (S (length (workers p)))
  | Joining i => S (length (workers p) - i)
  | Destroyed => 0
  end.

Definition weight (p : t) : nat :=
  3 * length (tasks p) + sum_list (worker_weight <$> workers p)
  + joins_left p.

(** The task an action adds to the queue. *)
Definition submits (a : action) (p : t) : list task :=
  match a with
  | Enqueue f => if stop p then [] else [Plain f]
  | EnqueueTask f => if stop p then [] else [Packaged (length (shared p)) f]
  | Worker _ | Destructor => []
  end.

(** The tasks added to the queue along a schedule. *)
Fixpoint accepted (acts : list action) (p : t) : list task :=
  match acts with
  | [] => []
  | a :: acts' =>
      match step a p with
      | Some p' => submits a p ++ accepted acts' p'
      | None => []
      end
  end.

(** The steps of a schedule taken by a worker or by the destructor. *)
Fixpoint internal_steps (acts : list action) : nat :=
  match acts with
  | [] => 0
  | (Worker _ | Destructor) :: acts' => S (internal_steps acts')
  | (Enqueue _ | EnqueueTask _) :: acts' => internal_steps acts'
  end.

(** The transitions of [step], one constructor per path through the
    code; [step_Step] below shows that they are the same relation. *)
Inductive Step : action → t → t → Prop :=
| Step_enqueue_stopped f p :
    terminated p = false → stop p = true →
    Step (Enqueue f) p
      (set_cerr (cerr p ++ ["ThreadPool: Warning! Enqueue on stopped pool."]) p)
| Step_enqueue f p :
    terminated p = false → stop p = false →
    Step (Enqueue f) p (set_tasks (tasks p ++ [Plain f]) p)
| Step_enqueue_task_stopped f p :
    terminated p = false → stop p = true →
    Step (EnqueueTask f) p p
| Step_enqueue_task f p :
    terminated p = false → stop p = false →
    Step (EnqueueTask f) p
      (set_tasks (tasks p ++ [Packaged (length (shared p)) f])
         (set_shared (shared p ++ [ResultChannel.fresh]) p))
| Step_exit i p :
    terminated p = false → workers p !! i = Some Waiting →
    stop p = true → tasks p = [] →
    Step (Worker i) p (set_workers (<[i:=Finished]> (workers p)) p)
| Step_take i tk rest p :
    terminated p = false → workers p !! i = Some Waiting →
    tasks p = tk :: rest →
    Step (Worker i) p
      (set_workers (<[i:=Executing tk]> (workers p)) (set_tasks rest p))
| Step_run_plain i f u p :
    terminated p = false → workers p !! i = Some (Executing (Plain f)) →
    f tt = Returned u →
    Step (Worker i) p (set_workers (<[i:=Waiting]> (workers p)) p)
| Step_run_plain_throw i f e p :
    terminated p = false → workers p !! i = Some (Executing (Plain f)) →
    f tt = Threw e →
    Step (Worker i) p (terminate p)
| Step_run_packaged i h f c p :
    terminated p = false →
    workers p !! i = Some (Executing (Packaged h f)) →
    shared p !! h = Some c → ResultChannel.cell c = ResultChannel.Pending →
    Step (Worker i) p
      (set_workers (<[i:=Waiting]> (workers p))
         (set_shared
            (<[h:=ResultChannel.mk (ResultChannel.Ready (f tt))
                    (ResultChannel.consumed c)]> (shared p)) p))
| Step_run_packaged_again i h f c o p :
    terminated p = false →
    workers p !! i = Some (Executing (Packaged h f)) →
    shared p !! h = Some c → ResultChannel.cell c = ResultChannel.Ready o →
    Step (Worker i) p (terminate p)
| Step_dtor_begin p :
    terminated p = false → dtor p = NotCalled →
    Step Destructor p (set_dtor (Joining 0) (set_stop true p))
| Step_join i p :
    terminated p = false → dtor p = Joining i →
    workers p !! i = Some Finished →
    Step Destructor p (set_dtor (Joining (S i)) p)
| Step_destroy i p :
    terminated p = false → dtor p = Joining i →
    workers p !! i = None →
    Step Destructor p (destroy_members p).

(** What holds in every reachable state of a pool of [numThreads]
    workers: the worker vector keeps its size; [stop] is set exactly
    from the destructor's first statement on, the workers already
    joined had returned, and a destroyed pool has joined them all and
    holds no task; a worker only returns once [stop] is set and the
    queue is empty; and a terminated process still shows the worker
    whose task threw. *)
Record invariant (numThreads : nat) (p : t) : Prop := {
  inv_workers : length (workers p) = numThreads;
  inv_dtor :
    match dtor p with
    | NotCalled => stop p = false
    | Joining i =>
        stop p = true ∧ i ≤ numThreads ∧
        ∀ j, j < i → workers p !! j = Some Finished
    | Destroyed =>
        stop p = true ∧ tasks p = [] ∧
        ∀ j, j < numThreads → workers p !! j = Some Finished
    end;
  inv_finished :
    Finished ∈ workers p → stop p = true ∧ tasks p = [];
  inv_terminated :
    terminated p = true → ∃ i tk, workers p !! i = Some (Executing tk);
  inv_handles : handles_ok p
}.

(** What holds in every reachable state of a pool constructed with no
    thread: until it is destroyed every shared state belongs to a
    queued task and holds nothing; afterwards the queue is gone and
    every shared state holds [BrokenPromise]. *)
Record idle_invariant (p : t) : Prop := {
  idle_workers : workers p = [];
  idle_stop : dtor p ≠ NotCalled → stop p = true;
  idle_running :
    destroyed p = false →
    (∀ h, h < length (shared p) → h ∈ tasks p ≫= handle) ∧
    ∀ h st, outcome h p = Some st → st = ResultChannel.Pending;
  idle_destroyed :
    destroyed p = true →
    tasks p = [] ∧
    ∀ h st, outcome h p = Some st →
            st = ResultChannel.Ready (Threw BrokenPromise)
}.
End defs.
Arguments t : clear implicits.
Arguments task : clear implicits.
Arguments worker : clear implicits.
Arguments action : clear implicits.
End SimpleThreadPool.

(** ** Pools and tasks used as concrete inputs *)

Module Examples.
Import SimpleThreadPool.

(** A task returning [i * i], as the tasks [main] hands to
    [enqueue_task]. *)
Definition square (i : nat) : callable nat := λ _, Returned (i * i).

(** A task that throws. *)
Definition failing : callable nat :=
  λ _, Threw (runtime_error "task failed").

(** A [void] task that throws. *)
Definition failing_plain : callable unit :=
  λ _, Threw (runtime_error "task failed").

(** A pool of one worker holding one packaged task. *)
Definition one_task : t nat := (enqueue_task (square 3) (SimpleThreadPool 1)).2.

(** The same pool once its destructor has set [stop]. *)
Definition one_task_stopping : t nat :=
  set_dtor (Joining 0) (set_stop true one_task).

(** A pool of one worker running a failing packaged task. *)
Definition one_failing : t nat :=
  set_workers [Executing (Packaged 0 failing)]
    (set_shared [ResultChannel.fresh] (SimpleThreadPool 1)).

(** A pool of four workers whose destructor has set [stop]. *)
Definition stopping : t nat :=
  set_dtor (Joining 0) (set_stop true (SimpleThreadPool 4)).
End Examples.

(** ** Vector addition (SIMD/vector_add.cpp) *)

Module VectorAdd.
Section defs.
(** The type [float] and its [+].  The arrays are lists; an access
    outside an array, or an aligned access at an address that is not
    aligned, has no defined result, which is [None]. *)
Context {F : Type} (fadd : F → F → F).

(** [__m128]: four [float] lanes. *)
Record m128 : Type := M128 {
  lane0 : F;
  lane1 : F;
  lane2 : F;
  lane3 : F
}.

(** [_mm_load_ps(&a[i])]: the four floats from [a[i]] on.  The address
    has to be 16-byte aligned; the arrays come from [aligned_allocate],
    so [&a[i]] is aligned exactly when [i] is a multiple of 4. *)
Definition _mm_load_ps (a : list F) (i : nat) : option m128 :=
  if decide (i `mod` 4 = 0) then
    x0 ← a !! i; x1 ← a !! (i + 1); x2 ← a !! (i + 2); x3 ← a !! (i + 3);
    Some (M128 x0 x1 x2 x3)
  else None.

(** [_mm_add_ps]: lane by lane, each lane as the scalar [+]. *)
Definition _mm_add_ps (u v : m128) : m128 :=
  M128 (fadd (lane0 u) (lane0 v)) (fadd (lane1 u) (lane1 v))
       (fadd (lane2 u) (lane2 v)) (fadd (lane3 u) (lane3 v)).

(** [_mm_store_ps(&c[i], v)] *)
Definition _mm_store_ps (c : list F) (i : nat) (v : m128) : option (list F) :=
  if decide (i `mod` 4 = 0 ∧ i + 3 < length c) then
    Some (<[i + 3:=lane3 v]> (<[i + 2:=lane2 v]>
            (<[i + 1:=lane1 v]> (<[i:=lane0 v]> c))))
  else None.

(** [c[i] = a[i] + b[i];] *)
Definition add_at (a b c : list F) (i : nat) : option (list F) :=
  x ← a !! i; y ← b !! i;
  if decide (i < length c) then Some (<[i:=fadd x y]> c) else None.

(** [for (; i + 4 <= size; i += 4) { ... }], returning [i] and the
    array at the exit.  [fuel] bounds the number of iterations; [None]
    also when it runs out. *)
Fixpoint simd_loop (fuel : nat) (a b c : list F) (size i : nat)
    : option (nat * list F) :=
  if decide (i + 4 ≤ size) then
    match fuel with
    | 0 => None
    | S fuel' =>
        vec_a ← _mm_load_ps a i;
        vec_b ← _mm_load_ps b i;
        c' ← _mm_store_ps c i (_mm_add_ps vec_a vec_b);
        simd_loop fuel' a b c' size (i + 4)
    end
  else Some (i, c).

(** [for (; i < size; ++i) c[i] = a[i] + b[i];] *)
Fixpoint scalar_loop (fuel : nat) (a b c : list F) (size i : nat)
    : option (list F) :=
  if decide (i < size) then
    match fuel with
    | 0 => None
    | S fuel' => c' ← add_at a b c i; scalar_loop fuel' a b c' size (S i)
    end
  else Some c.

(** [void add_vectors_simd(const float* a, const float* b, float* c,
    size_t size)]; no loop runs more than [size] times. *)
Definition add_vectors_simd (a b c : list F) (size : nat) : option (list F) :=
  '(i, c') ← simd_loop size a b c size 0;
  scalar_loop size a b c' size i.

(** [void add_vectors_normal(const float* a, const float* b, float* c,
    size_t size)] *)
Definition add_vectors_normal (a b c : list F) (size : nat)
    : option (list F) :=
  scalar_loop size a b c size 0.

(** The array [c] with the elements from [lo] up to, not including,
    [hi] replaced by the sums; used to state what the loops have done. *)
Definition summed (a b c : list F) (lo hi : nat) : list F :=
  imap (λ j x,
          if decide (lo ≤ j < hi) then
            match a !! j, b !! j with
            | Some u, Some v => fadd u v
            | _, _ => x
            end
          else x) c.
End defs.

Section memalign.
(** [size_t] has [w] bits and [sizeof(void * )] is [2 ^ k0]; [EINVAL] and
    [ENOMEM] are the constants of [<errno.h>]. *)
Context (w k0 : nat) (EINVAL ENOMEM : Z).

(** Arithmetic of [size_t]. *)
Definition wrap (x : Z) : Z := (x `mod` 2 ^ Z.of_nat w)%Z.

(** The loop of [check_align], entered with the current [i].  [fuel]
    bounds the number of iterations; [None] when it runs out. *)
Fixpoint check_align_loop (fuel : nat) (align i : Z) : option Z :=
  if (i =? 0)%Z then Some EINVAL
  else match fuel with
       | 0 => None
       | S fuel' =>
           if (align =? i)%Z then Some 0%Z
           else check_align_loop fuel' align (wrap (i * 2))
       end.

(** [static int check_align(size_t align)] *)
Definition check_align (align : Z) : option Z :=
  check_align_loop w align (2 ^ Z.of_nat k0).

(** [*ptr] and [errno]. *)
Record memory : Type := Memory {
  ptr : Z;
  errno : Z
}.

(** [_aligned_malloc(size, align)] of the C runtime: the pointer it
    returns (0 for [NULL]) and the [errno] it leaves, given the [errno]
    it found. *)
Context (_aligned_malloc : Z → Z → Z → Z * Z).

(** [int posix_memalign(void **ptr, size_t align, size_t size)] *)
Definition posix_memalign (m : memory) (align size : Z)
    : option (Z * memory) :=
  r ← check_align align;
  if (r =? 0)%Z then
    let saved_errno := errno m in
    let '(p, e) := _aligned_malloc size align (errno m) in
    if (p =? 0)%Z then
      Some (ENOMEM, {| ptr := ptr m; errno := saved_errno |})
    else Some (0%Z, {| ptr := p; errno := e |})
  else Some (EINVAL, m).

(** What [aligned_allocate] hands back: the pointer, or [std::bad_alloc]
    thrown. *)
Inductive allocation : Type :=
| Allocated (p : Z)
| bad_alloc.

(** [float* aligned_allocate(size_t size)], with [sizeof(float)] 4; the
    local [ptr] starts with any content. *)
Definition aligned_allocate (m : memory) (size : Z)
    : option (allocation * memory) :=
  '(r, m') ← posix_memalign m 16 (wrap (size * 4));
  if negb (r =? 0)%Z then Some (bad_alloc, m')
  else Some (Allocated (ptr m'), m').
End memalign.
End VectorAdd.

(** ** The producers and consumers of 06_task_queue.cpp *)

Module ProducerConsumer.
Import ThreadSafeQueue.

(** [int task = id * 100 + i;] *)
Definition task_of (id i : nat) : Z := (Z.of_nat id * 100 + Z.of_nat i)%Z.

(** A consumer thread: the tasks it has processed, and whether it has
    left its loop by [break]. *)
Record consumer_state : Type := Consumer {
  processed : list Z;
  left_loop : bool
}.

(** [main] after it has started the threads: in the loop that joins the
    producers, about to join [producers[k]]; in the loop that joins the
    consumers; or returned. *)
Inductive main_pc : Type :=
| JoinProducers (k : nat)
| JoinConsumers (j : nat)
| Returned.

(** The program: the global [task_queue], the loop counter [i] of each
    producer (the producer at index [k] was started with [id = k + 1]),
    the consumers, and [main]. *)
Record system : Type := System {
  task_queue : ThreadSafeQueue.t Z;
  producers : list nat;
  consumers : list consumer_state;
  main : main_pc
}.

Section program.
(** The bound of the producer's loop, 5 in the source. *)
Context (rounds : nat).

(** [main] with its threads started: [P] producers, [C] consumers and a
    queue of bound [N]; the source has 3, 2 and 10. *)
Definition start (P C N : nat) : system :=
  {| task_queue := ThreadSafeQueue N;
     producers := replicate P 0;
     consumers := replicate C (Consumer [] false);
     main := JoinProducers 0 |}.

(** One iteration of [producer(id)]: [task_queue.push(task)], then
    [++i].  [None]: the push waits, or the loop is over. *)
Definition produce (k : nat) (s : system) : option system :=
  i ← producers s !! k;
  if decide (i < rounds) then
    match push (task_of (S k) i) (task_queue s) with
    | Done (_, q') =>
        Some {| task_queue := q';
                producers := <[k:=S i]> (producers s);
                consumers := consumers s;
                main := main s |}
    | Blocked => None
    end
  else None.

(** One iteration of [consumer(id)]: [task_queue.pop()], then the task
    is processed, or the loop is left.  [None]: the pop waits, or the
    thread has returned. *)
Definition consume (j : nat) (s : system) : option system :=
  c ← consumers s !! j;
  if left_loop c then None
  else
    match pop (task_queue s) with
    | Done (Some task, q') =>
        Some {| task_queue := q';
                producers := producers s;
                consumers :=
                  <[j:=Consumer (processed c ++ [task]) false]> (consumers s);
                main := main s |}
    | Done (None, q') =>
        Some {| task_queue := q';
                producers := producers s;
                consumers := <[j:=Consumer (processed c) true]> (consumers s);
                main := main s |}
    | Blocked => None
    end.

(** One step of [main]: a [join], which waits for the thread to have
    returned; [task_queue.set_finished()] between the two loops; the
    [return].  [None]: the join waits, or [main] has returned. *)
Definition main_step (s : system) : option system :=
  match main s with
  | JoinProducers k =>
      match producers s !! k with
      | Some i =>
          if decide (i < rounds) then None
          else Some {| task_queue := task_queue s;
                       producers := producers s;
                       consumers := consumers s;
                       main := JoinProducers (S k) |}
      | None =>
          Some {| task_queue := set_finished (task_queue s);
                  producers := producers s;
                  consumers := consumers s;
                  main := JoinConsumers 0 |}
      end
  | JoinConsumers j =>
      match consumers s !! j with
      | Some c =>
          if left_loop c then
            Some {| task_queue := task_queue s;
                    producers := producers s;
                    consumers := consumers s;
                    main := JoinConsumers (S j) |}
          else None
      | None =>
          Some {| task_queue := task_queue s;
                  producers := producers s;
                  consumers := consumers s;
                  main := Returned |}
      end
  | Returned => None
  end.

(** What a thread may do next. *)
Inductive action : Type :=
| Produce (k : nat)
| Consume (j : nat)
| Main.

Definition step (a : action) (s : system) : option system :=
  match a with
  | Produce k => produce k s
  | Consume j => consume j s
  | Main => main_step s
  end.

Fixpoint steps (acts : list action) (s : system) : option system :=
  match acts with
  | [] => Some s
  | a :: acts' =>
      match step a s with
      | Some s' => steps acts' s'
      | None => None
      end
  end.

(** The tasks a producer has pushed when its counter is [i]. *)
Definition pushed_by (k i : nat) : list Z := task_of (S k) <$> seq 0 i.

(** The tasks pushed so far. *)
Definition pushed_so_far (s : system) : list Z :=
  mjoin (imap pushed_by (producers s)).

(** All the tasks of a run with [P] producers. *)
Definition all_tasks (P : nat) : list Z :=
  mjoin (imap pushed_by (replicate P rounds)).

(** The tasks processed so far, consumer after consumer. *)
Definition processed_so_far (s : system) : list Z :=
  consumers s ≫= processed.

(** What holds in every state the program reaches. *)
Record invariant (P C N : nat) (s : system) : Prop := {
  inv_producers : length (producers s) = P;
  inv_consumers : length (consumers s) = C;
  inv_rounds : Forall (λ i, i ≤ rounds) (producers s);
  inv_bound : max_size (task_queue s) = N ∧ length (q (task_queue s)) ≤ N;
  inv_main :
    match main s with
    | JoinProducers k =>
        finished (task_queue s) = false ∧
        ∀ k', k' < k → producers s !! k' = Some rounds
    | JoinConsumers j =>
        finished (task_queue s) = true ∧
        producers s = replicate P rounds ∧
        ∀ j', j' < j → left_loop <$> consumers s !! j' = Some true
    | Returned =>
        finished (task_queue s) = true ∧
        producers s = replicate P rounds ∧
        ∀ j', j' < C → left_loop <$> consumers s !! j' = Some true
    end;
  inv_left :
    (∃ c, c ∈ consumers s ∧ left_loop c = true) →
    finished (task_queue s) = true ∧ q (task_queue s) = [];
  inv_tasks : processed_so_far s ++ q (task_queue s) ≡ₚ pushed_so_far s
}.

(** The work left: two units per push still to come, one per queued
    task, one per consumer still in its loop, and the steps of [main]. *)
Definition weight (s : system) : nat :=
  2 * sum_list ((λ i, rounds - i) <$> producers s)
  + length (q (task_queue s))
  + length (filter (λ c, left_loop c = false) (consumers s))
  + match main s with
    | JoinProducers k =>
        (length (producers s) - k) + length (consumers s) + 3
    | JoinConsumers j => (length (consumers s) - j) + 1
    | Returned => 0
    end.
End program.
End ProducerConsumer.

(** ** The shared counters (03_mutex.cpp, 04_lock_guard.cpp,
       05_atomic.cpp) *)

(** The largest value of an [int]. *)
Definition INT_MAX : Z := 2 ^ 31 - 1.

Module Counter.
(** Where a thread is in [safe_increment_manual_lock] (and in
    [safe_increment_lock_guard], whose guard locks where it is declared
    and unlocks at the end of the iteration): at the loop test, before
    [lock()]; inside the critical section before the read of
    [shared_counter_mutex++], before its write, having read [v], and
    before [unlock()]; or returned.  [i] is the loop counter.
    [Undefined]: the thread has incremented an [int] that held
    [INT_MAX]; the behaviour of the program is undefined from there on,
    and the thread takes no further step. *)
Inductive pc : Type :=
| AtLock (i : nat)
| AtRead (i : nat)
| AtWrite (i : nat) (v : Z)
| AtUnlock (i : nat)
| Returned
| Undefined (i : nat).

(** The globals, [counter_mutex] being locked or not, and the threads
    [main] started. *)
Record state : Type := State {
  shared_counter_mutex : Z;
  counter_mutex : bool;
  threads : list pc
}.

Section program.
(** [ITERATIONS_MUTEX], 100000 in the source. *)
Context (ITERATIONS : nat).

(** [main] after it has reset the counter and started [NUM_THREADS]
    threads, 4 in the source. *)
Definition start (NUM_THREADS : nat) : state :=
  {| shared_counter_mutex := 0;
     counter_mutex := false;
     threads := replicate NUM_THREADS (AtLock 0) |}.

(** The next statement of thread [t].  The counter is an [int]: its
    increment is defined only below [INT_MAX].  [None]: [lock()] waits,
    or the thread has returned or has left defined behaviour. *)
Definition step (t : nat) (s : state) : option state :=
  th ← threads s !! t;
  match th with
  | AtLock i =>
      if decide (i < ITERATIONS) then
        if counter_mutex s then None
        else Some {| shared_counter_mutex := shared_counter_mutex s;
                     counter_mutex := true;
                     threads := <[t:=AtRead i]> (threads s) |}
      else Some {| shared_counter_mutex := shared_counter_mutex s;
                   counter_mutex := counter_mutex s;
                   threads := <[t:=Returned]> (threads s) |}
  | AtRead i =>
      Some {| shared_counter_mutex := shared_counter_mutex s;
              counter_mutex := counter_mutex s;
              threads := <[t:=AtWrite i (shared_counter_mutex s)]> (threads s) |}
  | AtWrite i v =>
      if decide (v < INT_MAX)%Z then
        Some {| shared_counter_mutex := v + 1;
                counter_mutex := counter_mutex s;
                threads := <[t:=AtUnlock i]> (threads s) |}
      else
        Some {| shared_counter_mutex := shared_counter_mutex s;
                counter_mutex := counter_mutex s;
                threads := <[t:=Undefined i]> (threads s) |}
  | AtUnlock i =>
      Some {| shared_counter_mutex := shared_counter_mutex s;
              counter_mutex := false;
              threads := <[t:=AtLock (S i)]> (threads s) |}
  | Returned | Undefined _ => None
  end.

Fixpoint steps (ts : list nat) (s : state) : option state :=
  match ts with
  | [] => Some s
  | t :: ts' =>
      match step t s with
      | Some s' => steps ts' s'
      | None => None
      end
  end.

(** The increments a thread has completed. *)
Definition completed (th : pc) : nat :=
  match th with
  | AtLock i | AtRead i | AtWrite i _ | Undefined i => i
  | AtUnlock i => S i
  | Returned => ITERATIONS
  end.

(** 1 for a thread inside the critical section. *)
Definition inside (th : pc) : nat :=
  match th with
  | AtRead _ | AtWrite _ _ | AtUnlock _ | Undefined _ => 1
  | AtLock _ | Returned => 0
  end.

(** The loop counter is within its bound. *)
Definition in_bounds (th : pc) : Prop :=
  match th with
  | AtLock i => i ≤ ITERATIONS
  | AtRead i | AtWrite i _ | AtUnlock i | Undefined i => i < ITERATIONS
  | Returned => True
  end.

(** What holds in every state the program reaches. *)
Record invariant (s : state) : Prop := {
  inv_exclusion :
    sum_list (inside <$> threads s) = if counter_mutex s then 1 else 0;
  inv_count :
    shared_counter_mutex s = Z.of_nat (sum_list (completed <$> threads s));
  inv_read :
    ∀ t i v, threads s !! t = Some (AtWrite i v) → v = shared_counter_mutex s;
  inv_loop : Forall in_bounds (threads s)
}.
End program.

(** [std::atomic<int> atomic_counter]: the value after an increment,
    which wraps around as two's complement does. *)
Definition wrap_int (x : Z) : Z := ((x + 2 ^ 31) `mod` 2 ^ 32 - 2 ^ 31)%Z.

(** The threads of 05_atomic.cpp: [atomic_counter] and the loop counter
    of each thread running [atomic_increment]. *)
Record atomic_state : Type := AtomicState {
  atomic_counter : Z;
  loop_counters : list nat
}.

(** One iteration of [atomic_increment] in thread [t]:
    [atomic_counter++], one atomic step, then [++i].  [None]: the loop
    is over. *)
Definition atomic_step (ITERATIONS t : nat) (s : atomic_state)
    : option atomic_state :=
  i ← loop_counters s !! t;
  if decide (i < ITERATIONS) then
    Some {| atomic_counter := wrap_int (atomic_counter s + 1);
            loop_counters := <[t:=S i]> (loop_counters s) |}
  else None.

Fixpoint atomic_steps (ITERATIONS : nat) (ts : list nat) (s : atomic_state)
    : option atomic_state :=
  match ts with
  | [] => Some s
  | t :: ts' =>
      match atomic_step ITERATIONS t s with
      | Some s' => atomic_steps ITERATIONS ts' s'
      | None => None
      end
  end.

(** [main] after [atomic_counter = 0] and the start of the threads. *)
Definition atomic_start (NUM_THREADS : nat) : atomic_state :=
  {| atomic_counter := 0; loop_counters := replicate NUM_THREADS 0 |}.
End Counter.

(** ** The readers and writers of 09_shared_mutex_shared_lock.cpp *)

Module SharedData.
(** ["key" + std::to_string(n)] *)
Definition key (n : nat) : string := "key" +:+ pretty n.

(** A thread running [reader(id)] or [writer(id)], with its loop
    counter.  The ids are non-negative, as those of [main] are: [id] is
    a [nat]. *)
Record thread : Type := Thread {
  id : nat;
  i : nat
}.

(** [shared_data], the threads, and what the readers have read: for each
    read the reader's [id] and the value found, if any.  A writer holds
    [data_mutex] exclusively and a reader holds it shared for a whole
    iteration, so an iteration is one step.  [undefined]: a writer has
    computed a value that no [int] holds; the behaviour of the program
    is undefined from there on, and no thread takes a further step. *)
Record state : Type := State {
  shared_data : gmap string Z;
  writers : list thread;
  readers : list thread;
  seen : list (nat * option Z);
  undefined : bool
}.

(** One iteration of [writer(id)]: [int value = id * 100 + i], which
    overflows when it exceeds [INT_MAX], and [shared_data[key] = value].
    [None]: the loop is over. *)
Definition write_step (k : nat) (s : state) : option state :=
  if undefined s then None
  else
    th ← writers s !! k;
    if decide (i th < 2) then
      let value := (Z.of_nat (id th) * 100 + Z.of_nat (i th))%Z in
      if decide (value ≤ INT_MAX)%Z then
        Some {| shared_data := <[key (id th):=value]> (shared_data s);
                writers := <[k:=Thread (id th) (S (i th))]> (writers s);
                readers := readers s;
                seen := seen s;
                undefined := false |}
      else
        Some {| shared_data := shared_data s;
                writers := writers s;
                readers := readers s;
                seen := seen s;
                undefined := true |}
    else None.

(** One iteration of [reader(id)]: [shared_data.find("key" +
    std::to_string(id % 2))].  [None]: the loop is over. *)
Definition read_step (j : nat) (s : state) : option state :=
  if undefined s then None
  else
    th ← readers s !! j;
    if decide (i th < 3) then
      Some {| shared_data := shared_data s;
              writers := writers s;
              readers := <[j:=Thread (id th) (S (i th))]> (readers s);
              seen := seen s ++ [(id th, shared_data s !! key (id th `mod` 2))];
              undefined := false |}
    else None.

Inductive action : Type :=
| Write (k : nat)
| Read (j : nat).

Definition step (a : action) (s : state) : option state :=
  match a with
  | Write k => write_step k s
  | Read j => read_step j s
  end.

Fixpoint steps (acts : list action) (s : state) : option state :=
  match acts with
  | [] => Some s
  | a :: acts' =>
      match step a s with
      | Some s' => steps acts' s'
      | None => None
      end
  end.

(** The threads started with the given ids, on the empty map. *)
Definition start (writer_ids reader_ids : list nat) : state :=
  {| shared_data := ∅;
     writers := (λ n, Thread n 0) <$> writer_ids;
     readers := (λ n, Thread n 0) <$> reader_ids;
     seen := [];
     undefined := false |}.

(** [main]: readers 1 to 4, writers 1 and 2. *)
Definition main_start : state := start [1; 2] [1; 2; 3; 4].

(** One interleaving of the two writers and four readers of [main]. *)
Definition main_schedule : list action :=
  [Read 0; Write 0; Read 1; Write 1; Read 0; Read 2; Write 0; Read 3;
   Write 1; Read 0; Read 1; Read 1; Read 2; Read 2; Read 3; Read 3].

(** What a writer's key holds when its loop counter is [n]. *)
Definition written (w n : nat) : option Z :=
  match n with
  | 0 => None
  | S n' => Some (Z.of_nat w * 100 + Z.of_nat n')%Z
  end.

(** What holds in every state reached from [start writer_ids _]. *)
Record invariant (writer_ids : list nat) (s : state) : Prop := {
  inv_ids : id <$> writers s = writer_ids;
  inv_written :
    ∀ k th, writers s !! k = Some th →
            i th ≤ 2 ∧ shared_data s !! key (id th) = written (id th) (i th);
  inv_keys :
    ∀ x v, shared_data s !! x = Some v → ∃ w, w ∈ writer_ids ∧ x = key w;
  inv_seen :
    ∀ r v, (r, v) ∈ seen s →
           v = None ∨
           (r `mod` 2 ∈ writer_ids ∧
            (v = Some (Z.of_nat (r `mod` 2) * 100)%Z ∨
             v = Some (Z.of_nat (r `mod` 2) * 100 + 1)%Z));
  inv_undefined :
    undefined s = true →
    ∃ w, w ∈ writer_ids ∧ (INT_MAX < Z.of_nat w * 100 + 1)%Z
}.
End SharedData.

(** * Properties of [ThreadSafeQueue] *)

Module QueueFacts.
Import ThreadSafeQueue.
Section facts.
Context {T : Type}.
Implicit Types (s : t T) (item : T) (ps : list T).

Lemma empty_nil (l : list T) : empty l = true ↔ l = [].
Proof. destruct l; simpl; split; congruence. Qed.

Lemma push_open item s :
  finished s = false → length (q s) < max_size s →
  push item s = Done (tt, mk (q s ++ [item]) (max_size s) false).
Proof.
  intros Hf Hlt. unfold push, producer_may_proceed.
  rewrite Hf, bool_decide_eq_true_2 by done. done.
Qed.

Lemma push_closed item s : finished s = true → push item s = Done (tt, s).
Proof.
  intros Hf. unfold push, producer_may_proceed.
  rewrite Hf, orb_true_r. done.
Qed.

Lemma push_full_open item s :
  finished s = false → max_size s ≤ length (q s) → push item s = Blocked.
Proof.
  intros Hf Hge. unfold push, producer_may_proceed.
  rewrite Hf, bool_decide_eq_false_2 by lia. done.
Qed.

Lemma pop_cons item rest N f :
  pop (mk (item :: rest) N f) = Done (Some item, mk rest N f).
Proof. done. Qed.

Lemma pop_nil_closed N : pop (mk (@nil T) N true) = Done (None, mk [] N true).
Proof. done. Qed.

Lemma pop_nil_open N : pop (mk (@nil T) N false) = Blocked.
Proof. done. Qed.

(** A completed push on an open queue has appended its item. *)
Lemma push_done_open item s u s' :
  finished s = false → push item s = Done (u, s') →
  length (q s) < max_size s ∧ s' = mk (q s ++ [item]) (max_size s) false.
Proof.
  intros Hf. unfold push, producer_may_proceed. rewrite Hf, orb_false_r.
  case_bool_decide; [|done]. intros [= <- <-]. done.
Qed.

Lemma run_pushes ps : ∀ s rs s1,
  finished s = false → run (Push <$> ps) s = Done (rs, s1) →
  s1 = mk (q s ++ ps) (max_size s) false.
Proof.
  induction ps as [|p ps IH]; intros s rs s1 Hf; csimpl.
  - intros [= <- <-]. rewrite app_nil_r. destruct s; simpl in *; by subst.
  - destruct (push p s) as [|[u s']] eqn:Hp; [done|].
    destruct (push_done_open _ _ _ _ Hf Hp) as [Hlt ->].
    destruct (run (Push <$> ps) (mk _ _ _)) as [|[rs' s'']] eqn:Hr; [done|].
    intros [= <- <-].
    rewrite (IH (mk _ _ false) _ _ eq_refl Hr). simpl.
    by rewrite <- app_assoc.
Qed.

Lemma run_pushes_complete ps : ∀ s,
  finished s = false → length (q s) + length ps ≤ max_size s →
  run (Push <$> ps) s
  = Done (replicate (length ps) Void, mk (q s ++ ps) (max_size s) false).
Proof.
  induction ps as [|p ps IH]; intros s Hf Hle; csimpl in *.
  - rewrite app_nil_r. destruct s; simpl in *; by subst.
  - rewrite push_open by (done || lia).
    rewrite IH; simpl; [|done|rewrite length_app; simpl; lia].
    by rewrite <- app_assoc.
Qed.

Lemma run_pops (items : list T) N f :
  run (replicate (length items) Pop) (mk items N f)
  = Done ((λ p, Popped (Some p)) <$> items, mk [] N f).
Proof.
  induction items as [|p items IH]; [done|].
  cbn [length replicate run exec]. rewrite pop_cons, IH. done.
Qed.

Lemma take_app_replicate_more {A} n (l : list A) x :
  take n (l ++ replicate (S n) x) = take n (l ++ replicate n x).
Proof.
  rewrite !take_app, !take_replicate. do 2 f_equal. lia.
Qed.

Lemma exec_closed c s :
  finished s = true →
  ∃ r s', exec c s = Done (r, s') ∧ finished s' = true ∧
    match c with
    | Pop => r = Popped (head (q s)) ∧ q s' = tail (q s)
    | _ => r = Void ∧ q s' = q s
    end.
Proof.
  intros Hf. destruct c as [item| |]; simpl.
  - rewrite push_closed by done. eauto 10.
  - destruct s as [[|p items] N f]; simpl in *; subst; unfold pop; simpl;
      eauto 10.
  - eauto 10.
Qed.

Lemma reachable_bound N s :
  reachable N s → max_size s = N ∧ length (q s) ≤ N.
Proof.
  induction 1 as [|s c r s' _ [HN Hle] Hexec]; [simpl; lia|].
  destruct c as [item| |]; simpl in Hexec.
  - unfold push, producer_may_proceed in Hexec.
    destruct (finished s) eqn:Hf.
    + rewrite orb_true_r in Hexec. by injection Hexec as _ <-.
    + rewrite orb_false_r in Hexec. case_bool_decide; [|done].
      injection Hexec as _ <-. simpl. rewrite length_app. simpl. lia.
  - unfold pop in Hexec. destruct (consumer_may_proceed s); [|done].
    destruct (q s) as [|p items] eqn:Hq; simpl in Hexec.
    + destruct (finished s); injection Hexec as _ <-; rewrite Hq; simpl; lia.
    + injection Hexec as _ <-. simpl in *. lia.
  - injection Hexec as _ <-. simpl. lia.
Qed.

(** C1. FIFO order: when [k] pushes [p1 .. pk] have completed, each
    enqueuing its item, on a queue that was empty and that no other
    thread uses, the buffer holds [p1 .. pk] and [k] pops that follow
    return [p1 .. pk] in that order, none of them blocking. *)
Theorem fifo_order ps s0 rs s1 :
  q s0 = [] → finished s0 = false →
  run (Push <$> ps) s0 = Done (rs, s1) →
  q s1 = ps ∧
  run (replicate (length ps) Pop) s1
  = Done ((λ p, Popped (Some p)) <$> ps, mk [] (max_size s0) false).
Proof.
  intros Hq Hf Hrun. rewrite (run_pushes _ _ _ _ Hf Hrun).
  rewrite Hq. simpl. split; [done|]. apply run_pops.
Qed.

(** C6. Drain-to-stop: once [set_finished] has been called, no call ever
    blocks, and whatever calls follow (pops, late pushes, repeated
    [set_finished]), the pops return the items that were pending at that
    moment, in order, and from then on only [None]: the [n] pop results
    are the first [n] elements of the pending items followed by
    [None]s. *)
Theorem drain_to_stop cs s :
  ∃ rs s',
    run cs (set_finished s) = Done (rs, s') ∧
    popped rs
    = take (count_pops cs)
        ((Some <$> q s) ++ replicate (count_pops cs) None).
Proof.
  change (q s) with (q (set_finished s)).
  assert (Hf : finished (set_finished s) = true) by done.
  revert Hf. generalize (set_finished s). clear s.
  induction cs as [|c cs IH]; intros s Hf; [by eexists _, _|].
  destruct (exec_closed c s Hf) as (r & s1 & Hexec & Hf1 & Hc).
  destruct (IH s1 Hf1) as (rs & s2 & Hrun & Hpop).
  exists (r :: rs), s2. simpl run. rewrite Hexec, Hrun. split; [done|].
  destruct c as [item| |]; destruct Hc as [-> Hq]; simpl;
    rewrite Hpop, Hq; try done.
  destruct (q s) as [|p items]; csimpl; f_equal;
    change (None :: replicate ?n None) with (replicate (S n) (@None T));
    by rewrite take_app_replicate_more.
Qed.

(** C9. The end-of-stream sentinel is reliable: a pop that returns
    [None] ran on a queue whose [finished] flag was set, and a pop that
    completes while the flag is not set returns the head of the
    buffer. *)
Theorem pop_none_only_when_finished s o s' :
  pop s = Done (o, s') →
  (o = None → finished s = true) ∧
  (finished s = false → ∃ item, o = Some item ∧ q s = item :: q s').
Proof.
  unfold pop, consumer_may_proceed.
  destruct (q s) as [|p items] eqn:Hq, (finished s) eqn:Hf; simpl;
    try done; intros [= <- <-]; simpl; split; try done; eauto.
Qed.

(** C10. A queue constructed with capacity 0 exists, and in each of its
    reachable states the bound is still 0, the buffer is empty, and a
    push either waits (flag not set) or returns having enqueued
    nothing (flag set). *)
Theorem capacity_zero_never_enqueues s item :
  reachable 0 s →
  max_size s = 0 ∧ q s = [] ∧
  push item s = (if finished s then Done (tt, s) else Blocked).
Proof.
  intros Hr. destruct (reachable_bound _ _ Hr) as [HN Hle].
  split; [done|]. split; [by apply length_zero_iff_nil; lia|].
  destruct (finished s) eqn:Hf.
  - by apply push_closed.
  - apply push_full_open; [done | lia].
Qed.

(** C4, as the code has it.  [push] returns [void]: on a queue whose
    [finished] flag is set it returns at once and leaves the buffer
    unchanged; on a full queue whose flag is not set it waits, and once
    [set_finished] has been called it returns, again leaving the buffer
    unchanged; on a queue that is neither finished nor full it appends
    the item at the tail and returns. *)
Theorem push_closed_or_open item s :
  (finished s = true → push item s = Done (tt, s)) ∧
  (finished s = false → max_size s ≤ length (q s) →
     push item s = Blocked ∧
     push item (set_finished s) = Done (tt, set_finished s)) ∧
  (finished s = false → length (q s) < max_size s →
     push item s = Done (tt, mk (q s ++ [item]) (max_size s) false)).
Proof.
  split; [apply push_closed|]. split.
  - intros Hf Hfull. split; [by apply push_full_open|by apply push_closed].
  - apply push_open.
Qed.

(** ** Further properties of the queue *)

(** A completed pop on an unfinished queue took the head of the buffer. *)
Lemma pop_done_open s o s' :
  finished s = false → pop s = Done (o, s') →
  ∃ item, o = Some item ∧ q s = item :: q s' ∧ finished s' = false.
Proof.
  intros Hf. unfold pop, consumer_may_proceed. rewrite Hf.
  destruct (q s) as [|item rest]; simpl; [done|].
  intros [= <- <-]. eauto.
Qed.

(** On a queue that is not finished, whatever the interleaving of
    completed pushes and pops, nothing is lost, duplicated or reordered:
    the old buffer followed by the items pushed is the sequence of items
    popped followed by the new buffer, and no pop returned [None]. *)
Theorem fifo_any_interleaving cs : ∀ s rs s',
  finished s = false → SetFinished ∉ cs → run cs s = Done (rs, s') →
  q s ++ pushed cs = taken rs ++ q s' ∧
  finished s' = false ∧ None ∉ popped rs.
Proof.
  induction cs as [|c cs IH]; intros s rs s' Hf Hcs; cbn [run exec pushed].
  { intros [= <- <-]. simpl. rewrite app_nil_r.
    split; [done|]. split; [done|]. by intros ?%elem_of_nil. }
  apply not_elem_of_cons in Hcs as [Hc Hcs].
  destruct c as [item| |]; [| |done]; cbn [exec].
  - destruct (push item s) as [|[u s1]] eqn:Hp; [done|].
    destruct (push_done_open _ _ _ _ Hf Hp) as [_ ->].
    destruct (run cs (mk _ _ _)) as [|[rs1 s2]] eqn:Hr; [done|].
    intros [= <- <-].
    destruct (IH (mk _ _ false) _ _ eq_refl Hcs Hr) as (Heq & Hf' & Hnone).
    simpl in *. split; [|done].
    by rewrite <- Heq, <- app_assoc.
  - destruct (pop s) as [|[o s1]] eqn:Hp; [done|].
    destruct (pop_done_open _ _ _ Hf Hp) as (item & -> & Hq & Hf1).
    destruct (run cs s1) as [|[rs1 s2]] eqn:Hr; [done|].
    intros [= <- <-].
    destruct (IH _ _ _ Hf1 Hcs Hr) as (Heq & Hf' & Hnone).
    simpl. split; [|split; [done|]].
    + rewrite Hq. simpl. by rewrite Heq.
    + by intros [?|?]%elem_of_cons.
Qed.

(** Once the flag is set it stays set, no push changes the buffer any
    more, and the buffer after a run is the buffer before it without its
    first [n] items, [n] being the number of pops of the run. *)
Theorem finished_buffer_only_shrinks cs : ∀ s rs s',
  finished s = true → run cs s = Done (rs, s') →
  finished s' = true ∧ max_size s' = max_size s ∧
  q s' = drop (count_pops cs) (q s).
Proof.
  induction cs as [|c cs IH]; intros s rs s' Hf; simpl.
  { by intros [= <- <-]. }
  destruct (exec_closed c s Hf) as (r & s1 & Hexec & Hf1 & Hc).
  assert (Hmax : max_size s1 = max_size s).
  { destruct c as [item| |]; simpl in Hexec.
    - rewrite push_closed in Hexec by done. by injection Hexec as _ <-.
    - unfold pop in Hexec. destruct (consumer_may_proceed s); [|done].
      destruct (empty (q s) && finished s); [by injection Hexec as _ <-|].
      destruct (empty (q s)); by injection Hexec as _ <-.
    - by injection Hexec as _ <-. }
  rewrite Hexec. destruct (run cs s1) as [|[rs1 s2]] eqn:Hr; [done|].
  intros [= <- <-]. destruct (IH _ _ _ Hf1 Hr) as (Hf2 & Hmax2 & Hq2).
  split; [done|]. split; [congruence|]. rewrite Hq2.
  destruct c as [item| |]; destruct Hc as [_ ->]; try done.
  destruct (q s); simpl; [by rewrite drop_nil|done].
Qed.

(** A producer and a consumer are never both asleep on a queue whose
    bound is at least 1; they are on a queue of bound 0 that is empty and
    not finished, and only there. *)
Theorem both_blocked_iff item s :
  push item s = Blocked ∧ pop s = Blocked ↔
  max_size s = 0 ∧ q s = [] ∧ finished s = false.
Proof.
  unfold push, pop, producer_may_proceed, consumer_may_proceed.
  destruct (finished s) eqn:Hf.
  { rewrite !orb_true_r. split; [by intros [? _]|by intros (_ & _ & ?)]. }
  rewrite !orb_false_r. destruct (q s) as [|x l] eqn:Hq; simpl.
  - case_bool_decide as Hlt; split.
    + by intros [? _].
    + intros (Hmax & _ & _). lia.
    + intros _. split; [lia|done].
    + done.
  - split; [by intros [_ ?]|by intros (_ & ? & _)].
Qed.
End facts.

Lemma fifo_any_interleaving_witness :
  [] ++ pushed [Push 1; Push 2; Pop; Push 3; Pop]
  = taken [Void; Void; Popped (Some 1); Void; Popped (Some 2)] ++ q (mk [3] 2 false) ∧
  finished (mk [3] 2 false) = false ∧
  None ∉ popped [Void; Void; Popped (Some 1); Void; Popped (Some 2)].
Proof.
  apply (fifo_any_interleaving [Push 1; Push 2; Pop; Push 3; Pop]
           (ThreadSafeQueue 2)); [reflexivity| |reflexivity].
  intros Hin. repeat (apply elem_of_cons in Hin as [Hin|Hin]; [done|]).
  by apply elem_of_nil in Hin.
Defined.

Lemma finished_buffer_only_shrinks_witness :
  finished (mk [6] 3 true) = true ∧
  max_size (mk [6] 3 true) = max_size (mk [4; 5; 6] 3 true) ∧
  q (mk [6] 3 true) = drop (count_pops [Pop; Push 9; Pop]) (q (mk [4; 5; 6] 3 true)).
Proof.
  apply (finished_buffer_only_shrinks [Pop; Push 9; Pop] (mk [4; 5; 6] 3 true)
           [Popped (Some 4); Void; Popped (Some 5)]); reflexivity.
Defined.

Lemma push_closed_or_open_witness :
  (finished (mk [1] 1 false) = true →
     push 2 (mk [1] 1 false) = Done (tt, mk [1] 1 false)) ∧
  (finished (mk [1] 1 false) = false →
   max_size (mk [1] 1 false) ≤ length (q (mk [1] 1 false)) →
     push 2 (mk [1] 1 false) = Blocked ∧
     push 2 (set_finished (mk [1] 1 false))
     = Done (tt, set_finished (mk [1] 1 false))) ∧
  (finished (mk [1] 1 false) = false →
   length (q (mk [1] 1 false)) < max_size (mk [1] 1 false) →
     push 2 (mk [1] 1 false) = Done (tt, mk ([1] ++ [2]) 1 false)).
Proof. apply (push_closed_or_open 2 (mk [1] 1 false)). Defined.

(** C4 as stated fails: the caller of [push] is not told that the queue
    was closed.  A push on a closed queue and a push on an open one return
    the same [void], so nothing computed from the returned value tells
    them apart. *)
Lemma push_closed_not_reported :
  push 1 (mk [] 2 true) = Done (tt, mk [] 2 true) ∧
  push 1 (mk [] 2 false) = Done (tt, mk [1] 2 false) ∧
  ¬ ∃ closed_failure : unit → bool,
      (∀ (s s' : t nat) item r,
         finished s = true → push item s = Done (r, s') →
         closed_failure r = true) ∧
      (∀ (s s' : t nat) item r,
         finished s = false → push item s = Done (r, s') →
         closed_failure r = false).
Proof.
  split; [done|]. split; [done|]. intros (cf & Hclosed & Hopen).
  pose proof (Hclosed (mk [] 2 true) _ 1 tt eq_refl eq_refl) as H1.
  pose proof (Hopen (mk [] 2 false) _ 1 tt eq_refl eq_refl) as H2.
  congruence.
Qed.

Lemma fifo_order_witness :
  q (mk [4; 5; 6] 3 false) = [4; 5; 6] ∧
  run (replicate 3 Pop) (mk [4; 5; 6] 3 false)
  = Done ([Popped (Some 4); Popped (Some 5); Popped (Some 6)], mk [] 3 false).
Proof.
  apply (fifo_order [4; 5; 6] (ThreadSafeQueue 3) [Void; Void; Void]);
    reflexivity.
Defined.

Lemma pop_none_only_when_finished_witness :
  (Some 7 = None → finished (mk [7; 8] 2 false) = true) ∧
  (finished (mk [7; 8] 2 false) = false →
   ∃ item, Some 7 = Some item ∧ q (mk [7; 8] 2 false) = item :: q (mk [8] 2 false)).
Proof.
  apply (pop_none_only_when_finished (mk [7; 8] 2 false) (Some 7) (mk [8] 2 false)).
  reflexivity.
Defined.

Lemma capacity_zero_never_enqueues_witness :
  max_size (set_finished (@ThreadSafeQueue nat 0)) = 0 ∧
  q (set_finished (@ThreadSafeQueue nat 0)) = [] ∧
  push 1 (set_finished (ThreadSafeQueue 0))
  = Done (tt, set_finished (ThreadSafeQueue 0)).
Proof.
  apply (capacity_zero_never_enqueues (set_finished (ThreadSafeQueue 0)) 1).
  apply (reachable_step 0 (ThreadSafeQueue 0) SetFinished Void).
  - apply reachable_init.
  - reflexivity.
Defined.
End QueueFacts.

(** * Properties of the result channel and of the promise-side workers *)

Module ChannelFacts.
Import ResultChannel.
Section facts.
Context {V : Type}.
Implicit Types (c : t V) (o : result V).

Lemma set_pending o c :
  cell c = Pending → set o c = (Returned tt, mk (Ready o) (consumed c)).
Proof. intros Hc. unfold set. by rewrite Hc. Qed.

Lemma set_ready o o' c : cell c = Ready o' → set o c = (Threw AlreadySet, c).
Proof. intros Hc. unfold set. by rewrite Hc. Qed.

(** Whatever the channel held, it is [Ready] after a [set]. *)
Lemma set_makes_ready o c : ∃ o', cell (set o c).2 = Ready o'.
Proof. unfold set. destruct (cell c) eqn:Hc; simpl; eauto. Qed.

(** A stored outcome is never replaced. *)
Lemma set_keeps_ready o o' c :
  cell c = Ready o' → cell (set o c).2 = Ready o'.
Proof. intros Hc. by rewrite (set_ready _ _ _ Hc). Qed.

Lemma get_done c r c' :
  get c = Done (r, c') →
  consumed c' = true ∧ cell c' = cell c ∧
  (consumed c = false → cell c = Ready r).
Proof.
  unfold get. destruct (consumed c) eqn:Hu.
  - intros [= <- <-]. done.
  - destruct (cell c) as [|o]; [done|]. intros [= <- <-]. done.
Qed.

(** C7. One-shot channel.  On a pending channel the first
    [set_value]/[set_error] succeeds and the second fails with
    [AlreadySet], leaving the stored outcome as it is; on any channel a
    [set] that follows another one fails with [AlreadySet] and changes
    nothing; a [get] that follows a completed [get] fails with
    [AlreadyConsumed]; and after the one successful [set] on a pending
    channel not yet read, the first [get] returns exactly the stored
    outcome, also when a failed second [set] came in between, and the
    second [get] fails with [AlreadyConsumed]. *)
Theorem one_shot_channel c o1 o2 :
  (cell c = Pending →
     set o1 c = (Returned tt, mk (Ready o1) (consumed c)) ∧
     set o2 (set o1 c).2 = (Threw AlreadySet, mk (Ready o1) (consumed c))) ∧
  set o2 (set o1 c).2 = (Threw AlreadySet, (set o1 c).2) ∧
  (∀ r c1, get c = Done (r, c1) → get c1 = Done (Threw AlreadyConsumed, c1)) ∧
  (cell c = Pending → consumed c = false →
     get (set o1 c).2 = Done (o1, mk (Ready o1) true) ∧
     get (set o2 (set o1 c).2).2 = Done (o1, mk (Ready o1) true) ∧
     get (mk (Ready o1) true)
     = Done (Threw AlreadyConsumed, mk (Ready o1) true)).
Proof.
  split; [|split; [|split]].
  - intros Hc. by rewrite (set_pending _ _ Hc).
  - destruct (set_makes_ready o1 c) as [o' Ho']. by apply set_ready with o'.
  - intros r c1 Hget. destruct (get_done _ _ _ Hget) as (Hu & _).
    unfold get. by rewrite Hu.
  - intros Hc Hu. rewrite (set_pending _ _ Hc), Hu. done.
Qed.
End facts.

Lemma one_shot_channel_witness :
  (cell (fresh (V:=nat)) = Pending →
     set (Returned 5) fresh
     = (Returned tt, mk (Ready (Returned 5)) (consumed (fresh (V:=nat)))) ∧
     set (Threw AlreadySet) (set (Returned 5) fresh).2
     = (Threw AlreadySet,
        mk (Ready (Returned 5)) (consumed (fresh (V:=nat))))) ∧
  set (Threw AlreadySet) (set (Returned 5) fresh).2
  = (Threw AlreadySet, (set (Returned 5) fresh).2) ∧
  (∀ r c1, get (fresh (V:=nat)) = Done (r, c1) →
           get c1 = Done (Threw AlreadyConsumed, c1)) ∧
  (cell (fresh (V:=nat)) = Pending → consumed (fresh (V:=nat)) = false →
     get (set (Returned 5) fresh).2
     = Done (Returned 5, mk (Ready (Returned 5)) true) ∧
     get (set (Threw AlreadySet) (set (Returned 5) fresh).2).2
     = Done (Returned 5, mk (Ready (Returned 5)) true) ∧
     get (mk (Ready (Returned 5)) true)
     = Done (Threw AlreadyConsumed, mk (Ready (Returned 5)) true)).
Proof.
  apply (one_shot_channel (fresh (V:=nat)) (Returned 5) (Threw AlreadySet)).
Defined.

(** On the promise it is handed from [main], [risky_worker] performs
    exactly one [set], which succeeds, on every path. *)
Lemma risky_worker_sets_once input :
  Promise.risky_worker input fresh
  = (Returned tt, mk (Ready (Promise.risky_outcome input)) false).
Proof.
  unfold Promise.risky_worker, try_catch, Promise.risky_outcome.
  destruct (input <? 0)%Z; [done|]. by destruct (input =? 0)%Z.
Qed.

(** [worker_future.get()] in [main] yields that outcome. *)
Lemma round_gets_outcome input :
  Promise.round input
  = Done (Promise.risky_outcome input,
          mk (Ready (Promise.risky_outcome input)) true).
Proof. unfold Promise.round. by rewrite risky_worker_sets_once. Qed.

Lemma calculate_sum_sets_once data :
  Promise.calculate_sum data fresh
  = (Returned tt, mk (Ready (Returned (foldl Z.add 0%Z data))) false).
Proof. done. Qed.

(** The three rounds of [main]: inputs 10, -5 and 0. *)
Example round_10 :
  Promise.round 10
  = Done (Returned "Processed input 10",
          mk (Ready (Returned "Processed input 10")) true).
Proof. reflexivity. Qed.

Example round_minus_5 :
  Promise.round (-5)
  = Done (Threw (invalid_argument "Input cannot be negative"),
          mk (Ready (Threw (invalid_argument "Input cannot be negative"))) true).
Proof. reflexivity. Qed.

Example round_0 :
  (∃ c, Promise.round 0
        = Done (Threw (runtime_error "Input cannot be zero (another error)"), c)).
Proof. eexists. reflexivity. Qed.

(** [main] of 07_promise_and_future.cpp: the numbers 1 to 10. *)
Example sum_round_main :
  Promise.sum_round [1; 2; 3; 4; 5; 6; 7; 8; 9; 10]%Z
  = Done (Returned 55%Z, mk (Ready (Returned 55%Z)) true).
Proof. reflexivity. Qed.

(** ** Further properties of the promise-side workers *)

(** Whatever its input, [risky_worker] lets no exception out when its
    promise is still pending: it returns, and the promise then holds
    [invalid_argument] for a negative input, [runtime_error] for 0 and the
    text with the decimal input otherwise. *)
Theorem risky_worker_stores_outcome input (c : t string) :
  cell c = Pending →
  ∃ o, Promise.risky_worker input c = (Returned tt, mk (Ready o) (consumed c)) ∧
       ((input < 0)%Z → o = Threw (invalid_argument "Input cannot be negative")) ∧
       (input = 0%Z →
        o = Threw (runtime_error "Input cannot be zero (another error)")) ∧
       ((0 < input)%Z → o = Returned ("Processed input " +:+ pretty input)).
Proof.
  intros Hc. unfold Promise.risky_worker, try_catch, set_value, set_error.
  destruct (input <? 0)%Z eqn:Hneg.
  - rewrite (set_pending _ _ Hc). eexists. split; [done|].
    apply Z.ltb_lt in Hneg. repeat split; intros; first [done|lia].
  - apply Z.ltb_ge in Hneg. destruct (input =? 0)%Z eqn:Hz.
    + rewrite (set_pending _ _ Hc). eexists. split; [done|].
      apply Z.eqb_eq in Hz. repeat split; intros; first [done|lia].
    + rewrite (set_pending _ _ Hc). eexists. split; [done|].
      apply Z.eqb_neq in Hz. repeat split; intros; first [done|lia].
Qed.

(** On a promise that already holds an outcome both workers fail in the
    same way: the [set] of the [try] block throws, the catch-all handler
    calls [set_exception], which throws again, and that exception leaves
    the function; the stored outcome is untouched. *)
Theorem workers_on_satisfied_promise input data
    (c : t string) (d : t Z) o o' :
  cell c = Ready o → cell d = Ready o' →
  Promise.risky_worker input c = (Threw AlreadySet, c) ∧
  Promise.calculate_sum data d = (Threw AlreadySet, d).
Proof.
  intros Hc Hd. split.
  - unfold Promise.risky_worker, try_catch, set_value, set_error.
    destruct (input <? 0)%Z; [by rewrite (set_ready _ _ _ Hc)|].
    destruct (input =? 0)%Z; [by rewrite (set_ready _ _ _ Hc)|].
    cbv zeta. by rewrite !(set_ready _ _ _ Hc).
  - unfold Promise.calculate_sum, try_catch, set_value, set_error.
    cbv zeta. by rewrite !(set_ready _ _ _ Hd).
Qed.

Lemma foldl_add_bound (lo hi : Z) (data : list Z) : ∀ acc,
  Forall (λ v, (lo ≤ v ≤ hi)%Z) data →
  (acc + lo * Z.of_nat (length data) ≤ foldl Z.add acc data
   ≤ acc + hi * Z.of_nat (length data))%Z.
Proof.
  induction data as [|v data IH]; intros acc Hall; simpl length; simpl foldl;
    [lia|].
  apply Forall_cons in Hall as [Hv Hall].
  specialize (IH (acc + v)%Z Hall). lia.
Qed.

(** [calculate_sum] cannot overflow its [long long]: when the elements
    are [int]s and there are at most 2^32 of them, the sum after every
    iteration lies between -2^63 and 2^63, and on a pending promise the
    function returns having stored the sum of all elements. *)
Theorem calculate_sum_in_range data (c : t Z) k :
  cell c = Pending →
  Forall (λ v, (- 2 ^ 31 ≤ v < 2 ^ 31)%Z) data →
  (Z.of_nat (length data) ≤ 2 ^ 32)%Z →
  (- 2 ^ 63 ≤ foldl Z.add 0 (take k data) < 2 ^ 63)%Z ∧
  Promise.calculate_sum data c
  = (Returned tt,
     mk (Ready (Returned (foldl Z.add 0%Z data))) (consumed c)).
Proof.
  intros Hc Hall Hlen. split.
  - pose proof (foldl_add_bound (- 2 ^ 31) (2 ^ 31 - 1) (take k data) 0%Z)
      as Hb.
    assert (Hk : (Z.of_nat (length (take k data)) ≤ 2 ^ 32)%Z).
    { rewrite length_take. lia. }
    destruct Hb as [Hlo Hhi].
    { apply Forall_take. eapply Forall_impl; [done|]. simpl. lia. }
    change (2 ^ 31)%Z with 2147483648%Z in *.
    change (2 ^ 32)%Z with 4294967296%Z in *.
    change (2 ^ 63)%Z with 9223372036854775808%Z in *.
    lia.
  - unfold Promise.calculate_sum, try_catch, set_value.
    by rewrite (set_pending _ _ Hc).
Qed.

Lemma risky_worker_stores_outcome_witness :
  ∃ o, Promise.risky_worker 10 fresh
       = (Returned tt, mk (Ready o) (consumed (fresh (V:=string)))) ∧
       ((10 < 0)%Z → o = Threw (invalid_argument "Input cannot be negative")) ∧
       (10%Z = 0%Z →
        o = Threw (runtime_error "Input cannot be zero (another error)")) ∧
       ((0 < 10)%Z → o = Returned ("Processed input " +:+ pretty 10%Z)).
Proof. apply (risky_worker_stores_outcome 10 fresh). reflexivity. Defined.

Lemma workers_on_satisfied_promise_witness :
  Promise.risky_worker 10 (mk (Ready (Returned "done")) false)
  = (Threw AlreadySet, mk (Ready (Returned "done")) false) ∧
  Promise.calculate_sum [1; 2]%Z (mk (Ready (Returned 7%Z)) false)
  = (Threw AlreadySet, mk (Ready (Returned 7%Z)) false).
Proof.
  apply (workers_on_satisfied_promise 10 [1; 2]%Z
           (mk (Ready (Returned "done")) false)
           (mk (Ready (Returned 7%Z)) false) (Returned "done") (Returned 7%Z));
    reflexivity.
Defined.

Lemma calculate_sum_in_range_witness :
  (- 2 ^ 63 ≤ foldl Z.add 0 (take 2 [1; 2; 3]%Z) < 2 ^ 63)%Z ∧
  Promise.calculate_sum [1; 2; 3]%Z fresh
  = (Returned tt,
     mk (Ready (Returned (foldl Z.add 0%Z [1; 2; 3]%Z)))
       (consumed (fresh (V:=Z)))).
Proof.
  apply (calculate_sum_in_range [1; 2; 3]%Z fresh 2); [reflexivity| |].
  - repeat (apply Forall_cons; split; [split; by compute|]).
    by apply Forall_nil.
  - by compute.
Defined.
End ChannelFacts.

(** * Properties of [SimpleThreadPool] *)

Module PoolFacts.
Import SimpleThreadPool.
Section facts.
Context {V : Type}.
Implicit Types (p : t V) (tk : task V) (w : worker V) (a : action V).
Implicit Types (ws : list (worker V)) (ts : list (task V)).

Lemma empty_true ts : empty ts = true ↔ ts = [].
Proof. destruct ts; simpl; split; congruence. Qed.

(** ** The destruction of the queue *)

Lemma abandon_idemp (c : ResultChannel.t V) : abandon (abandon c) = abandon c.
Proof. by destruct c as [[|o] u]. Qed.

(** The shared states of the tasks destroyed unrun are abandoned, and
    no other shared state is touched. *)
Lemma destroy_tasks_lookup ts : ∀ (sh : list (ResultChannel.t V)) h,
  foldl destroy_task sh ts !! h
  = if decide (h ∈ ts ≫= handle) then abandon <$> sh !! h else sh !! h.
Proof.
  induction ts as [|tk ts IH]; intros sh h.
  { simpl. destruct (decide (h ∈ [])) as [Hin|]; [|done].
    by apply elem_of_nil in Hin. }
  cbn [foldl]. rewrite IH, bind_cons.
  destruct tk as [f|h0 f]; cbn [destroy_task handle]; [done|].
  rewrite list_lookup_alter.
  destruct (decide (h ∈ ts ≫= handle)) as [Hin|Hin];
    destruct (decide (h ∈ [h0] ++ (ts ≫= handle))) as [Hin'|Hin'];
    case_decide; subst; try done;
    try (exfalso; apply Hin'; apply elem_of_app; by (left; left) || right).
  - destruct (sh !! h) as [c|]; csimpl; [|done]. by rewrite abandon_idemp.
  - apply elem_of_app in Hin' as [Hh|?]; [|done].
    by apply list_elem_of_singleton in Hh.
Qed.

Lemma outcome_destroy_members p h :
  outcome h (destroy_members p)
  = if decide (h ∈ tasks p ≫= handle)
    then ResultChannel.cell <$> (abandon <$> shared p !! h)
    else outcome h p.
Proof.
  unfold outcome. simpl. rewrite destroy_tasks_lookup.
  by destruct (decide (h ∈ tasks p ≫= handle)).
Qed.

(** ** [step] and [Step] agree *)

Lemma Step_step a p p' : Step a p p' → step a p = Some p'.
Proof.
  destruct 1; unfold step, enqueue, enqueue_task, worker_step, execute,
    dtor_step;
    repeat match goal with H : _ = _ |- _ => rewrite H end; simpl; try done.
  - by rewrite orb_true_r, andb_false_r.
  - unfold ResultChannel.set.
    by match goal with H : ResultChannel.cell _ = _ |- _ => rewrite H end.
  - unfold ResultChannel.set.
    by match goal with H : ResultChannel.cell _ = _ |- _ => rewrite H end.
Qed.

Lemma step_Step a p p' : step a p = Some p' → Step a p p'.
Proof.
  unfold step. destruct (terminated p) eqn:Hterm; [done|].
  destruct a as [f|f|i|].
  - unfold enqueue. destruct (stop p) eqn:Hstop; intros [= <-];
      by constructor.
  - unfold enqueue_task. destruct (stop p) eqn:Hstop; intros [= <-];
      by constructor.
  - unfold worker_step.
    destruct (workers p !! i) as [[|tk|]|] eqn:Hw; try done.
    + destruct (tasks p) as [|tk rest] eqn:Hts; simpl.
      * destruct (stop p) eqn:Hstop; simpl; [|done].
        intros [= <-]. by constructor.
      * rewrite orb_true_r, andb_false_r. intros [= <-].
        by eapply Step_take.
    + unfold execute. destruct tk as [f|h f].
      * destruct (f tt) as [u|e] eqn:Hf; intros [= <-].
        -- by eapply Step_run_plain.
        -- by eapply Step_run_plain_throw.
      * destruct (shared p !! h) as [c|] eqn:Hc; [|done].
        unfold ResultChannel.set.
        destruct (ResultChannel.cell c) as [|o] eqn:Hcell; intros [= <-].
        -- by eapply Step_run_packaged.
        -- by eapply Step_run_packaged_again.
  - unfold dtor_step. destruct (dtor p) as [|i|] eqn:Hd.
    + intros [= <-]. by constructor.
    + destruct (workers p !! i) as [[|tk|]|] eqn:Hw; try done.
      * intros [= <-]. by constructor.
      * intros [= <-]. by eapply Step_destroy.
    + done.
Qed.

(** ** Updating one worker *)

Lemma workers_split ws i w w' :
  ws !! i = Some w →
  ∃ l1 l2, ws = l1 ++ w :: l2 ∧ <[i:=w']> ws = l1 ++ w' :: l2.
Proof.
  intros Hi. exists (take i ws), (drop (S i) ws). split.
  - by rewrite take_drop_middle.
  - apply insert_take_drop. by eapply lookup_lt_Some.
Qed.

Lemma held_insert ws i w w' :
  ws !! i = Some w →
  held w' ++ (ws ≫= held) ≡ₚ held w ++ (<[i:=w']> ws ≫= held).
Proof.
  intros Hi. destruct (workers_split ws i w w' Hi) as (l1 & l2 & -> & ->).
  rewrite !bind_app, !bind_cons. solve_Permutation.
Qed.

Lemma weight_insert ws i w w' :
  ws !! i = Some w →
  sum_list (worker_weight <$> <[i:=w']> ws) + worker_weight w
  = sum_list (worker_weight <$> ws) + worker_weight w'.
Proof.
  intros Hi. destruct (workers_split ws i w w' Hi) as (l1 & l2 & -> & ->).
  rewrite !fmap_app, !fmap_cons, !sum_list_with_app. simpl. lia.
Qed.

Lemma elem_of_workers_insert ws i w w' w0 :
  ws !! i = Some w → w0 ∈ <[i:=w']> ws → w0 = w' ∨ w0 ∈ ws.
Proof.
  intros Hi. destruct (workers_split ws i w w' Hi) as (l1 & l2 & -> & ->).
  rewrite !elem_of_app, !elem_of_cons. intros [?|[?|?]]; auto.
Qed.

(** ** What a transition does to the pending tasks *)

(** The tasks an action adds to the queue. *)
Lemma pending_Step a p p' :
  Step a p p' → terminated p' = false →
  match a with
  | Enqueue f => pending p' = pending p ++ (if stop p then [] else [Plain f])
  | EnqueueTask f =>
      pending p'
      = pending p ++ (if stop p then [] else [Packaged (length (shared p)) f])
  | _ => runs a p ++ drops a p ++ pending p' ≡ₚ pending p
  end.
Proof.
  destruct 1 as [f p Ht Hs|f p Ht Hs|f p Ht Hs|f p Ht Hs|i p Ht Hw Hs Hts
                |i tk rest p Ht Hw Hts|i f u p Ht Hw Hf|i f e p Ht Hw Hf
                |i h f c p Ht Hw Hc Hcell|i h f c o p Ht Hw Hc Hcell
                |p Ht Hd|i p Ht Hd Hw|i p Ht Hd Hw]; intros Ht'; simpl in Ht';
    try congruence; unfold pending, executing, runs, drops; simpl;
    rewrite ?Hd, ?Hs, ?Hw, ?Hts, ?app_nil_r, ?app_assoc; try done.
  - by rewrite <- (held_insert _ _ _ Finished Hw).
  - rewrite <- (held_insert _ _ _ (Executing tk) Hw). simpl.
    solve_Permutation.
  - by rewrite <- (held_insert _ _ _ Waiting Hw).
  - by rewrite <- (held_insert _ _ _ Waiting Hw).
  - solve_Permutation.
Qed.

(** ** The invariant *)

Lemma outcome_lt h p st : outcome h p = Some st → h < length (shared p).
Proof.
  unfold outcome. destruct (shared p !! h) eqn:Hh; [|done].
  intros _. by eapply lookup_lt_Some.
Qed.

Lemma handles_ok_shrink ran p p' :
  ran ++ pending p' ≡ₚ pending p →
  (∀ h, h ∉ ran ≫= handle → shared p' !! h = shared p !! h) →
  handles_ok p → handles_ok p'.
Proof.
  unfold handles_ok, outcome. intros Hp Hsh [Hnd Hout].
  rewrite <- Hp, bind_app in Hnd.
  apply NoDup_app in Hnd as (_ & Hdisj & Hnd). split; [done|].
  intros h Hh. rewrite Hsh.
  - apply Hout. rewrite <- Hp, bind_app, elem_of_app. by right.
  - intros Hran. by apply (Hdisj h).
Qed.

Lemma handles_ok_Step a p p' : Step a p p' → handles_ok p → handles_ok p'.
Proof.
  intros HS Hok. destruct (terminated p') eqn:Ht'.
  { (* only a throwing [task()] sets the flag, and changes nothing else *)
    destruct HS; simpl in Ht'; try congruence; done. }
  pose proof (pending_Step _ _ _ HS Ht') as Hpend.
  destruct HS as [f p Ht Hs|f p Ht Hs|f p Ht Hs|f p Ht Hs|i p Ht Hw Hs Hts
                |i tk rest p Ht Hw Hts|i f u p Ht Hw Hf|i f e p Ht Hw Hf
                |i h f c p Ht Hw Hc Hcell|i h f c o p Ht Hw Hc Hcell
                |p Ht Hd|i p Ht Hd Hw|i p Ht Hd Hw];
    try (simpl in Ht'; congruence);
    try (by apply (handles_ok_shrink _ _ _ Hpend));
    try (by apply (handles_ok_shrink (drops Destructor _) _ _ Hpend)).
  - (* enqueue on a stopped pool *)
    rewrite Hs, app_nil_r in Hpend.
    apply (handles_ok_shrink [] p); [by rewrite Hpend|done|done].
  - (* enqueue *)
    rewrite Hs in Hpend. destruct Hok as [Hnd Hout].
    unfold handles_ok, outcome in *. rewrite Hpend, bind_app. simpl.
    rewrite app_nil_r. done.
  - (* enqueue_task *)
    rewrite Hs in Hpend. destruct Hok as [Hnd Hout].
    unfold handles_ok. rewrite Hpend, bind_app. simpl. split.
    + apply NoDup_app. split; [done|]. split; [|apply NoDup_singleton].
      intros h Hh ->%list_elem_of_singleton.
      apply Hout, outcome_lt in Hh. lia.
    + intros h [Hh| ->%list_elem_of_singleton]%elem_of_app;
        unfold outcome; simpl.
      * pose proof (outcome_lt _ _ _ (Hout h Hh)) as Hlt.
        rewrite lookup_app_l by done. by apply Hout.
      * by rewrite list_lookup_middle.
  - (* a packaged task ran *)
    apply (handles_ok_shrink _ _ _ Hpend); [|done].
    intros h'. unfold runs. rewrite Hw. simpl.
    rewrite list_elem_of_singleton. intros Hne.
    by rewrite list_lookup_insert_ne.
  - (* the members are destroyed *)
    apply (handles_ok_shrink (drops Destructor p) _ _ Hpend); [|done].
    intros h. unfold drops. rewrite Hd, Hw. intros Hh. simpl.
    by rewrite destroy_tasks_lookup, decide_False.
Qed.

Lemma invariant_init W : invariant W (@SimpleThreadPool V W).
Proof.
  split; simpl.
  - apply length_replicate.
  - done.
  - intros Hin%elem_of_replicate_inv. done.
  - done.
  - split; unfold pending, executing; simpl.
    + rewrite app_nil_r. induction W as [|W IH]; simpl; [constructor|done].
    + intros h. rewrite app_nil_r. induction W as [|W IH]; simpl; [|done].
      by intros ?%elem_of_nil.
Qed.

Lemma invariant_Step W a p p' :
  Step a p p' → invariant W p → invariant W p'.
Proof.
  intros HS [Hlen Hdtor Hfin Hterm Hok]. split.
  - (* the worker vector keeps its size *)
    destruct HS; simpl; rewrite ?length_insert; done.
  - (* [stop] and the join loop *)
    destruct HS as [f p Ht Hs|f p Ht Hs|f p Ht Hs|f p Ht Hs|i p Ht Hw Hs Hts
                |i tk rest p Ht Hw Hts|i f u p Ht Hw Hf|i f e p Ht Hw Hf
                |i h f c p Ht Hw Hc Hcell|i h f c o p Ht Hw Hc Hcell
                |p Ht Hd|i p Ht Hd Hw|i p Ht Hd Hw]; simpl;
      try exact Hdtor;
      try (destruct (dtor p) as [|k|]; [done|done|];
           destruct Hdtor as (Hs' & _); congruence);
      try (destruct (dtor p) as [|k|]; [done| |];
           [destruct Hdtor as (Hs' & Hk & Hj); split; [done|];
            split; [done|]; intros j Hjk;
            rewrite list_lookup_insert_ne; [by apply Hj|];
            intros ->; specialize (Hj _ Hjk); congruence
           |destruct Hdtor as (_ & _ & Hj);
            apply lookup_lt_Some in Hw as Hlt; rewrite Hlen in Hlt;
            specialize (Hj _ Hlt); congruence]).
    + split; [done|]. split; [lia|]. intros j Hj. lia.
    + rewrite Hd in Hdtor. destruct Hdtor as (Hs' & Hk & Hj).
      split; [done|]. apply lookup_lt_Some in Hw as Hlt.
      split; [lia|]. intros j Hjk.
      destruct (decide (j = i)) as [->|Hne]; [done|]. apply Hj. lia.
    + rewrite Hd in Hdtor. destruct Hdtor as (Hs' & Hk & Hj).
      split; [done|]. split; [done|]. intros j Hjk. apply Hj.
      apply lookup_ge_None_1 in Hw. lia.
  - (* a returned worker saw [stop] and an empty queue *)
    destruct HS as [f p Ht Hs|f p Ht Hs|f p Ht Hs|f p Ht Hs|i p Ht Hw Hs Hts
                |i tk rest p Ht Hw Hts|i f u p Ht Hw Hf|i f e p Ht Hw Hf
                |i h f c p Ht Hw Hc Hcell|i h f c o p Ht Hw Hc Hcell
                |p Ht Hd|i p Ht Hd Hw|i p Ht Hd Hw]; simpl; try done;
      try (intros Hin; by apply Hfin);
      try (intros Hin; destruct (Hfin Hin); congruence);
      try (intros [?|Hin]%(elem_of_workers_insert _ _ _ _ _ Hw);
           [done|]; by apply Hfin);
      try (intros [?|Hin]%(elem_of_workers_insert _ _ _ _ _ Hw);
           [done|]; destruct (Hfin Hin); congruence).
    + intros Hin. destruct (Hfin Hin) as [Hs _]. rewrite Hd in Hdtor.
      congruence.
    + intros _. rewrite Hd in Hdtor. by destruct Hdtor as (? & _).
  - (* a terminated process shows the worker whose task threw *)
    destruct HS; simpl; try congruence; eauto.
  - by eapply handles_ok_Step.
Qed.

Lemma reachable_invariant W p : reachable W p → invariant W p.
Proof.
  induction 1 as [|p a p' _ IH Hstep]; [apply invariant_init|].
  eapply invariant_Step; [by apply step_Step|done].
Qed.

Lemma reachable_steps W acts : ∀ p p',
  reachable W p → steps acts p = Some p' → reachable W p'.
Proof.
  induction acts as [|a acts IH]; intros p p' Hr; simpl.
  - by intros [= <-].
  - destruct (step a p) as [p1|] eqn:Hstep; [|done].
    apply IH. by eapply reachable_step.
Qed.

(** ** Along a schedule *)

Lemma stop_Step a p p' : Step a p p' → stop p = true → stop p' = true.
Proof. destruct 1; simpl; congruence. Qed.

Lemma steps_not_terminated acts p p' :
  steps acts p = Some p' → terminated p' = false → terminated p = false.
Proof.
  destruct acts as [|a acts]; simpl; [by intros [= <-]|].
  unfold step at 1. by destruct (terminated p).
Qed.

(** Once [stop] is set nothing is added to the queue, and every pending
    task is either still pending, or has been run, exactly once, or was
    destroyed with the queue. *)
Lemma steps_history acts : ∀ p p',
  stop p = true → steps acts p = Some p' → terminated p' = false →
  history acts p ++ dropped acts p ++ pending p' ≡ₚ pending p.
Proof.
  induction acts as [|a acts IH]; intros p p' Hs; simpl.
  - by intros [= <-] _.
  - destruct (step a p) as [p1|] eqn:Hstep; [|done]. intros Hsteps Ht'.
    apply step_Step in Hstep.
    pose proof (steps_not_terminated _ _ _ Hsteps Ht') as Ht1.
    pose proof (pending_Step _ _ _ Hstep Ht1) as Hp.
    pose proof (IH p1 p' (stop_Step _ _ _ Hstep Hs) Hsteps Ht') as Hrec.
    destruct a.
    + rewrite Hs, app_nil_r in Hp. by rewrite <- Hp.
    + rewrite Hs, app_nil_r in Hp. by rewrite <- Hp.
    + rewrite <- Hp, <- Hrec. solve_Permutation.
    + rewrite <- Hp, <- Hrec. solve_Permutation.
Qed.

(** A pool with a worker destroys an empty queue: the first worker has
    returned by then, which it only does on an empty queue, and nothing
    is added once [stop] is set. *)
Lemma drops_nil W a p : 1 ≤ W → invariant W p → drops a p = [].
Proof.
  intros HW [Hlen Hdtor Hfin _ _]. unfold drops.
  destruct a; try done. destruct (dtor p) as [|i|]; try done.
  destruct (workers p !! i) as [w|] eqn:Hw; [done|].
  destruct Hdtor as (_ & _ & Hj). apply lookup_ge_None_1 in Hw.
  apply Hfin. apply (list_elem_of_lookup_2 _ 0). apply Hj. lia.
Qed.

Lemma dropped_nil W acts : ∀ p p',
  1 ≤ W → invariant W p → steps acts p = Some p' → dropped acts p = [].
Proof.
  induction acts as [|a acts IH]; intros p p' HW Hinv; simpl; [done|].
  destruct (step a p) as [p1|] eqn:Hstep; [|done]. intros Hsteps.
  rewrite (drops_nil W) by done. simpl. apply (IH p1 p'); [done| |done].
  eapply invariant_Step; [by apply step_Step|done].
Qed.

(** A stored outcome stays. *)
Lemma outcome_Step a p p' h o :
  Step a p p' →
  outcome h p = Some (ResultChannel.Ready o) →
  outcome h p' = Some (ResultChannel.Ready o).
Proof.
  destruct 1 as [f p Ht Hs|f p Ht Hs|f p Ht Hs|f p Ht Hs|i p Ht Hw Hs Hts
                |i tk rest p Ht Hw Hts|i f u p Ht Hw Hf|i f e p Ht Hw Hf
                |i h0 f c p Ht Hw Hc Hcell|i h0 f c o0 p Ht Hw Hc Hcell
                |p Ht Hd|i p Ht Hd Hw|i p Ht Hd Hw]; try done.
  - intros Hh. pose proof (outcome_lt _ _ _ Hh).
    unfold outcome in *. simpl. by rewrite lookup_app_l.
  - unfold outcome. simpl. intros Hh.
    destruct (decide (h0 = h)) as [->|Hne].
    + rewrite Hc in Hh. simpl in Hh. congruence.
    + by rewrite list_lookup_insert_ne.
  - intros Hh. rewrite outcome_destroy_members.
    destruct (decide (h ∈ tasks p ≫= handle)); [|done].
    unfold outcome in Hh. destruct (shared p !! h) as [c|]; [|done].
    simpl in *. injection Hh as Hc. unfold abandon. rewrite Hc. simpl.
    by rewrite Hc.
Qed.

(** A packaged task that ran has stored what its function returned or
    threw. *)
Lemma outcome_runs a p p' h f :
  Step a p p' → terminated p' = false → Packaged h f ∈ runs a p →
  outcome h p' = Some (ResultChannel.Ready (f tt)).
Proof.
  destruct 1 as [f0 p Ht Hs|f0 p Ht Hs|f0 p Ht Hs|f0 p Ht Hs
                |i p Ht Hw Hs Hts
                |i tk rest p Ht Hw Hts|i f0 u p Ht Hw Hf|i f0 e p Ht Hw Hf
                |i h0 f0 c p Ht Hw Hc Hcell|i h0 f0 c o0 p Ht Hw Hc Hcell
                |p Ht Hd|i p Ht Hd Hw|i p Ht Hd Hw]; simpl; intros Ht';
    try congruence; rewrite ?Hw; try by intros ?%elem_of_nil.
  - intros [=]%list_elem_of_singleton.
  - intros [= -> ->]%list_elem_of_singleton. unfold outcome. simpl.
    rewrite list_lookup_insert_eq by (by eapply lookup_lt_Some). done.
Qed.

Lemma steps_outcome acts h o : ∀ p p',
  steps acts p = Some p' →
  outcome h p = Some (ResultChannel.Ready o) →
  outcome h p' = Some (ResultChannel.Ready o).
Proof.
  induction acts as [|a acts IH]; intros p p'; simpl.
  - by intros [= <-].
  - destruct (step a p) as [p1|] eqn:Hstep; [|done]. intros Hsteps Hh.
    apply (IH p1); [done|]. eapply outcome_Step; [by apply step_Step|done].
Qed.

Lemma steps_history_outcome acts h f : ∀ p p',
  steps acts p = Some p' → terminated p' = false →
  Packaged h f ∈ history acts p →
  outcome h p' = Some (ResultChannel.Ready (f tt)).
Proof.
  induction acts as [|a acts IH]; intros p p'; simpl.
  - by intros _ _ ?%elem_of_nil.
  - destruct (step a p) as [p1|] eqn:Hstep; [|by intros _ _ ?%elem_of_nil].
    intros Hsteps Ht' [Hin|Hin]%elem_of_app.
    + apply (steps_outcome _ _ _ _ _ Hsteps).
      eapply outcome_runs; [by apply step_Step| |done].
      by eapply steps_not_terminated.
    + by apply (IH p1).
Qed.

(** When the destructor has returned, every worker was joined after it
    had returned, and nothing is left to do. *)
Lemma destroyed_finished W p :
  invariant W p → destroyed p = true →
  stop p = true ∧ terminated p = false ∧ executing p = [] ∧
  (∀ i, i < W → workers p !! i = Some Finished) ∧
  (1 ≤ W → tasks p = []).
Proof.
  intros [Hlen Hdtor Hfin Hterm _]. unfold destroyed.
  destruct (dtor p) as [|k|]; [done|done|]. intros _.
  destruct Hdtor as (Hs & Hts & Hall).
  assert (Hws : workers p = replicate W Finished).
  { apply list_eq. intros i. destruct (decide (i < W)) as [Hi|Hi].
    - rewrite Hall by done. symmetry. by apply lookup_replicate_2.
    - rewrite !lookup_ge_None_2; [done| |]; rewrite ?length_replicate; lia. }
  split; [done|]. split; [|split; [|split; [done|]]].
  - destruct (terminated p) eqn:Ht; [|done].
    destruct (Hterm eq_refl) as (i & tk & Hi).
    rewrite Hws in Hi. apply lookup_replicate in Hi as [? _]. done.
  - unfold executing. rewrite Hws. clear.
    induction W as [|W IH]; simpl; done.
  - done.
Qed.

(** ** Progress of the shutdown *)

Lemma executing_lookup p i tk :
  workers p !! i = Some (Executing tk) → tk ∈ pending p.
Proof.
  intros Hi. unfold pending, executing. apply elem_of_app. left.
  apply list_elem_of_bind. exists (Executing tk). split; [by left|].
  by eapply list_elem_of_lookup_2.
Qed.

(** Every step of a worker or of the destructor uses up some of the
    remaining work, and a refused submission leaves it as it is. *)
Lemma weight_Step a p p' :
  Step a p p' → terminated p' = false → stop p = true →
  weight p' ≤ weight p ∧
  match a with
  | Worker _ | Destructor => weight p' < weight p
  | Enqueue _ | EnqueueTask _ => True
  end.
Proof.
  destruct 1 as [f p Ht Hs|f p Ht Hs|f p Ht Hs|f p Ht Hs|i p Ht Hw Hs Hts
                |i tk rest p Ht Hw Hts|i f u p Ht Hw Hf|i f e p Ht Hw Hf
                |i h f c p Ht Hw Hc Hcell|i h f c o p Ht Hw Hc Hcell
                |p Ht Hd|i p Ht Hd Hw|i p Ht Hd Hw]; simpl; intros Ht' Hs';
    try congruence; unfold weight, joins_left; simpl;
    rewrite ?length_insert;
    try pose proof (weight_insert _ _ _ Waiting Hw) as Hsum;
    try pose proof (weight_insert _ _ _ Finished Hw) as Hsum';
    try pose proof (weight_insert _ _ _ (Executing tk) Hw) as Hsum'';
    simpl in *; rewrite ?Hd, ?Hts; simpl; try lia.
  apply lookup_lt_Some in Hw. lia.
Qed.

(** While the destructor has not returned and the process has not been
    terminated, the worker it waits for can move, or can be joined, or,
    after the last join, the members can be destroyed. *)
Lemma shutdown_progress W p :
  invariant W p → terminated p = false → stop p = true →
  dtor p ≠ NotCalled → destroyed p = false →
  Forall harmless (pending p) →
  ∃ a p', Step a p p' ∧ terminated p' = false ∧ weight p' < weight p ∧
          dtor p' ≠ NotCalled ∧ Forall harmless (pending p').
Proof.
  intros Hinv Ht Hs Hd Hnot Hharm.
  assert (Hstep : ∃ a p', Step a p p' ∧ terminated p' = false ∧
                          dtor p' ≠ NotCalled ∧
                          match a with
                          | Worker _ | Destructor => True
                          | _ => False
                          end).
  { destruct Hinv as [Hlen _ _ _ [_ Hout]]. unfold destroyed in Hnot.
    destruct (dtor p) as [|k|] eqn:Hk; [done| |done].
    destruct (workers p !! k) as [w|] eqn:Hw; cycle 1.
    { eexists Destructor, _. split; [by eapply Step_destroy|]. done. }
    destruct w as [|tk|].
    - destruct (tasks p) as [|tk rest] eqn:Hts.
      + eexists (Worker k), _. split; [by apply Step_exit|].
        simpl. by rewrite Hk.
      + eexists (Worker k), _. split; [by eapply Step_take|].
        simpl. by rewrite Hk.
    - pose proof (executing_lookup _ _ _ Hw) as Hin.
      destruct tk as [f|h f].
      + destruct (proj1 (Forall_forall _ _) Hharm _ Hin) as [u Hu].
        eexists (Worker k), _. split; [by eapply Step_run_plain|].
        simpl. by rewrite Hk.
      + assert (Hh : outcome h p = Some ResultChannel.Pending).
        { apply Hout, list_elem_of_bind. exists (Packaged h f).
          split; [by left|done]. }
        unfold outcome in Hh.
        destruct (shared p !! h) as [c|] eqn:Hc; [|done].
        injection Hh as Hcell.
        eexists (Worker k), _. split; [by eapply Step_run_packaged|].
        simpl. by rewrite Hk.
    - eexists Destructor, _. split; [by eapply Step_join|]. done. }
  destruct Hstep as (a & p' & HS & Ht' & Hd' & Ha).
  exists a, p'. split; [done|]. split; [done|].
  pose proof (weight_Step _ _ _ HS Ht' Hs) as [_ Hlt].
  pose proof (pending_Step _ _ _ HS Ht') as Hp.
  destruct a; try done; (split; [done|]; split; [done|]);
    rewrite <- Hp in Hharm; apply Forall_app in Hharm as [_ Hharm];
    by apply Forall_app in Hharm as [_ ?].
Qed.

(** The destructor returns: from any state of the shutdown in which no
    pending plain task throws, some schedule joins every worker and
    destroys the members. *)
Lemma shutdown_returns W p :
  invariant W p → terminated p = false → stop p = true →
  dtor p ≠ NotCalled → Forall harmless (pending p) →
  ∃ acts p', steps acts p = Some p' ∧ destroyed p' = true.
Proof.
  remember (weight p) as n eqn:Hn. revert p Hn.
  induction (lt_wf n) as [n _ IH]. intros p -> Hinv Ht Hs Hd Hharm.
  destruct (destroyed p) eqn:Hdes; [by exists [], p|].
  destruct (shutdown_progress W p) as (a & p1 & HS & Ht1 & Hlt & Hd1 & Hh1);
    try done.
  destruct (IH _ Hlt p1 eq_refl) as (acts & p' & Hsteps & Hdes');
    try done.
  - by eapply invariant_Step.
  - by eapply stop_Step.
  - exists (a :: acts), p'. simpl. by rewrite (Step_step _ _ _ HS).
Qed.

(** No schedule of the shutdown takes more worker and destructor steps
    than the remaining work. *)
Lemma schedule_bounded acts : ∀ p p',
  stop p = true → steps acts p = Some p' → terminated p' = false →
  weight p' + internal_steps acts ≤ weight p.
Proof.
  induction acts as [|a acts IH]; intros p p' Hs; simpl.
  - intros [= <-] _. lia.
  - destruct (step a p) as [p1|] eqn:Hstep; [|done]. intros Hsteps Ht'.
    apply step_Step in Hstep.
    pose proof (steps_not_terminated _ _ _ Hsteps Ht') as Ht1.
    pose proof (weight_Step _ _ _ Hstep Ht1 Hs) as [Hle Hlt].
    pose proof (IH p1 p' (stop_Step _ _ _ Hstep Hs) Hsteps Ht') as Hrec.
    destruct a; lia.
Qed.

(** ** One worker emptying the queue *)

Lemma packaged_pending p h f :
  handles_ok p → Packaged h f ∈ pending p →
  ∃ c, shared p !! h = Some c ∧
       ResultChannel.cell c = ResultChannel.Pending.
Proof.
  intros [_ Hout] Hin.
  assert (Hh : outcome h p = Some ResultChannel.Pending).
  { apply Hout, list_elem_of_bind. exists (Packaged h f).
    split; [by left|done]. }
  unfold outcome in Hh. destruct (shared p !! h) as [c|]; [|done].
  injection Hh as Hcell. eauto.
Qed.

(** A waiting worker that is given the processor takes the queued tasks
    one after the other and runs each of them, as long as none of them
    is a plain task that throws. *)
Lemma worker_drains W i ts : ∀ p,
  invariant W p → terminated p = false →
  workers p !! i = Some Waiting → tasks p = ts → Forall harmless ts →
  ∃ p', steps (replicate (2 * length ts) (Worker i)) p = Some p' ∧
        invariant W p' ∧ terminated p' = false ∧ stop p' = stop p ∧
        workers p' !! i = Some Waiting ∧ tasks p' = [] ∧
        ∀ h f, Packaged h f ∈ ts →
               outcome h p' = Some (ResultChannel.Ready (f tt)).
Proof.
  induction ts as [|tk rest IH]; intros p Hinv Ht Hw Hts Hharm.
  { exists p. do 6 (split; [done|]). by intros h f ?%elem_of_nil. }
  apply Forall_cons in Hharm as [Htk Hrest].
  assert (Hi : i < length (workers p)) by (by eapply lookup_lt_Some).
  (* the worker moves the head of the queue out *)
  pose proof (Step_take i tk rest p Ht Hw Hts) as HS1.
  set (p1 := set_workers (<[i:=Executing tk]> (workers p)) (set_tasks rest p))
    in HS1.
  pose proof (invariant_Step _ _ _ _ HS1 Hinv) as Hinv1.
  assert (Hw1 : workers p1 !! i = Some (Executing tk)).
  { simpl. by apply list_lookup_insert_eq. }
  (* and runs it *)
  assert (Hrun : ∃ p2, Step (Worker i) p1 p2 ∧ terminated p2 = false ∧
                       stop p2 = stop p ∧ tasks p2 = rest ∧
                       workers p2 !! i = Some Waiting ∧
                       ∀ h f, tk = Packaged h f →
                         outcome h p2 = Some (ResultChannel.Ready (f tt))).
  { destruct tk as [f|h f].
    - destruct Htk as [u Hu]. eexists. split; [by eapply Step_run_plain|].
      simpl. rewrite list_lookup_insert_eq by (by rewrite length_insert).
      by do 4 (split; [done|]).
    - destruct (packaged_pending p1 h f) as (c & Hc & Hcell).
      { by destruct Hinv1. } { by eapply executing_lookup. }
      eexists. split; [by eapply Step_run_packaged|].
      simpl. rewrite list_lookup_insert_eq by (by rewrite length_insert).
      do 4 (split; [done|]). intros ? ? [= <- <-]. unfold outcome. simpl.
      rewrite list_lookup_insert_eq by (by eapply lookup_lt_Some). done. }
  destruct Hrun as (p2 & HS2 & Ht2 & Hs2 & Hts2 & Hw2 & Hout2).
  pose proof (invariant_Step _ _ _ _ HS2 Hinv1) as Hinv2.
  destruct (IH p2 Hinv2 Ht2 Hw2 Hts2 Hrest)
    as (p' & Hsteps & Hinv' & Ht' & Hs' & Hw' & Hts' & Hout').
  exists p'. split.
  { replace (2 * length (tk :: rest)) with (S (S (2 * length rest)))
      by (simpl; lia).
    simpl replicate. simpl steps.
    rewrite (Step_step _ _ _ HS1), (Step_step _ _ _ HS2). done. }
  do 2 (split; [done|]). split; [congruence|]. do 2 (split; [done|]).
  intros h f [Heq|Hin]%elem_of_cons; [|by apply Hout'].
  eapply steps_outcome; [done|]. by apply Hout2.
Qed.

(** ** The claims about the pool *)

(** C3, as the code has it.  When the function of a task submitted
    through [enqueue_task] throws, the exception is stored in the task's
    shared state, the process is not terminated and the worker is back
    at its wait; a task submitted through [enqueue_task] afterwards gets
    a shared state of its own, is run by that same worker once the
    tasks queued before it (none of them a plain task that throws) have
    been run, and its future then holds the value its function
    returned, while the future of the failed task still holds the
    exception. *)
Theorem packaged_failure_is_contained W p i h f e :
  reachable W p → terminated p = false →
  workers p !! i = Some (Executing (Packaged h f)) → f tt = Threw e →
  ∃ p1,
    step (Worker i) p = Some p1 ∧ terminated p1 = false ∧
    workers p1 !! i = Some Waiting ∧ tasks p1 = tasks p ∧
    outcome h p1 = Some (ResultChannel.Ready (Threw e)) ∧
    ∀ g v,
      g tt = Returned v → stop p = false → Forall harmless (tasks p) →
      ∃ h2 p2 p3,
        enqueue_task g p1 = (Returned h2, p2) ∧ h2 ≠ h ∧
        steps (replicate (2 * length (tasks p2)) (Worker i)) p2 = Some p3 ∧
        terminated p3 = false ∧ workers p3 !! i = Some Waiting ∧
        outcome h2 p3 = Some (ResultChannel.Ready (Returned v)) ∧
        outcome h p3 = Some (ResultChannel.Ready (Threw e)).
Proof.
  intros Hreach Ht Hw Hf. pose proof (reachable_invariant _ _ Hreach) as Hinv.
  destruct (packaged_pending p h f) as (c & Hc & Hcell);
    [by destruct Hinv|by eapply executing_lookup|].
  pose proof (Step_run_packaged i h f c p Ht Hw Hc Hcell) as HS.
  eexists. split; [by apply Step_step|].
  assert (Hi : i < length (workers p)) by (by eapply lookup_lt_Some).
  assert (Hh : h < length (shared p)) by (by eapply lookup_lt_Some).
  split; [done|]. split; [by apply list_lookup_insert_eq|].
  split; [done|]. split.
  { unfold outcome. simpl. rewrite list_lookup_insert_eq by done.
    by rewrite Hf. }
  intros g v Hg Hs Hharm.
  pose proof (invariant_Step _ _ _ _ HS Hinv) as Hinv1.
  set (p1 := set_workers _ _) in *.
  pose proof (Step_enqueue_task g p1 Ht Hs) as HS2.
  pose proof (invariant_Step _ _ _ _ HS2 Hinv1) as Hinv2.
  set (p2 := set_tasks _ _) in *.
  destruct (worker_drains W i (tasks p2) p2)
    as (p3 & Hsteps & _ & Ht3 & _ & Hw3 & _ & Hout); try done.
  { simpl. by rewrite list_lookup_insert_eq. }
  { simpl. apply Forall_app. split; [done|]. by apply Forall_singleton. }
  exists (length (shared p1)), p2, p3.
  assert (Hs1 : stop p1 = false) by done.
  split; [by unfold enqueue_task; rewrite Hs1|].
  split; [simpl; rewrite length_insert; lia|].
  do 3 (split; [done|]). split.
  - rewrite <- Hg. apply Hout. simpl. apply elem_of_app. right. by left.
  - eapply steps_outcome; [done|].
    eapply outcome_Step; [done|].
    unfold outcome. simpl. rewrite list_lookup_insert_eq by done.
    by rewrite Hf.
Qed.

(** C5, as the code has it.  On a pool whose [stop] flag is set,
    [enqueue] writes a warning to [cerr] and returns like any other
    call, [enqueue_task] throws [runtime_error], and neither adds a
    task; on a running pool [enqueue] appends the task, and
    [enqueue_task] appends the wrapped task and returns the future of a
    new, pending shared state. *)
Theorem submit_depends_on_stop p (f : callable unit) (g : callable V) :
  (stop p = true →
     enqueue f p
     = (tt, set_cerr
              (cerr p ++ ["ThreadPool: Warning! Enqueue on stopped pool."]) p) ∧
     tasks (enqueue f p).2 = tasks p ∧
     enqueue_task g p
     = (Threw (runtime_error "Enqueue on stopped ThreadPool"), p)) ∧
  (stop p = false →
     enqueue f p = (tt, set_tasks (tasks p ++ [Plain f]) p) ∧
     enqueue_task g p
     = (Returned (length (shared p)),
        set_tasks (tasks p ++ [Packaged (length (shared p)) g])
          (set_shared (shared p ++ [ResultChannel.fresh]) p)) ∧
     outcome (length (shared p)) (enqueue_task g p).2
     = Some ResultChannel.Pending).
Proof.
  unfold enqueue, enqueue_task. split; intros ->; [done|].
  do 2 (split; [done|]). unfold outcome. simpl.
  by rewrite list_lookup_middle.
Qed.

(** C8.  For a pool of at least one worker, once the destructor has set
    [stop]: whenever it has returned, every worker had returned and was
    joined, the queue is empty, the tasks run since then are exactly
    the tasks that were pending, each once, and the future of every
    pending packaged task holds what its function returned or threw;
    and it does return, provided no pending plain task throws.  With a
    worker in the pool the queue is empty when the members are
    destroyed, so that no task is discarded. *)
Theorem shutdown_completeness W p0 p1 :
  1 ≤ W → reachable W p0 → dtor p0 = NotCalled →
  step Destructor p0 = Some p1 →
  pending p1 = pending p0 ∧
  (∀ acts p',
     steps acts p1 = Some p' → destroyed p' = true →
     (∀ i, i < W → workers p' !! i = Some Finished) ∧
     pending p' = [] ∧
     history acts p1 ≡ₚ pending p0 ∧
     ∀ h f, Packaged h f ∈ pending p0 →
            outcome h p' = Some (ResultChannel.Ready (f tt))) ∧
  (Forall harmless (pending p0) →
   ∃ acts p', steps acts p1 = Some p' ∧ destroyed p' = true).
Proof.
  intros HW Hreach Hd Hstep.
  pose proof (reachable_step _ _ _ _ Hreach Hstep) as Hreach1.
  pose proof (reachable_invariant _ _ Hreach1) as Hinv1.
  apply step_Step in Hstep. inversion Hstep as [| | | | | | | | | |p Ht _| |];
    subst; [|congruence..].
  set (p1 := set_dtor _ _) in *.
  assert (Hs1 : stop p1 = true) by done.
  split; [done|]. split.
  - intros acts p' Hsteps Hdes.
    pose proof (reachable_invariant _ _ (reachable_steps _ _ _ _ Hreach1 Hsteps))
      as Hinv'.
    destruct (destroyed_finished _ _ Hinv' Hdes)
      as (_ & Ht' & Hex & Hall & Hts).
    assert (Hpend : pending p' = []).
    { unfold pending. by rewrite Hex, Hts. }
    pose proof (steps_history _ _ _ Hs1 Hsteps Ht') as Hhist.
    rewrite (dropped_nil W _ _ _ HW Hinv1 Hsteps), Hpend in Hhist.
    simpl in Hhist. rewrite app_nil_r in Hhist.
    do 3 (split; [done|]). intros h f Hin.
    eapply steps_history_outcome; [done..|]. by rewrite Hhist.
  - intros Hharm. by apply (shutdown_returns W p1).
Qed.
End facts.

(** ** Concrete instances *)

Lemma packaged_failure_is_contained_witness :
  ∃ p1,
    step (Worker 0) Examples.one_failing = Some p1 ∧ terminated p1 = false ∧
    workers p1 !! 0 = Some Waiting ∧ tasks p1 = tasks Examples.one_failing ∧
    outcome 0 p1
    = Some (ResultChannel.Ready (Threw (runtime_error "task failed"))) ∧
    ∀ g v,
      g tt = Returned v → stop Examples.one_failing = false →
      Forall harmless (tasks Examples.one_failing) →
      ∃ h2 p2 p3,
        enqueue_task g p1 = (Returned h2, p2) ∧ h2 ≠ 0 ∧
        steps (replicate (2 * length (tasks p2)) (Worker 0)) p2 = Some p3 ∧
        terminated p3 = false ∧ workers p3 !! 0 = Some Waiting ∧
        outcome h2 p3 = Some (ResultChannel.Ready (Returned v)) ∧
        outcome 0 p3
        = Some (ResultChannel.Ready (Threw (runtime_error "task failed"))).
Proof.
  apply (packaged_failure_is_contained 1 Examples.one_failing 0 0
           Examples.failing (runtime_error "task failed")); try reflexivity.
  apply (reachable_steps 1 [EnqueueTask Examples.failing; Worker 0]
           (SimpleThreadPool 1)); [apply reachable_init|reflexivity].
Defined.

(** C3 as stated fails for a task submitted through [enqueue]: its
    exception leaves the worker's lambda and the process is terminated;
    no thread takes another step. *)
Lemma plain_failure_terminates :
  ∃ p : t nat,
    steps [Enqueue Examples.failing_plain; Worker 0; Worker 0]
      (SimpleThreadPool 1) = Some p ∧
    terminated p = true ∧
    workers p !! 0 = Some (Executing (Plain Examples.failing_plain)) ∧
    ∀ a, step a p = None.
Proof. eexists. split; [reflexivity|]. done. Qed.

Lemma submit_depends_on_stop_witness :
  (stop Examples.stopping = true →
     enqueue Examples.failing_plain Examples.stopping
     = (tt, set_cerr
              (cerr Examples.stopping
               ++ ["ThreadPool: Warning! Enqueue on stopped pool."])
              Examples.stopping) ∧
     tasks (enqueue Examples.failing_plain Examples.stopping).2
     = tasks Examples.stopping ∧
     enqueue_task (Examples.square 2) Examples.stopping
     = (Threw (runtime_error "Enqueue on stopped ThreadPool"),
        Examples.stopping)) ∧
  (stop Examples.stopping = false →
     enqueue Examples.failing_plain Examples.stopping
     = (tt, set_tasks (tasks Examples.stopping ++ [Plain Examples.failing_plain])
              Examples.stopping) ∧
     enqueue_task (Examples.square 2) Examples.stopping
     = (Returned (length (shared Examples.stopping)),
        set_tasks
          (tasks Examples.stopping
           ++ [Packaged (length (shared Examples.stopping)) (Examples.square 2)])
          (set_shared (shared Examples.stopping ++ [ResultChannel.fresh])
             Examples.stopping)) ∧
     outcome (length (shared Examples.stopping))
       (enqueue_task (Examples.square 2) Examples.stopping).2
     = Some ResultChannel.Pending).
Proof.
  apply (submit_depends_on_stop Examples.stopping Examples.failing_plain
           (Examples.square 2)).
Defined.

(** C5 as stated fails for [enqueue]: on a stopped pool it returns like a
    call that was accepted, having only written to [cerr]; nothing
    computed from what it returns tells the caller that the task was
    refused. *)
Lemma enqueue_stopped_not_reported :
  (enqueue Examples.failing_plain Examples.stopping).1
  = (enqueue Examples.failing_plain (SimpleThreadPool (V:=nat) 4)).1 ∧
  tasks (enqueue Examples.failing_plain Examples.stopping).2 = [] ∧
  ¬ ∃ pool_stopped : unit → bool,
      (∀ (p : t nat) f, stop p = true → pool_stopped (enqueue f p).1 = true) ∧
      (∀ (p : t nat) f, stop p = false → pool_stopped (enqueue f p).1 = false).
Proof.
  split; [done|]. split; [done|]. intros (ps & Hstopped & Hrunning).
  pose proof (Hstopped Examples.stopping Examples.failing_plain eq_refl) as H1.
  pose proof (Hrunning (SimpleThreadPool 4) Examples.failing_plain eq_refl) as H2.
  simpl in *. congruence.
Qed.

Lemma shutdown_completeness_witness :
  pending Examples.one_task_stopping = pending Examples.one_task ∧
  (∀ acts p',
     steps acts Examples.one_task_stopping = Some p' → destroyed p' = true →
     (∀ i, i < 1 → workers p' !! i = Some Finished) ∧
     pending p' = [] ∧
     history acts Examples.one_task_stopping ≡ₚ pending Examples.one_task ∧
     ∀ h f, Packaged h f ∈ pending Examples.one_task →
            outcome h p' = Some (ResultChannel.Ready (f tt))) ∧
  (Forall harmless (pending Examples.one_task) →
   ∃ acts p',
     steps acts Examples.one_task_stopping = Some p' ∧ destroyed p' = true).
Proof.
  apply (shutdown_completeness 1 Examples.one_task Examples.one_task_stopping);
    [lia| |reflexivity|reflexivity].
  apply (reachable_steps 1 [EnqueueTask (Examples.square 3)]
           (SimpleThreadPool 1)); [apply reachable_init|reflexivity].
Defined.

(** The schedule of the destructor of that pool: the worker takes the
    task, runs it, returns and is joined, and the members are destroyed;
    the future then holds 9. *)
Example one_task_shutdown :
  ∃ p', steps [Worker 0; Worker 0; Worker 0; Destructor; Destructor]
          Examples.one_task_stopping = Some p' ∧
        destroyed p' = true ∧
        outcome 0 p' = Some (ResultChannel.Ready (Returned 9)).
Proof. eexists. split; [reflexivity|]. done. Qed.

(** A pool constructed with no worker: its destructor joins nobody, the
    queued task is destroyed with the queue without having been run, and
    its future holds [broken_promise]. *)
Example no_worker_shutdown :
  ∃ p', steps [EnqueueTask (Examples.square 3); Destructor; Destructor]
          (SimpleThreadPool 0) = Some p' ∧
        destroyed p' = true ∧
        tasks p' = [] ∧
        history [EnqueueTask (Examples.square 3); Destructor; Destructor]
          (SimpleThreadPool 0) = [] ∧
        outcome 0 p' = Some (ResultChannel.Ready (Threw BrokenPromise)).
Proof. eexists. split; [reflexivity|]. done. Qed.

(** ** Capacity *)

(** Any number of tasks can be queued in a running pool. *)
Lemma enqueue_many {V} W (f : callable unit) n :
  ∃ p : t V, reachable W p ∧ terminated p = false ∧ stop p = false ∧
             length (tasks p) = n.
Proof.
  induction n as [|n (p & Hreach & Ht & Hs & Hlen)].
  - exists (SimpleThreadPool W). split; [apply reachable_init|done].
  - exists (set_tasks (tasks p ++ [Plain f]) p). split.
    + apply (reachable_step W p (Enqueue f)); [done|].
      apply Step_step. by constructor.
    + simpl. rewrite length_app. simpl. split; [done|]. split; [done|]. lia.
Qed.

(** C2, as the code has it.  In every reachable state of a queue
    constructed with bound [N] the buffer holds at most [N] items and the
    bound is unchanged; a push on a buffer of [N] items enqueues nothing
    (it waits, or returns empty-handed once [finished] is set), and when
    [N] is not 0 a pop then returns an item, after which a push on the
    still unfinished queue enqueues.  The pool does not use this queue:
    [enqueue] on a running pool never waits and always makes the pool's
    own queue one longer. *)
Theorem queue_bounded_pool_unbounded {T V} N (s : ThreadSafeQueue.t T) item
    (p : t V) (f : callable unit) :
  ThreadSafeQueue.reachable N s → terminated p = false → stop p = false →
  length (ThreadSafeQueue.q s) ≤ N ∧ ThreadSafeQueue.max_size s = N ∧
  (length (ThreadSafeQueue.q s) = N →
     ThreadSafeQueue.push item s
     = (if ThreadSafeQueue.finished s then Done (tt, s) else Blocked) ∧
     (0 < N →
      ∃ x s1, ThreadSafeQueue.pop s = Done (Some x, s1) ∧
              length (ThreadSafeQueue.q s1) < N ∧
              (ThreadSafeQueue.finished s = false →
               ThreadSafeQueue.push item s1
               = Done (tt, ThreadSafeQueue.mk (ThreadSafeQueue.q s1 ++ [item])
                             N false)))) ∧
  ∃ p', step (Enqueue f) p = Some p' ∧
        length (tasks p') = S (length (tasks p)).
Proof.
  intros Hreach Ht Hs.
  destruct (QueueFacts.reachable_bound _ _ Hreach) as [HN Hle].
  split; [done|]. split; [done|]. split.
  - intros Hfull. split.
    + destruct (ThreadSafeQueue.finished s) eqn:Hf.
      * by apply QueueFacts.push_closed.
      * apply QueueFacts.push_full_open; [done|lia].
    + intros Hpos. destruct s as [[|x rest] N' fin]; simpl in *; [lia|].
      exists x, (ThreadSafeQueue.mk rest N' fin). split; [done|].
      split; [simpl; lia|]. intros ->.
      rewrite QueueFacts.push_open; simpl; [by subst|done|lia].
  - eexists. split; [apply Step_step; by constructor|].
    simpl. rewrite length_app. simpl. lia.
Qed.

Lemma queue_bounded_pool_unbounded_witness :
  length (ThreadSafeQueue.q (ThreadSafeQueue.mk [5] 1 false)) ≤ 1 ∧
  ThreadSafeQueue.max_size (ThreadSafeQueue.mk [5] 1 false) = 1 ∧
  (length (ThreadSafeQueue.q (ThreadSafeQueue.mk [5] 1 false)) = 1 →
     ThreadSafeQueue.push 6 (ThreadSafeQueue.mk [5] 1 false)
     = (if ThreadSafeQueue.finished (ThreadSafeQueue.mk [5] 1 false)
        then Done (tt, ThreadSafeQueue.mk [5] 1 false) else Blocked) ∧
     (0 < 1 →
      ∃ x s1, ThreadSafeQueue.pop (ThreadSafeQueue.mk [5] 1 false)
              = Done (Some x, s1) ∧
              length (ThreadSafeQueue.q s1) < 1 ∧
              (ThreadSafeQueue.finished (ThreadSafeQueue.mk [5] 1 false) = false →
               ThreadSafeQueue.push 6 s1
               = Done (tt, ThreadSafeQueue.mk (ThreadSafeQueue.q s1 ++ [6])
                             1 false)))) ∧
  ∃ p', step (Enqueue Examples.failing_plain) Examples.one_task = Some p' ∧
        length (tasks p') = S (length (tasks Examples.one_task)).
Proof.
  apply (queue_bounded_pool_unbounded 1 (ThreadSafeQueue.mk [5] 1 false) 6
           Examples.one_task Examples.failing_plain); try reflexivity.
  apply (ThreadSafeQueue.reachable_step 1 (ThreadSafeQueue.ThreadSafeQueue 1)
           (ThreadSafeQueue.Push 5) ThreadSafeQueue.Void);
    [apply ThreadSafeQueue.reachable_init|reflexivity].
Defined.

(** C2 as stated fails for the pool: no bound limits the number of its
    pending tasks. *)
Lemma pool_pending_unbounded :
  ¬ ∃ N, ∀ W (p : t nat), reachable W p → length (tasks p) ≤ N.
Proof.
  intros [N Hbound].
  destruct (enqueue_many (V:=nat) 4 Examples.failing_plain (S N))
    as (p & Hreach & _ & _ & Hlen).
  specialize (Hbound 4 p Hreach). lia.
Qed.

(** ** Further properties of the pool *)

Section more_facts.
Context {V : Type}.
Implicit Types (p : t V) (tk : task V) (a : action V).

Lemma pending_terminate p : pending (terminate p) = pending p.
Proof. done. Qed.

Lemma pending_init W : pending (@SimpleThreadPool V W) = [].
Proof.
  unfold pending, executing. simpl. rewrite app_nil_r.
  induction W as [|W IH]; simpl; done.
Qed.

Lemma history_accepted acts : ∀ p p',
  steps acts p = Some p' → terminated p' = false →
  history acts p ++ dropped acts p ++ pending p'
  ≡ₚ pending p ++ accepted acts p.
Proof.
  induction acts as [|a acts IH]; intros p p'; simpl.
  - intros [= <-] _. by rewrite app_nil_r.
  - destruct (step a p) as [p1|] eqn:Hstep; [|done]. intros Hsteps Ht'.
    apply step_Step in Hstep.
    pose proof (steps_not_terminated _ _ _ Hsteps Ht') as Ht1.
    pose proof (pending_Step _ _ _ Hstep Ht1) as Hp.
    pose proof (IH p1 p' Hsteps Ht') as Hrec.
    destruct a.
    + simpl. etrans; [apply Hrec|]. by rewrite Hp, <- app_assoc.
    + simpl. etrans; [apply Hrec|]. by rewrite Hp, <- app_assoc.
    + cbn [submits app]. rewrite <- Hp.
      etrans; [|by rewrite <- !app_assoc, <- Hrec]. solve_Permutation.
    + cbn [submits app]. rewrite <- Hp.
      etrans; [|by rewrite <- !app_assoc, <- Hrec]. solve_Permutation.
Qed.

Lemma destroyed_Step a p p' :
  Step a p p' → destroyed p = true → destroyed p' = true.
Proof.
  destruct 1 as [f p Ht Hs|f p Ht Hs|f p Ht Hs|f p Ht Hs|i p Ht Hw Hs Hts
                |i tk rest p Ht Hw Hts|i f u p Ht Hw Hf|i f e p Ht Hw Hf
                |i h f c p Ht Hw Hc Hcell|i h f c o p Ht Hw Hc Hcell
                |p Ht Hd|i p Ht Hd Hw|i p Ht Hd Hw];
    unfold destroyed; simpl; rewrite ?Hd; done.
Qed.

Lemma destroyed_steps acts : ∀ p p',
  steps acts p = Some p' → destroyed p = true → destroyed p' = true.
Proof.
  induction acts as [|a acts IH]; intros p p'; simpl.
  - by intros [= <-].
  - destruct (step a p) as [p1|] eqn:Hstep; [|done]. intros Hsteps Hdes.
    apply (IH p1 p' Hsteps). eapply destroyed_Step; [by apply step_Step|done].
Qed.

(** Only the destruction of the members discards a task. *)
Lemma drops_destroyed a p p' :
  Step a p p' → destroyed p' = false → drops a p = [].
Proof.
  destruct 1 as [f p Ht Hs|f p Ht Hs|f p Ht Hs|f p Ht Hs|i p Ht Hw Hs Hts
                |i tk rest p Ht Hw Hts|i f u p Ht Hw Hf|i f e p Ht Hw Hf
                |i h f c p Ht Hw Hc Hcell|i h f c o p Ht Hw Hc Hcell
                |p Ht Hd|i p Ht Hd Hw|i p Ht Hd Hw];
    unfold drops; rewrite ?Hd, ?Hw; done.
Qed.

Lemma dropped_destroyed acts : ∀ p p',
  steps acts p = Some p' → destroyed p' = false → dropped acts p = [].
Proof.
  induction acts as [|a acts IH]; intros p p'; simpl; [done|].
  destruct (step a p) as [p1|] eqn:Hstep; [|done]. intros Hsteps Hdes.
  apply step_Step in Hstep.
  rewrite (IH p1 p' Hsteps Hdes), app_nil_r.
  apply (drops_destroyed _ _ _ Hstep).
  destruct (destroyed p1) eqn:Hdes1; [|done].
  by rewrite (destroyed_steps _ _ _ Hsteps Hdes1) in Hdes.
Qed.

(** Under every schedule that starts at the constructor and has not ended
    in [std::terminate], each task the pool accepted is still pending,
    or has been run, once, or was destroyed unrun with the queue: the
    tasks run, the tasks destroyed and the pending ones together are
    the accepted ones, counted with multiplicity.  A task is destroyed
    unrun only by the destruction of a pool constructed with no
    thread. *)
Theorem every_task_runs_once W acts p' :
  steps acts (SimpleThreadPool W) = Some p' → terminated p' = false →
  history acts (SimpleThreadPool W) ++ dropped acts (SimpleThreadPool W)
    ++ pending p'
  ≡ₚ accepted acts (SimpleThreadPool W) ∧
  (1 ≤ W ∨ destroyed p' = false → dropped acts (SimpleThreadPool W) = []).
Proof.
  intros Hsteps Ht'. split.
  - rewrite (history_accepted _ _ _ Hsteps Ht'). by rewrite pending_init.
  - intros [HW|Hdes].
    + eapply (dropped_nil W); [done|apply invariant_init|done].
    + by eapply dropped_destroyed.
Qed.

(** A packaged task destroyed unrun leaves [BrokenPromise] to its
    future. *)
Lemma drops_outcome a p p' h (f : callable V) :
  Step a p p' → handles_ok p → Packaged h f ∈ drops a p →
  destroyed p' = true ∧
  outcome h p' = Some (ResultChannel.Ready (Threw BrokenPromise)).
Proof.
  destruct 1 as [f0 p Ht Hs|f0 p Ht Hs|f0 p Ht Hs|f0 p Ht Hs
                |i p Ht Hw Hs Hts
                |i tk rest p Ht Hw Hts|i f0 u p Ht Hw Hf|i f0 e p Ht Hw Hf
                |i h0 f0 c p Ht Hw Hc Hcell|i h0 f0 c o0 p Ht Hw Hc Hcell
                |p Ht Hd|i p Ht Hd Hw|i p Ht Hd Hw];
    intros Hok; unfold drops; rewrite ?Hd, ?Hw;
    try by intros ?%elem_of_nil.
  intros Hin. split; [done|].
  destruct (packaged_pending p h f Hok) as (c & Hc & Hcell).
  { unfold pending. apply elem_of_app. by right. }
  rewrite outcome_destroy_members, decide_True.
  - rewrite Hc. simpl. unfold abandon. by rewrite Hcell.
  - apply list_elem_of_bind. exists (Packaged h f). split; [by left|done].
Qed.

Lemma future_Step W a p p' h (f : callable V) :
  invariant W p → Step a p p' →
  Packaged h f ∈ pending p ∨
  outcome h p = Some (ResultChannel.Ready (f tt)) ∨
  (W = 0 ∧ destroyed p = true ∧
   outcome h p = Some (ResultChannel.Ready (Threw BrokenPromise))) →
  Packaged h f ∈ pending p' ∨
  outcome h p' = Some (ResultChannel.Ready (f tt)) ∨
  (W = 0 ∧ destroyed p' = true ∧
   outcome h p' = Some (ResultChannel.Ready (Threw BrokenPromise))).
Proof.
  intros Hinv HS [Hin|[Hready|(HW & Hdes & Hbroken)]].
  - destruct (terminated p') eqn:Ht'.
    { left. destruct HS; simpl in Ht'; try congruence; done. }
    pose proof (pending_Step _ _ _ HS Ht') as Hp.
    destruct a.
    + left. rewrite Hp. apply elem_of_app. by left.
    + left. rewrite Hp. apply elem_of_app. by left.
    + rewrite <- Hp in Hin. apply elem_of_app in Hin as [Hin|Hin]; [|by left].
      right. left. by eapply outcome_runs.
    + rewrite <- Hp in Hin. cbn [runs app] in Hin.
      apply elem_of_app in Hin as [Hin|Hin]; [|by left].
      right. right. destruct W as [|W].
      * split; [done|]. eapply drops_outcome; [done| |done].
        by destruct Hinv.
      * rewrite (drops_nil (S W)) in Hin by (done || lia).
        by apply elem_of_nil in Hin.
  - right. left. by eapply outcome_Step.
  - right. right. split; [done|].
    split; [by eapply destroyed_Step|by eapply outcome_Step].
Qed.

Lemma future_steps W acts h (f : callable V) : ∀ p p',
  invariant W p → steps acts p = Some p' →
  Packaged h f ∈ pending p ∨
  outcome h p = Some (ResultChannel.Ready (f tt)) ∨
  (W = 0 ∧ destroyed p = true ∧
   outcome h p = Some (ResultChannel.Ready (Threw BrokenPromise))) →
  Packaged h f ∈ pending p' ∨
  outcome h p' = Some (ResultChannel.Ready (f tt)) ∨
  (W = 0 ∧ destroyed p' = true ∧
   outcome h p' = Some (ResultChannel.Ready (Threw BrokenPromise))).
Proof.
  induction acts as [|a acts IH]; intros p p' Hinv; simpl.
  - by intros [= <-].
  - destruct (step a p) as [p1|] eqn:Hstep; [|done]. intros Hsteps Hh.
    apply step_Step in Hstep.
    apply (IH p1 p'); [by eapply invariant_Step|done|].
    by eapply future_Step.
Qed.

(** The future that [enqueue_task f] returns names a shared state that did
    not exist before, and under every later schedule it holds nothing
    yet, or what [f] returned or threw, or, after the destruction of a
    pool constructed with no thread, [BrokenPromise]: never the outcome
    of another task, and never a second outcome. *)
Theorem future_holds_own_outcome W p (f : callable V) h p1 acts p' :
  reachable W p → terminated p = false →
  enqueue_task f p = (Returned h, p1) → steps acts p1 = Some p' →
  outcome h p = None ∧
  (outcome h p' = Some ResultChannel.Pending ∨
   outcome h p' = Some (ResultChannel.Ready (f tt)) ∨
   (W = 0 ∧ destroyed p' = true ∧
    outcome h p' = Some (ResultChannel.Ready (Threw BrokenPromise)))).
Proof.
  intros Hreach Ht. unfold enqueue_task.
  destruct (stop p) eqn:Hs; [done|]. intros [= <- <-] Hsteps.
  split.
  { unfold outcome. by rewrite lookup_ge_None_2. }
  pose proof (Step_enqueue_task f p Ht Hs) as HS.
  set (p1 := set_tasks _ _) in *.
  assert (Hreach1 : reachable W p1).
  { eapply reachable_step; [done|by apply Step_step]. }
  assert (Hreach' : reachable W p').
  { by eapply reachable_steps. }
  destruct (future_steps W acts (length (shared p)) f p1 p'
              (reachable_invariant _ _ Hreach1) Hsteps)
    as [Hin|[Hready|Hbroken]]; [|left|by right; left|by right; right].
  - left. unfold pending. simpl. rewrite app_assoc.
    apply elem_of_app. right. by left.
  - pose proof (reachable_invariant _ _ Hreach') as [_ _ _ _ Hok].
    destruct (packaged_pending p' _ f Hok Hin) as (c & Hc & Hcell).
    unfold outcome. by rewrite Hc, <- Hcell.
Qed.

(** In a reachable pool a step ends the process only in one way: a worker
    ran a task given to [enqueue] and that task threw.  A packaged task
    is never called a second time. *)
Theorem only_plain_throw_terminates W a p p' :
  reachable W p → step a p = Some p' → terminated p' = true →
  ∃ i (f : callable unit) e,
    a = Worker i ∧ workers p !! i = Some (Executing (Plain f)) ∧
    f tt = Threw e.
Proof.
  intros Hreach Hstep Ht'. apply step_Step in Hstep.
  pose proof (reachable_invariant _ _ Hreach) as [_ _ _ _ Hok].
  destruct Hstep as [f p Ht Hs|f p Ht Hs|f p Ht Hs|f p Ht Hs|i p Ht Hw Hs Hts
                  |i tk rest p Ht Hw Hts|i f u p Ht Hw Hf|i f e p Ht Hw Hf
                  |i h f c p Ht Hw Hc Hcell|i h f c o p Ht Hw Hc Hcell
                  |p Ht Hd|i p Ht Hd Hw|i p Ht Hd Hw]; simpl in Ht'; try congruence.
  - eauto 10.
  - destruct (packaged_pending p h f Hok) as (c' & Hc' & Hcell');
      [by eapply executing_lookup|]. congruence.
Qed.

(** Until the destructor sets [stop], the pool keeps all its workers:
    each of the [numThreads] threads is at its wait or running a task,
    none has left its loop. *)
Theorem workers_stay_until_stop W p i :
  reachable W p → stop p = false → i < W →
  workers p !! i = Some Waiting ∨ ∃ tk, workers p !! i = Some (Executing tk).
Proof.
  intros Hreach Hs Hi.
  pose proof (reachable_invariant _ _ Hreach) as [Hlen _ Hfin _ _].
  destruct (lookup_lt_is_Some_2 (workers p) i) as [w Hw]; [lia|].
  destruct w as [|tk|]; [by left|by right; exists tk|].
  destruct Hfin as [Hs' _]; [by eapply list_elem_of_lookup_2|]. congruence.
Qed.

Lemma idle_init : idle_invariant (@SimpleThreadPool V 0).
Proof.
  split; simpl; try done. intros _. split.
  - intros h Hh. lia.
  - intros h st. by unfold outcome.
Qed.

Lemma not_called p : idle_invariant p → stop p = false → dtor p = NotCalled.
Proof.
  intros [_ Hstop _ _] Hs. destruct (dtor p) as [|i|] eqn:Hd; [done|..];
    rewrite Hstop in Hs; done.
Qed.

Lemma idle_Step a p p1 :
  idle_invariant p → Step a p p1 →
  idle_invariant p1 ∧ runs a p = [] ∧
  (destroyed p1 = false → tasks p1 = tasks p ++ submits a p).
Proof.
  intros Hidle HS. pose proof Hidle as [Hws Hstop Hrun Hdes].
  destruct HS as [f p Ht Hs|f p Ht Hs|f p Ht Hs|f p Ht Hs|i p Ht Hw Hs Hts
                |i tk rest p Ht Hw Hts|i f u p Ht Hw Hf|i f e p Ht Hw Hf
                |i h f c p Ht Hw Hc Hcell|i h f c o p Ht Hw Hc Hcell
                |p Ht Hd|i p Ht Hd Hw|i p Ht Hd Hw];
    try (rewrite Hws in Hw; done).
  - (* [enqueue] on a stopped pool *)
    split; [by split|]. simpl. by rewrite Hs, app_nil_r.
  - (* [enqueue] *)
    pose proof (not_called p Hidle Hs) as Hd.
    destruct Hrun as [Hcov Hout]; [by unfold destroyed; rewrite Hd|].
    split; [split|]; simpl; rewrite ?Hs; try done.
    + intros _. split; [|done]. intros h Hh. rewrite bind_app.
      apply elem_of_app. left. by apply Hcov.
    + unfold destroyed. simpl. by rewrite Hd.
  - (* [enqueue_task] on a stopped pool *)
    split; [by split|]. simpl. by rewrite Hs, app_nil_r.
  - (* [enqueue_task] *)
    pose proof (not_called p Hidle Hs) as Hd.
    destruct Hrun as [Hcov Hout]; [by unfold destroyed; rewrite Hd|].
    split; [split|]; simpl; rewrite ?Hs; try done.
    + intros _. split.
      * intros h. rewrite length_app. simpl. intros Hh. rewrite bind_app.
        apply elem_of_app.
        destruct (decide (h = length (shared p))) as [->|Hne].
        -- right. simpl. by left.
        -- left. apply Hcov. lia.
      * intros h st. unfold outcome. simpl. intros Hh.
        destruct (decide (h < length (shared p))) as [Hlt|Hge].
        -- rewrite lookup_app_l in Hh by done. by eapply Hout.
        -- destruct (decide (h = length (shared p))) as [->|Hne].
           ++ rewrite list_lookup_middle in Hh by done. by injection Hh as <-.
           ++ rewrite lookup_ge_None_2 in Hh; [done|].
              rewrite length_app. simpl. lia.
    + unfold destroyed. simpl. by rewrite Hd.
  - (* the destructor is entered *)
    destruct Hrun as [Hcov Hout]; [by unfold destroyed; rewrite Hd|].
    split; [split|]; simpl; try done. by rewrite app_nil_r.
  - (* the members are destroyed *)
    destruct Hrun as [Hcov Hout]; [by unfold destroyed; rewrite Hd|].
    split; [split|]; simpl; try done.
    + intros _. apply Hstop. by rewrite Hd.
    + intros _. split; [done|]. intros h st.
      rewrite outcome_destroy_members.
      destruct (decide (h ∈ tasks p ≫= handle)) as [Hin|Hnin].
      * destruct (shared p !! h) as [c|] eqn:Hc; [|done]. simpl.
        intros [= <-].
        assert (Hp : ResultChannel.cell c = ResultChannel.Pending).
        { apply (Hout h). unfold outcome. by rewrite Hc. }
        unfold abandon. by rewrite Hp.
      * intros Hh. exfalso. apply Hnin, Hcov. by eapply outcome_lt.
Qed.

Lemma idle_steps acts : ∀ p p',
  idle_invariant p → steps acts p = Some p' →
  idle_invariant p' ∧ history acts p = [] ∧
  (destroyed p' = false → tasks p' = tasks p ++ accepted acts p).
Proof.
  induction acts as [|a acts IH]; intros p p' Hidle; simpl.
  - intros [= <-]. by rewrite app_nil_r.
  - destruct (step a p) as [p1|] eqn:Hstep; [|done]. intros Hsteps.
    apply step_Step in Hstep.
    destruct (idle_Step _ _ _ Hidle Hstep) as (Hidle1 & Hruns & Hts1).
    destruct (IH p1 p' Hidle1 Hsteps) as (Hidle' & Hhist & Hts').
    split; [done|]. split; [by rewrite Hruns, Hhist|].
    intros Hdes. rewrite (Hts' Hdes), Hts1, <- app_assoc; [done|].
    destruct (destroyed p1) eqn:Hdes1; [|done].
    by rewrite (destroyed_steps _ _ _ Hsteps Hdes1) in Hdes.
Qed.

(** A pool constructed with no thread never runs anything.  Under every
    schedule no task has been run; until the pool is destroyed every
    accepted task is still in the queue and every future is still
    pending; once it is destroyed the queue is gone, with the tasks it
    held, and every future holds [BrokenPromise]. *)
Theorem no_worker_nothing_runs acts p' :
  steps acts (SimpleThreadPool 0) = Some p' →
  history acts (SimpleThreadPool 0) = [] ∧
  (destroyed p' = false →
   tasks p' = accepted acts (SimpleThreadPool 0) ∧
   ∀ h st, outcome h p' = Some st → st = ResultChannel.Pending) ∧
  (destroyed p' = true →
   tasks p' = [] ∧
   ∀ h st, outcome h p' = Some st →
           st = ResultChannel.Ready (Threw BrokenPromise)).
Proof.
  intros Hsteps.
  destruct (idle_steps acts _ _ idle_init Hsteps)
    as ([_ _ Hrun Hdes] & Hhist & Hts).
  split; [done|]. split; [|done].
  intros Hnot. split; [by apply Hts|]. by apply Hrun.
Qed.



Lemma worker_weight_bound (ws : list (worker V)) :
  sum_list (worker_weight <$> ws) ≤ 3 * length ws.
Proof.
  induction ws as [|w ws IH]; csimpl; [lia|]. destruct w; simpl; lia.
Qed.

(** The shutdown cannot go on for ever: once [stop] is set, no schedule
    contains more worker and destructor steps than three per queued task
    plus four per worker plus one. *)
Theorem shutdown_steps_bounded W acts p p' :
  reachable W p → stop p = true →
  steps acts p = Some p' → terminated p' = false →
  internal_steps acts ≤ 3 * length (tasks p) + 4 * W + 1.
Proof.
  intros Hreach Hs Hsteps Ht'.
  pose proof (reachable_invariant _ _ Hreach) as [Hlen Hdtor _ _ _].
  pose proof (schedule_bounded _ _ _ Hs Hsteps Ht') as Hb.
  pose proof (worker_weight_bound (workers p)) as Hw.
  assert (Hle : internal_steps acts ≤ weight p) by lia. clear Hb.
  unfold weight, joins_left in Hle.
  destruct (dtor p); [congruence|lia|lia].
Qed.
End more_facts.

Lemma every_task_runs_once_witness :
  ∃ p',
    steps [EnqueueTask (Examples.square 3); Worker 0; Worker 0;
           Enqueue Examples.failing_plain] (SimpleThreadPool 1) = Some p' ∧
    terminated p' = false ∧
    history [EnqueueTask (Examples.square 3); Worker 0; Worker 0;
             Enqueue Examples.failing_plain] (SimpleThreadPool 1)
    ++ dropped [EnqueueTask (Examples.square 3); Worker 0; Worker 0;
                Enqueue Examples.failing_plain] (SimpleThreadPool 1)
    ++ pending p'
    ≡ₚ accepted [EnqueueTask (Examples.square 3); Worker 0; Worker 0;
                 Enqueue Examples.failing_plain] (SimpleThreadPool 1) ∧
    (1 ≤ 1 ∨ destroyed p' = false →
     dropped [EnqueueTask (Examples.square 3); Worker 0; Worker 0;
              Enqueue Examples.failing_plain] (SimpleThreadPool 1) = []).
Proof.
  eexists. split; [reflexivity|]. split; [reflexivity|].
  apply (every_task_runs_once 1); reflexivity.
Defined.

Lemma future_holds_own_outcome_witness :
  ∃ p',
    steps [Worker 0; Worker 0] Examples.one_task = Some p' ∧
    outcome 0 (SimpleThreadPool (V:=nat) 1) = None ∧
    (outcome 0 p' = Some ResultChannel.Pending ∨
     outcome 0 p' = Some (ResultChannel.Ready (Examples.square 3 tt)) ∨
     (1 = 0 ∧ destroyed p' = true ∧
      outcome 0 p' = Some (ResultChannel.Ready (Threw BrokenPromise)))).
Proof.
  eexists. split; [reflexivity|].
  apply (future_holds_own_outcome 1 (SimpleThreadPool 1) (Examples.square 3)
           0 Examples.one_task [Worker 0; Worker 0]);
    [apply reachable_init|reflexivity..].
Defined.

Lemma only_plain_throw_terminates_witness :
  ∃ p : t nat,
    steps [Enqueue Examples.failing_plain; Worker 0] (SimpleThreadPool 1)
    = Some p ∧
    ∃ i (f : callable unit) e,
      Worker (V:=nat) 0 = Worker i ∧
      workers p !! i = Some (Executing (Plain f)) ∧ f tt = Threw e.
Proof.
  eexists. split; [reflexivity|].
  eapply (only_plain_throw_terminates 1 (Worker 0)); [|reflexivity..].
  apply (reachable_steps 1 [Enqueue Examples.failing_plain; Worker 0]
           (SimpleThreadPool 1)); [apply reachable_init|reflexivity].
Defined.

Lemma workers_stay_until_stop_witness :
  workers Examples.one_task !! 0 = Some Waiting ∨
  ∃ tk, workers Examples.one_task !! 0 = Some (Executing tk).
Proof.
  apply (workers_stay_until_stop 1 Examples.one_task 0); [|reflexivity|lia].
  apply (reachable_steps 1 [EnqueueTask (Examples.square 3)]
           (SimpleThreadPool 1)); [apply reachable_init|reflexivity].
Defined.

Lemma no_worker_nothing_runs_witness :
  ∃ p',
    steps [EnqueueTask (Examples.square 3); Destructor; Destructor]
      (SimpleThreadPool 0) = Some p' ∧
    history [EnqueueTask (Examples.square 3); Destructor; Destructor]
      (SimpleThreadPool 0) = [] ∧
    (destroyed p' = false →
     tasks p'
     = accepted [EnqueueTask (Examples.square 3); Destructor; Destructor]
         (SimpleThreadPool 0) ∧
     ∀ h st, outcome h p' = Some st → st = ResultChannel.Pending) ∧
    (destroyed p' = true →
     tasks p' = [] ∧
     ∀ h st, outcome h p' = Some st →
             st = ResultChannel.Ready (Threw BrokenPromise)).
Proof.
  eexists. split; [reflexivity|].
  apply (no_worker_nothing_runs
           [EnqueueTask (Examples.square 3); Destructor; Destructor]).
  reflexivity.
Defined.


Lemma shutdown_steps_bounded_witness :
  internal_steps (V:=nat) [Worker 0; Worker 0; Worker 0; Destructor]
  ≤ 3 * length (tasks Examples.one_task_stopping) + 4 * 1 + 1.
Proof.
  eapply (shutdown_steps_bounded 1 _ Examples.one_task_stopping);
    [|reflexivity..].
  apply (reachable_steps 1 [EnqueueTask (Examples.square 3); Destructor]
           (SimpleThreadPool 1)); [apply reachable_init|reflexivity].
Defined.
End PoolFacts.

(** * Properties of the vector addition *)

Module VectorFacts.
Import VectorAdd.
Section facts.
Context {F : Type} (fadd : F → F → F).
Implicit Types (a b c : list F).

Lemma length_summed a b c lo hi : length (summed fadd a b c lo hi) = length c.
Proof. unfold summed. apply length_imap. Qed.

Lemma summed_lookup_in a b c lo hi j x y :
  lo ≤ j < hi → j < length c → a !! j = Some x → b !! j = Some y →
  summed fadd a b c lo hi !! j = Some (fadd x y).
Proof.
  intros Hj Hlt Ha Hb. unfold summed. rewrite list_lookup_imap.
  destruct (lookup_lt_is_Some_2 c j Hlt) as [z ->]. simpl.
  rewrite decide_True by done. by rewrite Ha, Hb.
Qed.

Lemma summed_lookup_out a b c lo hi j :
  ¬ lo ≤ j < hi → summed fadd a b c lo hi !! j = c !! j.
Proof.
  intros Hj. unfold summed. rewrite list_lookup_imap.
  destruct (c !! j); simpl; [|done]. by rewrite decide_False.
Qed.

Lemma summed_none a b c lo : summed fadd a b c lo lo = c.
Proof.
  apply list_eq. intros j. apply summed_lookup_out. lia.
Qed.

(** One more element summed. *)
Lemma summed_insert a b c lo i x y :
  lo ≤ i → a !! i = Some x → b !! i = Some y →
  <[i:=fadd x y]> (summed fadd a b c lo i) = summed fadd a b c lo (S i).
Proof.
  intros Hlo Ha Hb. apply list_eq. intros j.
  destruct (decide (j = i)) as [->|Hne].
  - destruct (decide (i < length c)) as [Hlt|Hge].
    + rewrite list_lookup_insert_eq by (by rewrite length_summed).
      symmetry. apply summed_lookup_in; [lia|done..].
    + rewrite !lookup_ge_None_2; [done|..];
        rewrite ?length_insert, length_summed; lia.
  - rewrite list_lookup_insert_ne by done.
    destruct (decide (lo ≤ j < i)) as [Hj|Hj].
    + destruct (c !! j) as [z|] eqn:Hc.
      * unfold summed. rewrite !list_lookup_imap, Hc. simpl.
        rewrite !decide_True by lia. done.
      * unfold summed. by rewrite !list_lookup_imap, Hc.
    + rewrite !summed_lookup_out by lia. done.
Qed.

Lemma add_at_summed a b c lo i :
  lo ≤ i → i < length a → i < length b → i < length c →
  add_at fadd a b (summed fadd a b c lo i) i
  = Some (summed fadd a b c lo (S i)).
Proof.
  intros Hlo Ha Hb Hc. unfold add_at.
  destruct (lookup_lt_is_Some_2 a i Ha) as [x Hx].
  destruct (lookup_lt_is_Some_2 b i Hb) as [y Hy].
  rewrite Hx, Hy. simpl. rewrite decide_True by (by rewrite length_summed).
  by rewrite summed_insert.
Qed.

Lemma scalar_loop_summed a b c size lo fuel : ∀ i,
  lo ≤ i → i ≤ size → size - i ≤ fuel →
  size ≤ length a → size ≤ length b → size ≤ length c →
  scalar_loop fadd fuel a b (summed fadd a b c lo i) size i
  = Some (summed fadd a b c lo size).
Proof.
  induction fuel as [|fuel IH]; intros i Hlo Hi Hfuel Ha Hb Hc; simpl.
  - rewrite decide_False by lia. by replace i with size by lia.
  - destruct (decide (i < size)) as [Hlt|Hge].
    + rewrite add_at_summed by lia. simpl. apply IH; lia.
    + by replace i with size by lia.
Qed.

Lemma chunk_summed a b c i size :
  i `mod` 4 = 0 → i + 4 ≤ size →
  size ≤ length a → size ≤ length b → size ≤ length c →
  ∃ vec_a vec_b,
    _mm_load_ps a i = Some vec_a ∧ _mm_load_ps b i = Some vec_b ∧
    _mm_store_ps (summed fadd a b c 0 i) i (_mm_add_ps fadd vec_a vec_b)
    = Some (summed fadd a b c 0 (i + 4)).
Proof.
  intros Hmod Hi Ha Hb Hc.
  destruct (lookup_lt_is_Some_2 a i) as [x0 Hx0]; [lia|].
  destruct (lookup_lt_is_Some_2 a (i + 1)) as [x1 Hx1]; [lia|].
  destruct (lookup_lt_is_Some_2 a (i + 2)) as [x2 Hx2]; [lia|].
  destruct (lookup_lt_is_Some_2 a (i + 3)) as [x3 Hx3]; [lia|].
  destruct (lookup_lt_is_Some_2 b i) as [y0 Hy0]; [lia|].
  destruct (lookup_lt_is_Some_2 b (i + 1)) as [y1 Hy1]; [lia|].
  destruct (lookup_lt_is_Some_2 b (i + 2)) as [y2 Hy2]; [lia|].
  destruct (lookup_lt_is_Some_2 b (i + 3)) as [y3 Hy3]; [lia|].
  exists (M128 x0 x1 x2 x3), (M128 y0 y1 y2 y3).
  unfold _mm_load_ps, _mm_store_ps, _mm_add_ps.
  rewrite !(decide_True (P:=i `mod` 4 = 0)) by done.
  rewrite decide_True by (split; [done|rewrite length_summed; lia]).
  rewrite Hx0, Hx1, Hx2, Hx3, Hy0, Hy1, Hy2, Hy3.
  split; [done|]. split; [done|]. cbn [lane0 lane1 lane2 lane3]. f_equal.
  rewrite (summed_insert a b c 0 i) by (done || lia).
  replace (S i) with (i + 1) by lia.
  rewrite (summed_insert a b c 0 (i + 1)) by (done || lia).
  replace (S (i + 1)) with (i + 2) by lia.
  rewrite (summed_insert a b c 0 (i + 2)) by (done || lia).
  replace (S (i + 2)) with (i + 3) by lia.
  rewrite (summed_insert a b c 0 (i + 3)) by (done || lia).
  by replace (S (i + 3)) with (i + 4) by lia.
Qed.

Lemma simd_loop_summed a b c size fuel : ∀ i,
  i `mod` 4 = 0 → i ≤ size → size - i ≤ 4 * fuel →
  size ≤ length a → size ≤ length b → size ≤ length c →
  ∃ i', simd_loop fadd fuel a b (summed fadd a b c 0 i) size i
        = Some (i', summed fadd a b c 0 i') ∧ i' ≤ size.
Proof.
  induction fuel as [|fuel IH]; intros i Hmod Hi Hfuel Ha Hb Hc;
    cbn [simd_loop].
  - rewrite decide_False by lia. eauto.
  - destruct (decide (i + 4 ≤ size)) as [Hle|Hgt]; [|eauto].
    destruct (chunk_summed a b c i size) as (va & vb & Hva & Hvb & Hst);
      try done.
    rewrite Hva. cbn [mbind option_bind]. rewrite Hvb.
    cbn [mbind option_bind]. rewrite Hst. cbn [mbind option_bind].
    apply IH; try lia.
    rewrite <- (Nat.Div0.mod_add i 1 4) in Hmod. by rewrite Nat.mul_1_l in Hmod.
Qed.

(** [add_vectors_normal] neither reads nor writes outside arrays that
    hold at least [size] elements; afterwards each of the first [size]
    elements of [c] is the sum of the elements of [a] and [b] at its
    index, and the rest of [c] is as before. *)
Theorem add_vectors_normal_sums a b c size :
  size ≤ length a → size ≤ length b → size ≤ length c →
  ∃ r, add_vectors_normal fadd a b c size = Some r ∧
       length r = length c ∧
       (∀ j x y, j < size → a !! j = Some x → b !! j = Some y →
                 r !! j = Some (fadd x y)) ∧
       (∀ j, size ≤ j → r !! j = c !! j).
Proof.
  intros Ha Hb Hc. exists (summed fadd a b c 0 size).
  unfold add_vectors_normal.
  rewrite <- (summed_none a b c 0) at 1.
  rewrite scalar_loop_summed by lia.
  split; [done|]. split; [apply length_summed|]. split.
  - intros j x y Hj Hx Hy. apply summed_lookup_in; (done || lia).
  - intros j Hj. apply summed_lookup_out. lia.
Qed.

(** For every [size], also one that is not a multiple of 4 or is below
    4, [add_vectors_simd] computes exactly the array that
    [add_vectors_normal] computes, with no access that is misaligned or
    outside the arrays: the check at the end of [main] cannot find a
    mismatch. *)
Theorem add_vectors_simd_agrees a b c size :
  size ≤ length a → size ≤ length b → size ≤ length c →
  ∃ r, add_vectors_simd fadd a b c size = Some r ∧
       add_vectors_normal fadd a b c size = Some r.
Proof.
  intros Ha Hb Hc. exists (summed fadd a b c 0 size). split.
  - unfold add_vectors_simd.
    destruct (simd_loop_summed a b c size size 0) as (i' & Hloop & Hi');
      try (done || lia).
    rewrite summed_none in Hloop. rewrite Hloop. simpl.
    apply scalar_loop_summed; lia.
  - unfold add_vectors_normal.
    rewrite <- (summed_none a b c 0) at 1.
    apply scalar_loop_summed; lia.
Qed.
End facts.

Section memalign_facts.
Context (w k0 : nat) (EINVAL ENOMEM : Z).
Context (_aligned_malloc : Z → Z → Z → Z * Z).
Local Open Scope Z_scope.

Lemma wrap_pow_small (j : nat) :
  (j < w)%nat → wrap w (2 ^ Z.of_nat j) = 2 ^ Z.of_nat j.
Proof.
  intros Hj. unfold wrap. apply Z.mod_small. split; [lia|].
  apply Z.pow_lt_mono_r; lia.
Qed.

Lemma wrap_pow_w : wrap w (2 ^ Z.of_nat w) = 0.
Proof. unfold wrap. apply Z_mod_same_full. Qed.

Lemma pow_double (j : nat) : 2 ^ Z.of_nat j * 2 = 2 ^ Z.of_nat (S j).
Proof. rewrite Nat2Z.inj_succ, Z.pow_succ_r by lia. lia. Qed.

(** The loop entered with [i] the [j]-th power of two, reduced as
    [size_t] is. *)
Lemma check_align_loop_spec align (d : nat) : ∀ (j fuel : nat),
  (j + d = w)%nat → (d ≤ fuel)%nat →
  ∃ r, check_align_loop w EINVAL fuel align (wrap w (2 ^ Z.of_nat j)) = Some r ∧
       (r = 0 ∨ r = EINVAL) ∧
       ((∃ k : nat, (j ≤ k < w)%nat ∧ align = 2 ^ Z.of_nat k) → r = 0) ∧
       (r = 0 → EINVAL ≠ 0 →
        ∃ k : nat, (j ≤ k < w)%nat ∧ align = 2 ^ Z.of_nat k).
Proof.
  induction d as [|d IH]; intros j fuel Hj Hfuel.
  - replace j with w by lia. rewrite wrap_pow_w.
    exists EINVAL. destruct fuel; simpl; (split; [done|]);
      (split; [by right|]); (split; [intros (k & ? & _); lia|done]).
  - rewrite wrap_pow_small by lia.
    assert (Hpos : 0 < 2 ^ Z.of_nat j) by (apply Z.pow_pos_nonneg; lia).
    destruct fuel as [|fuel]; [lia|]. simpl.
    destruct (2 ^ Z.of_nat j =? 0) eqn:Hz; [apply Z.eqb_eq in Hz; lia|].
    destruct (align =? 2 ^ Z.of_nat j) eqn:Heq.
    + apply Z.eqb_eq in Heq. exists 0. split; [done|]. split; [by left|].
      split; [done|]. intros _ _. exists j. split; [lia|done].
    + apply Z.eqb_neq in Heq. rewrite pow_double.
      destruct (IH (S j) fuel) as (r & Hloop & Hr & Hyes & Hno); [lia..|].
      exists r. split; [done|]. split; [done|]. split.
      * intros (k & Hk & Hal). apply Hyes.
        destruct (decide (k = j)) as [->|Hne]; [done|].
        exists k. split; [lia|done].
      * intros Hr0 HE. destruct (Hno Hr0 HE) as (k & Hk & Hal).
        exists k. split; [lia|done].
Qed.

(** [check_align] ends within [w] iterations, [i] wrapping to 0 after
    the highest power of two.  It returns 0 exactly for the powers of
    two from [sizeof(void * )] up to the highest one [size_t] holds, and
    [EINVAL] for every other value, 0 included. *)
Theorem check_align_powers_of_two align :
  (k0 < w)%nat → EINVAL ≠ 0 →
  ∃ r, check_align w k0 EINVAL align = Some r ∧
       (r = 0 ∨ r = EINVAL) ∧
       (r = 0 ↔ ∃ k : nat, (k0 ≤ k < w)%nat ∧ align = 2 ^ Z.of_nat k).
Proof.
  intros Hk HE. unfold check_align.
  rewrite <- (wrap_pow_small k0) by done.
  destruct (check_align_loop_spec align (w - k0) k0 w)
    as (r & Hloop & Hr & Hyes & Hno); [lia..|].
  exists r. split; [done|]. split; [done|]. split; [|done].
  intros Hr0. by apply Hno.
Qed.

Lemma check_align_16 :
  (k0 ≤ 4 < w)%nat → EINVAL ≠ 0 → check_align w k0 EINVAL 16 = Some 0.
Proof.
  intros Hk HE. unfold check_align.
  rewrite <- (wrap_pow_small k0) by lia.
  destruct (check_align_loop_spec 16 (w - k0) k0 w)
    as (r & -> & _ & Hyes & _); [lia..|].
  f_equal. apply Hyes. exists 4%nat. split; [lia|done].
Qed.

(** [posix_memalign] returns 0 exactly when the alignment is one of those
    powers of two and [_aligned_malloc] returned a pointer, which is then
    stored in [*ptr]; in both failure cases [*ptr] is left alone and
    [errno] is what it was before the call. *)
Theorem posix_memalign_result (m : memory) align size :
  (k0 < w)%nat → EINVAL ≠ 0 → ENOMEM ≠ 0 →
  ∃ r m',
    posix_memalign w k0 EINVAL ENOMEM _aligned_malloc m align size
    = Some (r, m') ∧
    (r = 0 ↔ (∃ k : nat, (k0 ≤ k < w)%nat ∧ align = 2 ^ Z.of_nat k) ∧
             (_aligned_malloc size align (errno m)).1 ≠ 0) ∧
    (r = 0 → ptr m' = (_aligned_malloc size align (errno m)).1) ∧
    (r ≠ 0 → (r = EINVAL ∨ r = ENOMEM) ∧ ptr m' = ptr m ∧ errno m' = errno m).
Proof.
  intros Hk HE HM. unfold posix_memalign, check_align.
  rewrite <- (wrap_pow_small k0) by lia.
  destruct (check_align_loop_spec align (w - k0) k0 w)
    as (r & -> & Hr & Hyes & Hno); [lia..|]. simpl.
  destruct (r =? 0) eqn:Hr0.
  - apply Z.eqb_eq in Hr0.
    destruct (_aligned_malloc size align (errno m)) as [p e]. simpl.
    destruct (p =? 0) eqn:Hp.
    + apply Z.eqb_eq in Hp. eexists _, _. split; [done|]. simpl.
      split; [split; [done|by intros [_ ?]]|]. split; [done|].
      intros _. split; [by right|done].
    + apply Z.eqb_neq in Hp. eexists _, _. split; [done|]. simpl.
      split; [split; [intros _; split; [by apply Hno|done]|done]|].
      split; [done|]. done.
  - apply Z.eqb_neq in Hr0. destruct Hr as [?| ->]; [done|].
    eexists _, _. split; [done|]. split.
    + split; [done|]. intros [Hex _]. by specialize (Hyes Hex).
    + split; [done|]. intros _. split; [by left|done].
Qed.

(** [aligned_allocate] is never refused for its alignment: it throws
    [std::bad_alloc] exactly when [_aligned_malloc] returns [NULL], and
    otherwise returns the pointer [_aligned_malloc] returned.  The byte
    count it asks for is [size * 4] reduced as [size_t] is. *)
Theorem aligned_allocate_result (m : memory) size :
  (k0 ≤ 4 < w)%nat → EINVAL ≠ 0 → ENOMEM ≠ 0 →
  ∃ m',
    aligned_allocate w k0 EINVAL ENOMEM _aligned_malloc m size
    = Some (if ((_aligned_malloc (wrap w (size * 4)) 16 (errno m)).1 =? 0)
            then bad_alloc
            else Allocated (_aligned_malloc (wrap w (size * 4)) 16 (errno m)).1,
            m').
Proof.
  intros Hk HE HM. unfold aligned_allocate, posix_memalign.
  rewrite check_align_16 by done. simpl.
  destruct (_aligned_malloc (wrap w (size * 4)) 16 (errno m)) as [p e]. simpl.
  destruct (p =? 0) eqn:Hp; simpl.
  - destruct (ENOMEM =? 0) eqn:HM0; [apply Z.eqb_eq in HM0; done|].
    simpl. eauto.
  - eauto.
Qed.
End memalign_facts.

Lemma add_vectors_normal_sums_witness :
  ∃ r, add_vectors_normal Z.add [1; 2; 3]%Z [10; 20; 30]%Z [0; 0; 0; 7]%Z 3
       = Some r ∧
       length r = length [0; 0; 0; 7]%Z ∧
       (∀ j x y, j < 3 → [1; 2; 3]%Z !! j = Some x →
                 [10; 20; 30]%Z !! j = Some y → r !! j = Some (x + y)%Z) ∧
       (∀ j, 3 ≤ j → r !! j = [0; 0; 0; 7]%Z !! j).
Proof.
  apply (add_vectors_normal_sums Z.add [1; 2; 3]%Z [10; 20; 30]%Z
           [0; 0; 0; 7]%Z 3); simpl; lia.
Defined.

Lemma add_vectors_simd_agrees_witness :
  ∃ r, add_vectors_simd Z.add [1; 2; 3; 4; 5; 6]%Z [10; 20; 30; 40; 50; 60]%Z
         [0; 0; 0; 0; 0; 0]%Z 6 = Some r ∧
       add_vectors_normal Z.add [1; 2; 3; 4; 5; 6]%Z
         [10; 20; 30; 40; 50; 60]%Z [0; 0; 0; 0; 0; 0]%Z 6 = Some r.
Proof.
  apply (add_vectors_simd_agrees Z.add [1; 2; 3; 4; 5; 6]%Z
           [10; 20; 30; 40; 50; 60]%Z [0; 0; 0; 0; 0; 0]%Z 6); simpl; lia.
Defined.

Lemma check_align_powers_of_two_witness :
  ∃ r, check_align 64 3 22 64 = Some r ∧
       (r = 0 ∨ r = 22)%Z ∧
       (r = 0%Z ↔ ∃ k : nat, 3 ≤ k < 64 ∧ 64%Z = (2 ^ Z.of_nat k)%Z).
Proof. apply (check_align_powers_of_two 64 3 22 64); [lia|done]. Defined.

Lemma posix_memalign_result_witness :
  ∃ r m',
    posix_memalign 64 3 22 12 (λ _ _ e, (4096%Z, e)) (Memory 0 0) 16 40
    = Some (r, m') ∧
    (r = 0%Z ↔ (∃ k : nat, 3 ≤ k < 64 ∧ 16%Z = (2 ^ Z.of_nat k)%Z) ∧
               (4096%Z, errno (Memory 0 0)).1 ≠ 0%Z) ∧
    (r = 0%Z → ptr m' = (4096%Z, errno (Memory 0 0)).1) ∧
    (r ≠ 0%Z → (r = 22%Z ∨ r = 12%Z) ∧
               ptr m' = ptr (Memory 0 0) ∧ errno m' = errno (Memory 0 0)).
Proof.
  apply (posix_memalign_result 64 3 22 12 (λ _ _ e, (4096%Z, e))
           (Memory 0 0) 16 40); [lia|done|done].
Defined.

Lemma aligned_allocate_result_witness :
  ∃ m',
    aligned_allocate 64 3 22 12 (λ _ _ e, (4096%Z, e)) (Memory 0 0) 10
    = Some (if ((4096%Z, errno (Memory 0 0)).1 =? 0)%Z
            then bad_alloc
            else Allocated (4096%Z, errno (Memory 0 0)).1,
            m').
Proof.
  apply (aligned_allocate_result 64 3 22 12 (λ _ _ e, (4096%Z, e))
           (Memory 0 0) 10); [lia|done|done].
Defined.
End VectorFacts.

(** * Properties of the producer/consumer program *)

Module ProgramFacts.
Import ThreadSafeQueue ProducerConsumer.
Section facts.
Context (rounds : nat).
Implicit Types (s : system) (ps : list nat) (cs : list consumer_state).

Lemma split_at {A} (l : list A) i x x' :
  l !! i = Some x →
  ∃ l1 l2, l = l1 ++ x :: l2 ∧ <[i:=x']> l = l1 ++ x' :: l2 ∧ length l1 = i.
Proof.
  intros Hi. exists (take i l), (drop (S i) l).
  pose proof (lookup_lt_Some _ _ _ Hi) as Hlt. split; [|split].
  - by rewrite take_drop_middle.
  - by apply insert_take_drop.
  - rewrite length_take. lia.
Qed.

Lemma pushed_by_S k i : pushed_by k (S i) = pushed_by k i ++ [task_of (S k) i].
Proof. unfold pushed_by. by rewrite seq_S, fmap_app. Qed.

Lemma pushed_insert ps k i :
  ps !! k = Some i →
  mjoin (imap pushed_by (<[k:=S i]> ps))
  ≡ₚ mjoin (imap pushed_by ps) ++ [task_of (S k) i].
Proof.
  intros Hk. destruct (split_at ps k i (S i) Hk) as (l1 & l2 & -> & -> & Hlen).
  rewrite !imap_app, !imap_cons, !join_app. cbn [mjoin list_join].
  rewrite Hlen, Nat.add_0_r, pushed_by_S. solve_Permutation.
Qed.

Lemma processed_insert cs j c task b :
  cs !! j = Some c →
  <[j:=Consumer (processed c ++ [task]) b]> cs ≫= processed
  ≡ₚ (cs ≫= processed) ++ [task].
Proof.
  intros Hj. destruct (split_at cs j c (Consumer (processed c ++ [task]) b) Hj)
    as (l1 & l2 & -> & -> & _).
  rewrite !bind_app, !bind_cons. simpl. solve_Permutation.
Qed.

Lemma processed_insert_same cs j c b :
  cs !! j = Some c →
  <[j:=Consumer (processed c) b]> cs ≫= processed = cs ≫= processed.
Proof.
  intros Hj. destruct (split_at cs j c (Consumer (processed c) b) Hj)
    as (l1 & l2 & -> & -> & _).
  by rewrite !bind_app, !bind_cons.
Qed.

Lemma remaining_insert ps k i :
  ps !! k = Some i → i < rounds →
  sum_list ((λ i, rounds - i) <$> <[k:=S i]> ps) + 1
  = sum_list ((λ i, rounds - i) <$> ps).
Proof.
  intros Hk Hi. destruct (split_at ps k i (S i) Hk) as (l1 & l2 & -> & -> & _).
  rewrite !fmap_app, !fmap_cons, !sum_list_with_app. simpl. lia.
Qed.

Lemma in_loop_insert cs j c c' :
  cs !! j = Some c → left_loop c = false →
  length (filter (λ c, left_loop c = false) (<[j:=c']> cs))
  + (if left_loop c' then 1 else 0)
  = length (filter (λ c, left_loop c = false) cs).
Proof.
  intros Hj Hc. destruct (split_at cs j c c' Hj) as (l1 & l2 & -> & -> & _).
  rewrite !filter_app, !filter_cons, !length_app.
  rewrite (decide_True (P:=left_loop c = false)) by done.
  destruct (left_loop c') eqn:Hc'.
  - rewrite decide_False by congruence. simpl. lia.
  - rewrite decide_True by done. simpl. lia.
Qed.

Lemma elem_of_insert_inv {A} (l : list A) i x y :
  y ∈ <[i:=x]> l → y = x ∨ y ∈ l.
Proof.
  destruct (l !! i) as [z|] eqn:Hi.
  - destruct (split_at l i z x Hi) as (l1 & l2 & -> & -> & _).
    rewrite !elem_of_app, !elem_of_cons. intros [?|[?|?]]; auto.
  - rewrite list_insert_ge; [auto|]. by apply lookup_ge_None.
Qed.

(** ** The steps, case by case *)

Lemma push_done item (t0 : ThreadSafeQueue.t Z) u t1 :
  push item t0 = Done (u, t1) →
  (finished t0 = true ∧ t1 = t0) ∨
  (finished t0 = false ∧ length (q t0) < max_size t0 ∧
   t1 = mk (q t0 ++ [item]) (max_size t0) false).
Proof.
  destruct (finished t0) eqn:Hf.
  - rewrite QueueFacts.push_closed by done. intros [= <- <-]. by left.
  - intros Hp. right. split; [done|].
    by apply (QueueFacts.push_done_open item t0 u t1).
Qed.

Lemma pop_done (t0 : ThreadSafeQueue.t Z) o t1 :
  pop t0 = Done (o, t1) →
  (o = None ∧ t1 = t0 ∧ q t0 = [] ∧ finished t0 = true) ∨
  (∃ task, o = Some task ∧ q t0 = task :: q t1 ∧
           finished t1 = finished t0 ∧ max_size t1 = max_size t0).
Proof.
  unfold pop, consumer_may_proceed.
  destruct (q t0) as [|task rest] eqn:Hq, (finished t0) eqn:Hf; simpl;
    try done; intros [= <- <-]; simpl; eauto 10.
Qed.

Lemma produce_inv k s s' :
  produce rounds k s = Some s' →
  ∃ i t1, producers s !! k = Some i ∧ i < rounds ∧
          push (task_of (S k) i) (task_queue s) = Done (tt, t1) ∧
          s' = System t1 (<[k:=S i]> (producers s)) (consumers s) (main s).
Proof.
  unfold produce. destruct (producers s !! k) as [i|]; simpl; [|done].
  destruct (decide (i < rounds)) as [Hi|]; [|done].
  destruct (push _ _) as [|[[] t1]] eqn:Hp; [done|].
  intros [= <-]. eauto 10.
Qed.

Lemma consume_inv j s s' :
  consume j s = Some s' →
  ∃ c o t1, consumers s !! j = Some c ∧ left_loop c = false ∧
            pop (task_queue s) = Done (o, t1) ∧
            s' = System t1 (producers s)
                   (<[j:=match o with
                         | Some task => Consumer (processed c ++ [task]) false
                         | None => Consumer (processed c) true
                         end]> (consumers s)) (main s).
Proof.
  unfold consume. destruct (consumers s !! j) as [c|]; simpl; [|done].
  destruct (left_loop c) eqn:Hc; [done|].
  destruct (pop _) as [|[[task|] t1]] eqn:Hp; [done|..];
    intros [= <-]; eauto 10.
Qed.

(** ** The invariant *)

Lemma invariant_start P C N : invariant rounds P C N (start P C N).
Proof.
  split; simpl.
  - apply length_replicate.
  - apply length_replicate.
  - apply Forall_replicate. lia.
  - split; [done|lia].
  - split; [done|]. intros k' Hk'. lia.
  - intros (c & Hc%elem_of_replicate_inv & Hleft). by subst.
  - unfold processed_so_far, pushed_so_far. simpl. rewrite app_nil_r.
    assert (H1 : replicate C (Consumer [] false) ≫= processed = []).
    { induction C as [|C IH]; simpl; done. }
    assert (H2 : ∀ f : nat → nat → list Z,
              (∀ k, f k 0 = []) → mjoin (imap f (replicate P 0)) = []).
    { induction P as [|P' IH]; intros f Hf; simpl; [done|].
      rewrite Hf. simpl. apply IH. intros k. apply Hf. }
    rewrite H1. by rewrite H2.
Qed.

Lemma not_producing P s k i :
  producers s = replicate P rounds → producers s !! k = Some i →
  ¬ i < rounds.
Proof.
  intros -> [-> _]%lookup_replicate. lia.
Qed.

Lemma invariant_step P C N a s s' :
  invariant rounds P C N s → step rounds a s = Some s' →
  invariant rounds P C N s'.
Proof.
  intros [Hps Hcs Hrounds [Hmax Hlen] Hmain Hleft Htasks] Hstep.
  destruct a as [k|j|]; simpl in Hstep.
  - (* a producer pushes *)
    apply produce_inv in Hstep as (i & t1 & Hk & Hi & Hpush & ->).
    assert (Hopen : finished (task_queue s) = false).
    { destruct (main s); destruct Hmain as (Hf & Hall); [done|..];
        destruct Hall as [Hall _]; by destruct (not_producing P s k i). }
    destruct (push_done _ _ _ _ Hpush) as [[Hf _]|(_ & Hlt & ->)];
      [congruence|].
    split; simpl.
    + by rewrite length_insert.
    + done.
    + apply Forall_insert; [done|lia].
    + rewrite length_app. simpl. split; [done|lia].
    + destruct (main s); destruct Hmain as (Hf & Hall); [|congruence..].
      split; [done|]. intros k' Hk'. rewrite list_lookup_insert_ne; [auto|].
      intros ->. rewrite (Hall k' Hk') in Hk. injection Hk as <-. lia.
    + intros Hex. destruct (Hleft Hex). congruence.
    + unfold processed_so_far, pushed_so_far in *. simpl.
      rewrite pushed_insert by done. by rewrite app_assoc, Htasks.
  - (* a consumer pops *)
    apply consume_inv in Hstep as (c & o & t1 & Hj & Hc & Hpop & ->).
    destruct (pop_done _ _ _ Hpop)
      as [(-> & -> & Hq & Hf)|(task & -> & Hq & Hf & Hmax')].
    + (* the sentinel: the consumer leaves its loop *)
      split; simpl; try done.
      * by rewrite length_insert.
      * destruct (main s); destruct Hmain as (Hf' & Hall); [congruence|..].
        -- destruct Hall as [Hall Hjoined]. split; [done|]. split; [done|].
           intros j' Hj'. destruct (decide (j' = j)) as [->|Hne].
           ++ rewrite list_lookup_insert_eq; [done|by eapply lookup_lt_Some].
           ++ rewrite list_lookup_insert_ne by done. auto.
        -- destruct Hall as [Hall Hjoined]. split; [done|]. split; [done|].
           intros j' Hj'. destruct (decide (j' = j)) as [->|Hne].
           ++ rewrite list_lookup_insert_eq; [done|by eapply lookup_lt_Some].
           ++ rewrite list_lookup_insert_ne by done. auto.
      * unfold processed_so_far in *. simpl.
        by rewrite (processed_insert_same _ _ _ _ Hj).
    + (* a task: the consumer processes it *)
      assert (Hnone : ¬ ∃ c', c' ∈ consumers s ∧ left_loop c' = true).
      { intros Hex. destruct (Hleft Hex) as [_ Hnil]. congruence. }
      split; simpl.
      * done.
      * by rewrite length_insert.
      * done.
      * rewrite Hmax'. split; [done|]. rewrite Hq in Hlen. simpl in Hlen. lia.
      * rewrite Hf.
        destruct (main s); destruct Hmain as (Hf' & Hall).
        -- done.
        -- destruct Hall as [Hall Hjoined]. split; [done|]. split; [done|].
           intros j' Hj'. rewrite list_lookup_insert_ne; [auto|].
           intros ->. specialize (Hjoined j' Hj'). rewrite Hj in Hjoined.
           simpl in Hjoined. congruence.
        -- destruct Hall as [Hall Hjoined]. exfalso.
           apply lookup_lt_Some in Hj as Hlt. rewrite Hcs in Hlt.
           specialize (Hjoined j Hlt). rewrite Hj in Hjoined.
           simpl in Hjoined. congruence.
      * intros (c' & [->|Hin]%elem_of_insert_inv & Hc'); [done|].
        destruct Hnone. eauto.
      * unfold processed_so_far in *. simpl.
        rewrite (processed_insert _ _ _ _ _ Hj). rewrite <- Htasks, Hq.
        solve_Permutation.
  - (* main *)
    unfold main_step in Hstep. destruct (main s) as [k|j|] eqn:Hpc; [| |done].
    + destruct Hmain as (Hf & Hall).
      destruct (producers s !! k) as [i|] eqn:Hk.
      * destruct (decide (i < rounds)) as [|Hge]; [done|].
        injection Hstep as <-. split; simpl; try done.
        split; [done|]. intros k' Hk'.
        destruct (decide (k' = k)) as [->|Hne]; [|apply Hall; lia].
        rewrite Hk. f_equal.
        pose proof (proj1 (Forall_lookup _ _) Hrounds k i Hk). simpl in *. lia.
      * injection Hstep as <-. apply lookup_ge_None in Hk.
        split; simpl; try done.
        -- split; [done|]. split; [|intros j' Hj'; lia].
           apply list_eq. intros k'.
           destruct (decide (k' < P)) as [Hlt|Hge].
           ++ rewrite Hall by lia. symmetry. by apply lookup_replicate_2.
           ++ rewrite !lookup_ge_None_2; [done|..];
                rewrite ?length_replicate; lia.
        -- intros Hex. destruct (Hleft Hex). congruence.
    + destruct Hmain as (Hf & Hall & Hjoined).
      destruct (consumers s !! j) as [c|] eqn:Hj.
      * destruct (left_loop c) eqn:Hc; [|done].
        injection Hstep as <-. split; simpl; try done.
        split; [done|]. split; [done|]. intros j' Hj'.
        destruct (decide (j' = j)) as [->|Hne]; [|apply Hjoined; lia].
        by rewrite Hj; simpl; rewrite Hc.
      * injection Hstep as <-. apply lookup_ge_None in Hj.
        split; simpl; try done.
        split; [done|]. split; [done|]. intros j' Hj'. apply Hjoined. lia.
Qed.

Lemma invariant_steps P C N acts : ∀ s s',
  invariant rounds P C N s → steps rounds acts s = Some s' →
  invariant rounds P C N s'.
Proof.
  induction acts as [|a acts IH]; intros s s' Hinv; simpl.
  - by intros [= <-].
  - destruct (step rounds a s) as [s1|] eqn:Hstep; [|done].
    apply IH. by eapply invariant_step.
Qed.

(** ** The claims about the program *)

(** When [main] has returned, under whatever schedule, with at least one
    consumer: every consumer has left its loop, the queue is empty, and
    the tasks the consumers processed are exactly the tasks
    [id * 100 + i] of all producers and rounds, each processed once. *)
Theorem program_processes_every_task P C N acts s' :
  1 ≤ C → steps rounds acts (start P C N) = Some s' → main s' = Returned →
  processed_so_far s' ≡ₚ all_tasks rounds P ∧
  q (task_queue s') = [] ∧
  Forall (λ c, left_loop c = true) (consumers s').
Proof.
  intros HC Hsteps Hret.
  pose proof (invariant_steps P C N acts _ _ (invariant_start P C N) Hsteps)
    as [Hps Hcs _ _ Hmain Hleft Htasks].
  rewrite Hret in Hmain. destruct Hmain as (Hf & Hall & Hjoined).
  assert (Hforall : Forall (λ c, left_loop c = true) (consumers s')).
  { apply Forall_lookup. intros j c Hj.
    apply lookup_lt_Some in Hj as Hlt. rewrite Hcs in Hlt.
    specialize (Hjoined j Hlt). rewrite Hj in Hjoined. by injection Hjoined. }
  destruct Hleft as [_ Hq].
  { destruct (lookup_lt_is_Some_2 (consumers s') 0) as [c Hc]; [lia|].
    exists c. split; [by eapply list_elem_of_lookup_2|].
    by apply (proj1 (Forall_lookup _ _) Hforall 0 c). }
  split; [|done]. rewrite Hq, app_nil_r in Htasks.
  rewrite Htasks. unfold pushed_so_far, all_tasks. by rewrite Hall.
Qed.

Lemma progress P C N s :
  1 ≤ C → 1 ≤ N → invariant rounds P C N s → main s ≠ Returned →
  ∃ a s', step rounds a s = Some s'.
Proof.
  intros HC HN [Hps Hcs Hrounds [Hmax Hlen] Hmain Hleft Htasks] Hnot.
  destruct (main s) as [k|j|] eqn:Hpc; [| |done].
  - destruct Hmain as (Hf & Hall).
    destruct (producers s !! k) as [i|] eqn:Hk.
    + destruct (decide (i < rounds)) as [Hi|Hi].
      * destruct (decide (length (q (task_queue s)) < max_size (task_queue s)))
          as [Hroom|Hfull].
        -- (* the producer pushes *)
           exists (Produce k). simpl. unfold produce. rewrite Hk. simpl.
           rewrite decide_True by done.
           rewrite QueueFacts.push_open by done. eauto.
        -- (* the queue is full, hence not empty: a consumer pops *)
           destruct (lookup_lt_is_Some_2 (consumers s) 0) as [c Hc]; [lia|].
           exists (Consume 0). simpl. unfold consume. rewrite Hc. simpl.
           destruct (left_loop c) eqn:Hleft0.
           { destruct Hleft as [Hf' _]; [|congruence].
             exists c. split; [by eapply list_elem_of_lookup_2|done]. }
           destruct (task_queue s) as [[|task rest] M fin]; simpl in *;
             [lia|]. eauto.
      * exists Main. simpl. unfold main_step. rewrite Hpc, Hk.
        rewrite decide_False by done. eauto.
    + exists Main. simpl. unfold main_step. rewrite Hpc, Hk. eauto.
  - destruct Hmain as (Hf & Hall & Hjoined).
    destruct (consumers s !! j) as [c|] eqn:Hj.
    + destruct (left_loop c) eqn:Hc.
      * exists Main. simpl. unfold main_step. rewrite Hpc, Hj, Hc. eauto.
      * exists (Consume j). simpl. unfold consume. rewrite Hj. simpl.
        rewrite Hc. destruct (task_queue s) as [[|task rest] M fin];
          simpl in *; subst; eauto.
    + exists Main. simpl. unfold main_step. rewrite Hpc, Hj. eauto.
Qed.

(** With at least one consumer and a queue of bound at least 1 the
    program cannot get stuck: in every state it reaches before [main]
    returns, some thread can take a step. *)
Theorem program_never_deadlocks P C N acts s :
  1 ≤ C → 1 ≤ N → steps rounds acts (start P C N) = Some s →
  main s ≠ Returned →
  ∃ a s', step rounds a s = Some s'.
Proof.
  intros HC HN Hsteps Hnot. apply (progress P C N); try done.
  by apply (invariant_steps P C N acts _ _ (invariant_start P C N)).
Qed.

Lemma weight_step a s s' :
  step rounds a s = Some s' → weight rounds s' < weight rounds s.
Proof.
  destruct a as [k|j|]; simpl; intros Hstep.
  - apply produce_inv in Hstep as (i & t1 & Hk & Hi & Hpush & ->).
    pose proof (remaining_insert (producers s) k i Hk Hi) as Hsum.
    unfold weight. simpl. rewrite length_insert.
    destruct (push_done _ _ _ _ Hpush) as [[_ ->]|(_ & _ & ->)]; simpl;
      rewrite ?length_app; simpl; lia.
  - apply consume_inv in Hstep as (c & o & t1 & Hj & Hc & Hpop & ->).
    unfold weight. simpl. rewrite length_insert.
    destruct (pop_done _ _ _ Hpop)
      as [(-> & -> & _ & _)|(task & -> & Hq & _ & _)].
    + pose proof (in_loop_insert (consumers s) j c (Consumer (processed c) true)
                    Hj Hc) as Hin. simpl in Hin. lia.
    + pose proof (in_loop_insert (consumers s) j c
                    (Consumer (processed c ++ [task]) false) Hj Hc) as Hin.
      simpl in Hin. rewrite Hq. simpl. lia.
  - unfold main_step in Hstep. unfold weight.
    destruct (main s) as [k|j|]; [| |done].
    + destruct (producers s !! k) as [i|] eqn:Hk.
      * destruct (decide (i < rounds)); [done|]. injection Hstep as <-.
        simpl. apply lookup_lt_Some in Hk. lia.
      * injection Hstep as <-. simpl. lia.
    + destruct (consumers s !! j) as [c|] eqn:Hj.
      * destruct (left_loop c); [|done]. injection Hstep as <-.
        simpl. apply lookup_lt_Some in Hj. lia.
      * injection Hstep as <-. simpl. lia.
Qed.

Lemma weight_start P C N :
  weight rounds (start P C N) = 2 * (P * rounds) + 2 * C + P + 3.
Proof.
  unfold weight. simpl. rewrite !length_replicate.
  assert (H1 : sum_list ((λ i, rounds - i) <$> replicate P 0) = P * rounds).
  { induction P as [|P' IH]; csimpl; [done|]. rewrite IH. lia. }
  assert (H2 : length (filter (λ c, left_loop c = false)
                         (replicate C (Consumer [] false))) = C).
  { induction C as [|C' IH]; [done|]. simpl replicate.
    rewrite filter_cons_True by done. simpl. by rewrite IH. }
  rewrite H1, H2. lia.
Qed.

Lemma reaches_return P C N s :
  1 ≤ C → 1 ≤ N → invariant rounds P C N s →
  ∃ acts' s', steps rounds acts' s = Some s' ∧ main s' = Returned.
Proof.
  intros HC HN. remember (weight rounds s) as n eqn:Hn. revert s Hn.
  induction (lt_wf n) as [n _ IH]. intros s -> Hinv.
  destruct (main s) as [k|j|] eqn:Hpc; [| |by exists [], s].
  all: destruct (progress P C N s) as (a & s1 & Hstep);
    [done|done|done|by rewrite Hpc|].
  all: destruct (IH _ (weight_step _ _ _ Hstep) s1 eq_refl)
    as (acts' & s' & Hsteps' & Hret); [by eapply invariant_step|].
  all: exists (a :: acts'), s'; simpl; by rewrite Hstep.
Qed.
(** The program ends: no schedule has more steps than
    [2 * P * rounds + 2 * C + P + 3] (each step uses up some of the work
    left), and with at least one consumer and a bound of at least 1 some
    schedule, started in any state the program has reached, brings
    [main] to its [return]. *)
Theorem program_terminates P C N acts s :
  steps rounds acts (start P C N) = Some s →
  length acts ≤ 2 * (P * rounds) + 2 * C + P + 3 ∧
  (1 ≤ C → 1 ≤ N →
   ∃ acts' s', steps rounds acts' s = Some s' ∧ main s' = Returned).
Proof.
  intros Hsteps. split.
  - rewrite <- (weight_start P C N).
    assert (Hgen : ∀ s0, steps rounds acts s0 = Some s →
                         length acts + weight rounds s ≤ weight rounds s0).
    { clear Hsteps. induction acts as [|a acts IH]; intros s0; simpl.
      - intros [= <-]. lia.
      - destruct (step rounds a s0) as [s1|] eqn:Hstep; [|done].
        intros Hrest. specialize (IH s1 Hrest).
        pose proof (weight_step _ _ _ Hstep). lia. }
    specialize (Hgen _ Hsteps). lia.
  - intros HC HN. apply (reaches_return P C N); try done.
    by apply (invariant_steps P C N acts _ _ (invariant_start P C N)).
Qed.
End facts.

(** The program of the source: 3 producers of 5 tasks each, 2 consumers,
    a queue of bound 10, under one of its schedules. *)
Lemma program_processes_every_task_witness :
  ∃ s',
    steps 5
      (replicate 5 (Produce 0) ++ replicate 5 (Produce 1)
       ++ replicate 10 (Consume 0) ++ replicate 5 (Produce 2)
       ++ replicate 5 (Consume 1) ++ replicate 4 Main
       ++ [Consume 1; Consume 0] ++ replicate 3 Main)
      (start 3 2 10) = Some s' ∧
    main s' = Returned ∧
    processed_so_far s' ≡ₚ all_tasks 5 3 ∧
    q (task_queue s') = [] ∧
    Forall (λ c, left_loop c = true) (consumers s').
Proof.
  exists (System (ThreadSafeQueue.mk [] 10 true) [5; 5; 5]
            [Consumer [100; 101; 102; 103; 104; 200; 201; 202; 203; 204]%Z true;
             Consumer [300; 301; 302; 303; 304]%Z true] Returned).
  split; [vm_compute; reflexivity|]. split; [reflexivity|].
  apply (program_processes_every_task 5 3 2 10
           (replicate 5 (Produce 0) ++ replicate 5 (Produce 1)
            ++ replicate 10 (Consume 0) ++ replicate 5 (Produce 2)
            ++ replicate 5 (Consume 1) ++ replicate 4 Main
            ++ [Consume 1; Consume 0] ++ replicate 3 Main));
    [lia|vm_compute; reflexivity|reflexivity].
Defined.

Lemma program_never_deadlocks_witness :
  ∃ a s', step 5 a (start 3 2 10) = Some s'.
Proof.
  apply (program_never_deadlocks 5 3 2 10 [] (start 3 2 10));
    [lia|lia|reflexivity|done].
Defined.

Lemma program_terminates_witness :
  length [Produce 0; Produce 1; Consume 0]
  ≤ 2 * (3 * 5) + 2 * 2 + 3 + 3 ∧
  (1 ≤ 2 → 1 ≤ 10 →
   ∃ acts' s',
     steps 5 acts' (System (ThreadSafeQueue.mk [200%Z] 10 false) [1; 1; 0]
                      [Consumer [100%Z] false; Consumer [] false]
                      (JoinProducers 0)) = Some s' ∧
     main s' = Returned).
Proof.
  apply (program_terminates 5 3 2 10 [Produce 0; Produce 1; Consume 0]).
  vm_compute. reflexivity.
Defined.
End ProgramFacts.

(** * Properties of the shared counters *)

Module CounterFacts.
Import Counter.
Section facts.
Context (ITERATIONS : nat).
Implicit Types (s : state) (th : pc).

Lemma sum_insert (f : pc → nat) (l : list pc) t th th' :
  l !! t = Some th →
  sum_list (f <$> <[t:=th']> l) + f th = sum_list (f <$> l) + f th'.
Proof.
  intros Ht. destruct (ProgramFacts.split_at l t th th' Ht)
    as (l1 & l2 & -> & -> & _).
  rewrite !fmap_app, !fmap_cons, !sum_list_with_app. simpl. lia.
Qed.

(** When the sum is what one element contributes, the others contribute
    nothing. *)
Lemma sum_others (f : pc → nat) (l : list pc) t th t' th' :
  l !! t = Some th → l !! t' = Some th' → t ≠ t' →
  f th' ≤ sum_list (f <$> l) - f th.
Proof.
  intros Ht Ht' Hne.
  pose proof (sum_insert f l t th th' Ht) as H1.
  assert (Ht'' : <[t:=th']> l !! t' = Some th').
  { by rewrite list_lookup_insert_ne. }
  pose proof (sum_insert f _ t' th' th' Ht'') as H2.
  destruct (ProgramFacts.split_at (<[t:=th']> l) t' th' th' Ht'')
    as (l1 & l2 & Heq & _ & Hlen).
  assert (Hin : <[t:=th']> l !! t = Some th').
  { rewrite list_lookup_insert_eq; [done|by eapply lookup_lt_Some]. }
  rewrite Heq in Hin, H1.
  rewrite !fmap_app, !fmap_cons, !sum_list_with_app in H1. simpl in H1.
  destruct (decide (t < length l1)) as [Hlt|Hge].
  - rewrite lookup_app_l in Hin by done.
    destruct (ProgramFacts.split_at l1 t th' th' Hin) as (a & b & -> & _ & _).
    rewrite !fmap_app, !fmap_cons, !sum_list_with_app in H1. simpl in H1. lia.
  - rewrite lookup_app_r in Hin by lia.
    destruct (t - length l1) as [|n] eqn:Hn; [lia|]. simpl in Hin.
    destruct (ProgramFacts.split_at l2 n th' th' Hin) as (a & b & -> & _ & _).
    rewrite !fmap_app, !fmap_cons, !sum_list_with_app in H1. simpl in H1. lia.
Qed.

Lemma counter_invariant_start T : invariant ITERATIONS (start T).
Proof.
  split; simpl.
  - induction T as [|T IH]; csimpl; [done|]. by rewrite IH.
  - induction T as [|T IH]; csimpl; [done|]. by rewrite <- IH.
  - intros t i v [? _]%lookup_replicate. done.
  - apply Forall_replicate. simpl. lia.
Qed.

Lemma sum_member (f : pc → nat) (l : list pc) t th :
  l !! t = Some th → f th ≤ sum_list (f <$> l).
Proof.
  intros Ht. destruct (ProgramFacts.split_at l t th th Ht)
    as (l1 & l2 & -> & _ & _).
  rewrite !fmap_app, !fmap_cons, !sum_list_with_app. simpl. lia.
Qed.

Lemma lookup_insert_cases (l : list pc) t t' th th' :
  <[t:=th]> l !! t' = Some th' →
  (t' = t ∧ th' = th) ∨ (t' ≠ t ∧ l !! t' = Some th').
Proof.
  destruct (decide (t' = t)) as [->|Hne].
  - destruct (decide (t < length l)) as [Hlt|Hge].
    + rewrite list_lookup_insert_eq by done. intros [= <-]. by left.
    + rewrite lookup_ge_None_2; [done|]. rewrite length_insert. lia.
  - rewrite list_lookup_insert_ne by done. by right.
Qed.

Lemma counter_invariant_step t s s' :
  invariant ITERATIONS s → step ITERATIONS t s = Some s' →
  invariant ITERATIONS s'.
Proof.
  intros [Hex Hcount Hread Hloop]. unfold step.
  destruct (threads s !! t) as [th|] eqn:Ht; simpl; [|done].
  pose proof (proj1 (Forall_lookup _ _) Hloop t th Ht) as Hth.
  pose proof (sum_member inside _ _ _ Ht) as Hmem.
  assert (Hle : sum_list (inside <$> threads s) ≤ 1).
  { rewrite Hex. destruct (counter_mutex s); lia. }
  destruct th as [i|i|i v|i| |i]; simpl in Hth, Hmem; [| | | |done|done].
  - destruct (decide (i < ITERATIONS)) as [Hi|Hi].
    + destruct (counter_mutex s) eqn:Hlock; [done|]. intros [= <-].
      pose proof (sum_insert inside _ _ _ (AtRead i) Ht) as H1.
      pose proof (sum_insert (completed ITERATIONS) _ _ _ (AtRead i) Ht) as H2.
      split; simpl in *.
      * lia.
      * rewrite Hcount. f_equal. lia.
      * intros t' i' v' [[_ [=]]|[_ Hold]]%lookup_insert_cases. eauto.
      * by apply Forall_insert.
    + intros [= <-].
      pose proof (sum_insert inside _ _ _ Returned Ht) as H1.
      pose proof (sum_insert (completed ITERATIONS) _ _ _ Returned Ht) as H2.
      split; simpl in *.
      * lia.
      * rewrite Hcount. f_equal. lia.
      * intros t' i' v' [[_ [=]]|[_ Hold]]%lookup_insert_cases. eauto.
      * by apply Forall_insert.
  - intros [= <-].
    pose proof (sum_insert inside _ _ _ (AtWrite i (shared_counter_mutex s)) Ht)
      as H1.
    pose proof (sum_insert (completed ITERATIONS) _ _ _
                  (AtWrite i (shared_counter_mutex s)) Ht) as H2.
    split; simpl in *.
    + lia.
    + etrans; [apply Hcount|]. f_equal. lia.
    + intros t' i' v' [[_ [= _ ->]]|[_ Hold]]%lookup_insert_cases; eauto.
    + by apply Forall_insert.
  - pose proof (Hread t i v Ht) as ->.
    destruct (decide (shared_counter_mutex s < INT_MAX)%Z) as [Hv|Hv];
      intros [= <-].
    + pose proof (sum_insert inside _ _ _ (AtUnlock i) Ht) as H1.
      pose proof (sum_insert (completed ITERATIONS) _ _ _ (AtUnlock i) Ht)
        as H2.
      split; simpl in *.
      * lia.
      * rewrite Hcount. lia.
      * intros t' i' v' [[_ [=]]|[Hne Hold]]%lookup_insert_cases.
        assert (Hne' : t ≠ t') by congruence.
        pose proof (sum_others inside _ _ _ _ _ Ht Hold Hne'). simpl in *.
        lia.
      * by apply Forall_insert.
    + pose proof (sum_insert inside _ _ _ (Undefined i) Ht) as H1.
      pose proof (sum_insert (completed ITERATIONS) _ _ _ (Undefined i) Ht)
        as H2.
      split; simpl in *.
      * lia.
      * rewrite Hcount. f_equal. lia.
      * intros t' i' v' [[_ [=]]|[_ Hold]]%lookup_insert_cases. eauto.
      * by apply Forall_insert.
  - intros [= <-].
    pose proof (sum_insert inside _ _ _ (AtLock (S i)) Ht) as H1.
    pose proof (sum_insert (completed ITERATIONS) _ _ _ (AtLock (S i)) Ht)
      as H2.
    split; simpl in *.
    + lia.
    + rewrite Hcount. f_equal. lia.
    + intros t' i' v' [[_ [=]]|[_ Hold]]%lookup_insert_cases. eauto.
    + apply Forall_insert; [done|]. simpl. lia.
Qed.

Lemma length_step t s s' :
  step ITERATIONS t s = Some s' → length (threads s') = length (threads s).
Proof.
  unfold step. destruct (threads s !! t) as [th|]; simpl; [|done].
  destruct th as [i|i|i v|i| |i]; [| | | |done|done].
  - destruct (decide (i < ITERATIONS)).
    + destruct (counter_mutex s); [done|]. intros [= <-]. simpl.
      apply length_insert.
    + intros [= <-]. simpl. apply length_insert.
  - intros [= <-]. simpl. apply length_insert.
  - destruct (decide (v < INT_MAX)%Z); intros [= <-]; simpl;
      apply length_insert.
  - intros [= <-]. simpl. apply length_insert.
Qed.

Lemma counter_invariant_steps T ts : ∀ s s',
  invariant ITERATIONS s → length (threads s) = T →
  steps ITERATIONS ts s = Some s' →
  invariant ITERATIONS s' ∧ length (threads s') = T.
Proof.
  induction ts as [|t ts IH]; intros s s' Hinv Hlen; simpl.
  - by intros [= <-].
  - destruct (step ITERATIONS t s) as [s1|] eqn:Hstep; [|done].
    apply IH; [by eapply counter_invariant_step|].
    by rewrite (length_step _ _ _ Hstep).
Qed.

Lemma completed_bound (l : list pc) :
  Forall (in_bounds ITERATIONS) l →
  sum_list (completed ITERATIONS <$> l) ≤ length l * ITERATIONS.
Proof.
  induction 1 as [|th l Hth _ IH]; csimpl; [lia|].
  destruct th; simpl in *; lia.
Qed.

(** A thread that has not returned leaves room for its remaining
    increments. *)
Lemma completed_room (l : list pc) t th :
  Forall (in_bounds ITERATIONS) l → l !! t = Some th →
  sum_list (completed ITERATIONS <$> l) + ITERATIONS
  ≤ length l * ITERATIONS + completed ITERATIONS th.
Proof.
  intros Hl Ht.
  pose proof (sum_insert (completed ITERATIONS) l t th Returned Ht) as Hsum.
  assert (Hl' : Forall (in_bounds ITERATIONS) (<[t:=Returned]> l)).
  { by apply Forall_insert. }
  pose proof (completed_bound _ Hl') as Hb. rewrite length_insert in Hb.
  simpl in Hsum. lia.
Qed.

(** No thread leaves defined behaviour when all the increments fit an
    [int]. *)
Lemma defined_step T t s s' :
  (Z.of_nat (T * ITERATIONS) ≤ INT_MAX)%Z →
  invariant ITERATIONS s → length (threads s) = T →
  (∀ t' i, threads s !! t' ≠ Some (Undefined i)) →
  step ITERATIONS t s = Some s' →
  ∀ t' i, threads s' !! t' ≠ Some (Undefined i).
Proof.
  intros Hfit [Hex Hcount Hread Hloop] Hlen Hdef. unfold step.
  destruct (threads s !! t) as [th|] eqn:Ht; simpl; [|done].
  pose proof (completed_room _ _ _ Hloop Ht) as Hroom.
  pose proof (proj1 (Forall_lookup _ _) Hloop t th Ht) as Hth.
  destruct th as [i|i|i v|i| |i]; simpl in Hroom, Hth; [| | | |done|done].
  - destruct (decide (i < ITERATIONS)).
    + destruct (counter_mutex s); [done|]. intros [= <-] t' i'. simpl.
      intros [[_ [=]]|[_ Hold]]%lookup_insert_cases. by eapply Hdef.
    + intros [= <-] t' i'. simpl.
      intros [[_ [=]]|[_ Hold]]%lookup_insert_cases. by eapply Hdef.
  - intros [= <-] t' i'. simpl.
    intros [[_ [=]]|[_ Hold]]%lookup_insert_cases. by eapply Hdef.
  - pose proof (Hread t i v Ht) as ->.
    destruct (decide (shared_counter_mutex s < INT_MAX)%Z) as [Hv|Hv].
    + intros [= <-] t' i'. simpl.
      intros [[_ [=]]|[_ Hold]]%lookup_insert_cases. by eapply Hdef.
    + rewrite Hcount in Hv. rewrite Hlen in Hroom. lia.
  - intros [= <-] t' i'. simpl.
    intros [[_ [=]]|[_ Hold]]%lookup_insert_cases. by eapply Hdef.
Qed.

Lemma defined_steps T ts : ∀ s s',
  (Z.of_nat (T * ITERATIONS) ≤ INT_MAX)%Z →
  invariant ITERATIONS s → length (threads s) = T →
  (∀ t i, threads s !! t ≠ Some (Undefined i)) →
  steps ITERATIONS ts s = Some s' →
  ∀ t i, threads s' !! t ≠ Some (Undefined i).
Proof.
  induction ts as [|t ts IH]; intros s s' Hfit Hinv Hlen Hdef; simpl.
  - by intros [= <-].
  - destruct (step ITERATIONS t s) as [s1|] eqn:Hstep; [|done].
    apply IH; [done|by eapply counter_invariant_step| |].
    + by rewrite (length_step _ _ _ Hstep).
    + by eapply defined_step.
Qed.

Lemma completed_returned (l : list pc) :
  Forall (λ th, th = Returned) l →
  sum_list (completed ITERATIONS <$> l) = length l * ITERATIONS.
Proof.
  induction 1 as [|th l -> _ IH]; csimpl; [lia|]. rewrite IH. lia.
Qed.

(** With the mutex, when [T * ITERATIONS] fits an [int], whatever the
    schedule of the [T] threads: no increment overflows, so that the
    program stays within defined behaviour; never are two threads
    between [lock()] and [unlock()]; the counter is never above
    [T * ITERATIONS]; and when all threads have returned it is exactly
    [T * ITERATIONS]: no increment is lost, although the increment
    itself is a read followed by a write. *)
Theorem mutex_counter_exact T ts s :
  (Z.of_nat (T * ITERATIONS) ≤ INT_MAX)%Z →
  steps ITERATIONS ts (start T) = Some s →
  (∀ t i, threads s !! t ≠ Some (Undefined i)) ∧
  (∀ t t' th th',
     threads s !! t = Some th → threads s !! t' = Some th' →
     inside th = 1%nat → inside th' = 1%nat → t = t') ∧
  (0 ≤ shared_counter_mutex s ≤ Z.of_nat (T * ITERATIONS))%Z ∧
  (Forall (λ th, th = Returned) (threads s) →
   shared_counter_mutex s = Z.of_nat (T * ITERATIONS)).
Proof.
  intros Hfit Hsteps.
  destruct (counter_invariant_steps T ts (start T) s)
    as [[Hex Hcount Hread Hloop] Hlen];
    [apply counter_invariant_start|apply length_replicate|done|].
  split; [|split; [|split]].
  - apply (defined_steps T ts (start T)); try done.
    + apply counter_invariant_start.
    + apply length_replicate.
    + intros t i [? _]%lookup_replicate. done.
  - intros t t' th th' Ht Ht' Hin Hin'.
    destruct (decide (t = t')) as [|Hne]; [done|].
    pose proof (sum_others inside _ _ _ _ _ Ht Ht' Hne) as Hle.
    rewrite Hex in Hle. destruct (counter_mutex s); lia.
  - rewrite Hcount. pose proof (completed_bound _ Hloop). lia.
  - intros Hall. rewrite Hcount, (completed_returned _ Hall), Hlen. done.
Qed.
End facts.

Lemma mutex_counter_exact_witness :
  (Z.of_nat (2 * 1) ≤ INT_MAX)%Z ∧
  (∀ t i, threads (State 2 false [Returned; Returned]) !! t
          ≠ Some (Undefined i)) ∧
  (∀ t t' th th',
     threads (State 2 false [Returned; Returned]) !! t = Some th →
     threads (State 2 false [Returned; Returned]) !! t' = Some th' →
     inside th = 1 → inside th' = 1 → t = t') ∧
  (0 ≤ shared_counter_mutex (State 2 false [Returned; Returned])
   ≤ Z.of_nat (2 * 1))%Z ∧
  (Forall (λ th, th = Returned) (threads (State 2 false [Returned; Returned])) →
   shared_counter_mutex (State 2 false [Returned; Returned])
   = Z.of_nat (2 * 1)).
Proof.
  assert (Hfit : (Z.of_nat (2 * 1) ≤ INT_MAX)%Z) by (by vm_compute).
  split; [done|].
  apply (mutex_counter_exact 1 2 [0; 0; 0; 0; 1; 0; 1; 1; 1; 1] _ Hfit).
  vm_compute. reflexivity.
Defined.

(** ** The atomic counter *)

Lemma wrap_int_succ x : wrap_int (wrap_int x + 1) = wrap_int (x + 1).
Proof.
  unfold wrap_int. f_equal.
  replace ((x + 2 ^ 31) `mod` 2 ^ 32 - 2 ^ 31 + 1 + 2 ^ 31)%Z
    with ((x + 2 ^ 31) `mod` 2 ^ 32 + 1)%Z by lia.
  rewrite Zplus_mod_idemp_l. f_equal. lia.
Qed.

Lemma wrap_int_small x : (- 2 ^ 31 ≤ x < 2 ^ 31)%Z → wrap_int x = x.
Proof.
  intros Hx. unfold wrap_int. rewrite Z.mod_small; lia.
Qed.

Lemma atomic_invariant_steps I T ts : ∀ s s',
  atomic_counter s = wrap_int (Z.of_nat (sum_list (loop_counters s))) →
  Forall (λ i, i ≤ I) (loop_counters s) → length (loop_counters s) = T →
  atomic_steps I ts s = Some s' →
  atomic_counter s' = wrap_int (Z.of_nat (sum_list (loop_counters s'))) ∧
  Forall (λ i, i ≤ I) (loop_counters s') ∧ length (loop_counters s') = T.
Proof.
  induction ts as [|t ts IH]; intros s s' Hc Hb Hlen; simpl.
  - by intros [= <-].
  - unfold atomic_step.
    destruct (loop_counters s !! t) as [i|] eqn:Ht; simpl; [|done].
    destruct (decide (i < I)) as [Hi|]; [|done].
    apply IH; simpl.
    + rewrite Hc, wrap_int_succ. f_equal.
      destruct (ProgramFacts.split_at (loop_counters s) t i (S i) Ht)
        as (l1 & l2 & -> & -> & _).
      rewrite !sum_list_with_app. simpl. lia.
    + apply Forall_insert; [done|lia].
    + by rewrite length_insert.
Qed.

(** Whatever the schedule of the [T] threads of 05_atomic.cpp, the
    counter is the number of increments done so far, reduced as an [int]
    is; when no thread has an iteration left it is [T * ITERATIONS]
    reduced in that way, hence exactly [T * ITERATIONS] when that is
    below 2^31. *)
Theorem atomic_counter_exact I T ts s :
  atomic_steps I ts (atomic_start T) = Some s →
  atomic_counter s = wrap_int (Z.of_nat (sum_list (loop_counters s))) ∧
  ((∀ t, atomic_step I t s = None) →
   atomic_counter s = wrap_int (Z.of_nat (T * I)) ∧
   ((Z.of_nat (T * I) < 2 ^ 31)%Z → atomic_counter s = Z.of_nat (T * I))).
Proof.
  intros Hsteps.
  destruct (atomic_invariant_steps I T ts (atomic_start T) s)
    as (Hc & Hb & Hlen); simpl; try done.
  { clear. induction T as [|T IH]; csimpl; done. }
  { apply Forall_replicate. lia. }
  { apply length_replicate. }
  split; [done|]. intros Hdone.
  assert (Hall : loop_counters s = replicate T I).
  { apply list_eq. intros t. destruct (decide (t < T)) as [Hlt|Hge].
    - rewrite lookup_replicate_2 by done.
      destruct (lookup_lt_is_Some_2 (loop_counters s) t) as [i Hi]; [lia|].
      specialize (Hdone t). unfold atomic_step in Hdone.
      rewrite Hi in Hdone. simpl in Hdone.
      destruct (decide (i < I)); [done|].
      pose proof (proj1 (Forall_lookup _ _) Hb t i Hi). simpl in *.
      rewrite Hi. f_equal. lia.
    - rewrite !lookup_ge_None_2; [done|..]; rewrite ?length_replicate; lia. }
  assert (Hsum : sum_list (loop_counters s) = T * I).
  { rewrite Hall. clear. induction T as [|T IH]; csimpl; [done|].
    rewrite IH. lia. }
  rewrite Hc, Hsum. split; [done|]. intros Hsmall.
  apply wrap_int_small. lia.
Qed.

Lemma atomic_counter_exact_witness :
  atomic_counter (AtomicState 4 [2; 2])
  = wrap_int (Z.of_nat (sum_list (loop_counters (AtomicState 4 [2; 2])))) ∧
  ((∀ t, atomic_step 2 t (AtomicState 4 [2; 2]) = None) →
   atomic_counter (AtomicState 4 [2; 2]) = wrap_int (Z.of_nat (2 * 2)) ∧
   ((Z.of_nat (2 * 2) < 2 ^ 31)%Z →
    atomic_counter (AtomicState 4 [2; 2]) = Z.of_nat (2 * 2))).
Proof.
  apply (atomic_counter_exact 2 2 [0; 1; 1; 0]). vm_compute. reflexivity.
Defined.
End CounterFacts.

(** * Properties of the readers and writers *)

Module SharedDataFacts.
Import SharedData.
Section facts.
Context (writer_ids : list nat) (Hids : NoDup writer_ids).
Implicit Types (s : state) (th : thread).

Lemma key_inj a b : key a = key b → a = b.
Proof. unfold key. simpl. intros [= H]. by apply (inj pretty). Qed.

Lemma shared_data_invariant_start reader_ids :
  invariant writer_ids (start writer_ids reader_ids).
Proof.
  split; simpl.
  - rewrite <- list_fmap_compose. apply list_fmap_id.
  - intros k th [w [-> _]]%list_lookup_fmap_Some. simpl.
    split; [lia|apply lookup_empty].
  - intros x v. by rewrite lookup_empty.
  - intros r v Hin. by apply elem_of_nil in Hin.
  - done.
Qed.

Lemma shared_data_invariant_step a s s' :
  invariant writer_ids s → step a s = Some s' → invariant writer_ids s'.
Proof.
  intros [Hid Hwritten Hkeys Hseen Hundef]. destruct a as [k|j]; simpl.
  - unfold write_step. destruct (undefined s) eqn:Hu; [done|].
    destruct (writers s !! k) as [th|] eqn:Hk; simpl; [|done].
    destruct (decide (i th < 2)) as [Hi|]; [|done].
    assert (Hidk : (id <$> writers s) !! k = Some (id th)).
    { by rewrite list_lookup_fmap, Hk. }
    destruct (decide (Z.of_nat (id th) * 100 + Z.of_nat (i th) ≤ INT_MAX)%Z)
      as [Hfit|Hover]; intros [= <-]; cycle 1.
    { split; simpl; try done. intros _. exists (id th). split; [|lia].
      rewrite <- Hid. by eapply list_elem_of_lookup_2. }
    split; simpl.
    + rewrite list_fmap_insert. simpl. rewrite list_insert_id; done.
    + intros k' th' Hk'. destruct (decide (k' = k)) as [->|Hne].
      * rewrite list_lookup_insert_eq in Hk' by (by eapply lookup_lt_Some).
        injection Hk' as <-. simpl. split; [lia|]. by rewrite lookup_insert_eq.
      * rewrite list_lookup_insert_ne in Hk' by done.
        destruct (Hwritten k' th' Hk') as [Hle Hdata]. split; [done|].
        rewrite lookup_insert_ne; [done|]. intros Heq%key_inj.
        assert (Hidk' : (id <$> writers s) !! k' = Some (id th')).
        { by rewrite list_lookup_fmap, Hk'. }
        rewrite Hid in Hidk, Hidk'. rewrite Heq in Hidk.
        by pose proof (NoDup_lookup _ _ _ _ Hids Hidk Hidk').
    + intros x v Hx. destruct (decide (x = key (id th))) as [->|Hne].
      * exists (id th). split; [|done]. rewrite <- Hid.
        by eapply list_elem_of_lookup_2.
      * rewrite lookup_insert_ne in Hx by done. eauto.
    + done.
    + done.
  - unfold read_step. destruct (undefined s) eqn:Hu; [done|].
    destruct (readers s !! j) as [th|] eqn:Hj; cbn [mbind option_bind]; [|done].
    destruct (decide (i th < 3)) as [Hi|]; [|done]. intros [= <-].
    split; try done. cbn [seen shared_data].
    intros r v [Hin|Hin]%elem_of_app; [eauto|].
    apply list_elem_of_singleton in Hin.
    assert (r = id th ∧ v = shared_data s !! key (id th `mod` 2)) as [-> ->]
      by (split; [exact (f_equal fst Hin)|exact (f_equal snd Hin)]).
    generalize dependent (id th `mod` 2). intros m.
    destruct (shared_data s !! key m) as [v|] eqn:Hv; [|by left].
    right. destruct (Hkeys _ _ Hv) as (w & Hw & <-%key_inj).
    split; [done|]. rewrite <- Hid in Hw.
    apply list_elem_of_fmap in Hw as (th' & Hidth & Hth').
    apply list_elem_of_lookup_1 in Hth' as [k Hk].
    destruct (Hwritten k th' Hk) as [Hle Hdata].
    rewrite <- Hidth, Hv in Hdata.
    destruct (i th') as [|[|[|n]]]; cbn [written] in Hdata; [done| | |lia].
    + left. injection Hdata as ->. f_equal. lia.
    + right. injection Hdata as ->. done.
Qed.

Lemma shared_data_invariant_steps acts : ∀ s s',
  invariant writer_ids s → steps acts s = Some s' → invariant writer_ids s'.
Proof.
  induction acts as [|a acts IH]; intros s s' Hinv; simpl.
  - by intros [= <-].
  - destruct (step a s) as [s1|] eqn:Hstep; [|done].
    apply IH. by eapply shared_data_invariant_step.
Qed.

(** When the writers, started with distinct ids whose values
    [id * 100 + 1] fit an [int], have all finished, whatever the
    schedule was: no value has overflowed, the map holds for each writer
    the value of its last iteration, [id * 100 + 1], under its key, and
    it holds no other key. *)
Theorem writers_leave_last_values reader_ids acts s :
  Forall (λ w, (Z.of_nat w * 100 + 1 ≤ INT_MAX)%Z) writer_ids →
  steps acts (start writer_ids reader_ids) = Some s →
  (∀ k, write_step k s = None) →
  undefined s = false ∧
  (∀ w, w ∈ writer_ids →
        shared_data s !! key w = Some (Z.of_nat w * 100 + 1)%Z) ∧
  (∀ x v, shared_data s !! x = Some v → ∃ w, w ∈ writer_ids ∧ x = key w).
Proof.
  intros Hfit Hsteps Hdone.
  pose proof (shared_data_invariant_steps acts _ _
                (shared_data_invariant_start reader_ids) Hsteps)
    as [Hid Hwritten Hkeys _ Hundef].
  assert (Hu : undefined s = false).
  { destruct (undefined s); [|done].
    destruct (Hundef eq_refl) as (w & Hw & Hover).
    pose proof (proj1 (Forall_forall _ _) Hfit w Hw) as Hle. simpl in Hle.
    lia. }
  split; [done|]. split; [|done]. intros w Hw. rewrite <- Hid in Hw.
  apply list_elem_of_fmap in Hw as (th & -> & Hth).
  apply list_elem_of_lookup_1 in Hth as [k Hk].
  destruct (Hwritten k th Hk) as [Hle ->].
  specialize (Hdone k). unfold write_step in Hdone. rewrite Hu, Hk in Hdone.
  simpl in Hdone. destruct (decide (i th < 2)) as [Hi|Hi].
  - by destruct (decide (Z.of_nat (id th) * 100 + Z.of_nat (i th) ≤ INT_MAX)%Z).
  - by replace (i th) with 2 by lia.
Qed.

(** Whatever the schedule, a reader finds nothing, or one of the two
    values that the writer whose id is the reader's id modulo 2 stores;
    when no writer has that id (in [main]: for the readers 2 and 4, which
    look for "key0"), it never finds anything. *)
Theorem readers_see_written_values reader_ids acts s r v :
  steps acts (start writer_ids reader_ids) = Some s → (r, v) ∈ seen s →
  v = None ∨
  (r `mod` 2 ∈ writer_ids ∧
   (v = Some (Z.of_nat (r `mod` 2) * 100)%Z ∨
    v = Some (Z.of_nat (r `mod` 2) * 100 + 1)%Z)).
Proof.
  intros Hsteps Hin.
  pose proof (shared_data_invariant_steps acts _ _
                (shared_data_invariant_start reader_ids) Hsteps)
    as [_ _ _ Hseen _].
  by apply Hseen.
Qed.
End facts.

Lemma writers_leave_last_values_witness :
  ∃ s, NoDup [1; 2] ∧
       Forall (λ w, (Z.of_nat w * 100 + 1 ≤ INT_MAX)%Z) [1; 2] ∧
       steps main_schedule main_start = Some s ∧
       (∀ k, write_step k s = None) ∧
       undefined s = false ∧
       (∀ w, w ∈ [1; 2] →
             shared_data s !! key w = Some (Z.of_nat w * 100 + 1)%Z) ∧
       (∀ x v, shared_data s !! x = Some v → ∃ w, w ∈ [1; 2] ∧ x = key w).
Proof.
  assert (Hids : NoDup [1; 2]) by (by apply (bool_decide_unpack _)).
  assert (Hfit : Forall (λ w, (Z.of_nat w * 100 + 1 ≤ INT_MAX)%Z) [1; 2]).
  { repeat constructor; by vm_compute. }
  destruct (steps main_schedule main_start) as [s|] eqn:Hs;
    [|by vm_compute in Hs].
  assert (Hdone : ∀ k, write_step k s = None).
  { vm_compute in Hs. injection Hs as <-.
    intros [|[|k]]; vm_compute; reflexivity. }
  exists s. do 4 (split; [done|]).
  exact (writers_leave_last_values [1; 2] Hids [1; 2; 3; 4] main_schedule s
           Hfit Hs Hdone).
Defined.

Lemma readers_see_written_values_witness :
  ∃ s, NoDup [1; 2] ∧
       steps [Write 0; Read 0; Read 1] main_start = Some s ∧
       (1, Some 100%Z) ∈ seen s ∧
       (Some 100%Z = None ∨
        (1 `mod` 2 ∈ [1; 2] ∧
         (Some 100%Z = Some (Z.of_nat (1 `mod` 2) * 100)%Z ∨
          Some 100%Z = Some (Z.of_nat (1 `mod` 2) * 100 + 1)%Z))).
Proof.
  assert (Hids : NoDup [1; 2]) by (by apply (bool_decide_unpack _)).
  destruct (steps [Write 0; Read 0; Read 1] main_start) as [s|] eqn:Hs;
    [|by vm_compute in Hs].
  assert (Hin : (1, Some 100%Z) ∈ seen s).
  { vm_compute in Hs. injection Hs as <-. cbn [seen]. apply list_elem_of_here. }
  exists s. split; [done|]. split; [done|]. split; [done|].
  exact (readers_see_written_values [1; 2] Hids [1; 2; 3; 4]
           [Write 0; Read 0; Read 1] s 1 (Some 100%Z) Hs Hin).
Defined.
End SharedDataFacts.
